(** * AL_Decorators: a shallow embedding of [al_decorators/__init__.py]

    The development follows the layout of the Python module:

    - [Py]        : the fragment of the Python object model the module touches
                    (values, ordered dictionaries, exceptions);
    - [Inspect]   : the part of the host library [inspect] the module calls
                    ([Signature.bind], [BoundArguments.args], [.kwargs],
                    [.apply_defaults]), transcribed from CPython's
                    [Lib/inspect.py] (3.8 to 3.11: the package requires 3.8);
    - the interpreter's own matching of a call against a [def]
                    ([match_call]), which a direct call of a function goes
                    through;
    - the section [Decorators] : [signature_decorator_factory],
                    [SignatureDecorator] (with [__init__], [__call__],
                    [factory]) and [dynamic_defaults];
    - [DefaultProperty] : [defaultproperty].

    Effects are explicit.  User code (target bodies, callbacks, providers,
    property accessors) is a parameter of the development; the module's own
    code runs in a small monad that threads the program state, collects the
    calls it makes in a ghost trace and propagates exceptions. *)

From Stdlib Require Import ZArith.
From stdpp Require Import gmap strings list.

Set Warnings "-register-all".


(* ===================================================================== *)
(** ** Python values, dictionaries, exceptions *)
(* ===================================================================== *)

Module Py.

(** The values that flow through argument lists.  A dictionary keeps its
    insertion order, as Python's [dict] does; its keys are strings, which
    is all a keyword mapping can hold.  [VFunc n] is a callable object,
    named by the index of its code in the user program. *)
Inductive value : Type :=
| VNone
| VBool (b : bool)
| VInt (z : Z)
| VStr (s : string)
| VTuple (items : list value)
| VDict (items : list (string * value))
| VFunc (code : nat).

(** Exceptions, by class, with their message. *)
Inductive exn : Type :=
| TypeError (msg : string)
| AttributeError (msg : string)
| UserError (tag : nat).

Definition result (A : Type) : Type := exn + A.
Abbreviation Ok := (@inr exn _).
Abbreviation Err := (@inl exn _).

Definition is_TypeError (e : exn) : bool :=
  match e with TypeError _ => true | _ => false end.

(** *** Ordered dictionaries with string keys *)
Section Dict.
Context {A : Type}.

Definition dict : Type := list (string * A).

(** [d[k]] (None stands for KeyError) *)
Fixpoint dict_get (k : string) (d : dict) : option A :=
  match d with
  | [] => None
  | (k', v) :: d' => if decide (k = k') then Some v else dict_get k d'
  end.

(** [k in d] *)
Definition dict_mem (k : string) (d : dict) : bool :=
  match dict_get k d with Some _ => true | None => false end.

(** [d[k] = v]: an existing key keeps its place, a new one goes last. *)
Fixpoint dict_set (k : string) (v : A) (d : dict) : dict :=
  match d with
  | [] => [(k, v)]
  | (k', v') :: d' =>
      if decide (k = k') then (k, v) :: d' else (k', v') :: dict_set k v d'
  end.

(** [del d[k]] on a key known to be there *)
Fixpoint dict_del (k : string) (d : dict) : dict :=
  match d with
  | [] => []
  | (k', v') :: d' =>
      if decide (k = k') then d' else (k', v') :: dict_del k d'
  end.

(** [d.pop(k)] (None stands for KeyError) *)
Definition dict_pop (k : string) (d : dict) : option (A * dict) :=
  match dict_get k d with
  | Some v => Some (v, dict_del k d)
  | None => None
  end.

(** [d.update(e)] *)
Definition dict_update (d e : dict) : dict :=
  fold_left (fun acc kv => dict_set (fst kv) (snd kv) acc) e d.

Definition keys (d : dict) : list string := map fst d.
End Dict.

Arguments dict A : clear implicits.

(** Iterating a value, as [list.extend] does: a tuple yields its items, a
    string its characters, a dictionary its keys; nothing else is iterable
    in this fragment. *)
Fixpoint chars (s : string) : list value :=
  match s with
  | EmptyString => []
  | String c s' => VStr (String c EmptyString) :: chars s'
  end.

Definition iterate (v : value) : option (list value) :=
  match v with
  | VTuple items => Some items
  | VStr s => Some (chars s)
  | VDict items => Some (map (fun kv => VStr (fst kv)) items)
  | _ => None
  end.

Definition callable (v : value) : bool :=
  match v with VFunc _ => true | _ => false end.

End Py.
Export Py.

(* ===================================================================== *)
(** ** The host library: [inspect.Signature] and [inspect.BoundArguments] *)
(* ===================================================================== *)

Module Inspect.

Inductive kind : Type :=
| POSITIONAL_ONLY
| POSITIONAL_OR_KEYWORD
| VAR_POSITIONAL
| KEYWORD_ONLY
| VAR_KEYWORD.

Definition kind_rank (k : kind) : nat :=
  match k with
  | POSITIONAL_ONLY => 0
  | POSITIONAL_OR_KEYWORD => 1
  | VAR_POSITIONAL => 2
  | KEYWORD_ONLY => 3
  | VAR_KEYWORD => 4
  end.

Global Instance kind_eq_dec : EqDecision kind.
Proof. solve_decision. Defined.

(** [inspect.Parameter] (the name is reserved here, hence [Param]): [default = None] is the marker [Parameter.empty]. *)
Record Param : Type := mkParam {
  name : string;
  pkind : kind;
  default : option value;
}.

(** [inspect.Signature]: the ordered parameters of a function. *)
Definition Signature : Type := list Param.

Definition param_names (sig : Signature) : list string := map name sig.

(** [k in sig.parameters] *)
Definition has_parameter (k : string) (sig : Signature) : bool :=
  bool_decide (k ∈ param_names sig).

Definition Arguments : Type := dict value.
Definition Kwargs : Type := dict value.

(** [inspect.BoundArguments]: its two slots.  [arguments] is the mutable
    ordered mapping callbacks read and write. *)
Record BoundArguments : Type := mkBoundArguments {
  ba_signature : Signature;
  arguments : Arguments;
}.

(** A function object, reduced to what the module uses: its [__name__],
    the parameter list of its [def] and the index of its body in the user
    program. *)
Record Function : Type := mkFunction {
  __name__ : string;
  __signature__ : Signature;
  __code__ : nat;
}.

(** [inspect.signature(func)] *)
Definition signature (func : Function) : Signature := __signature__ func.

Definition is_positional (p : Param) : bool :=
  match pkind p with
  | POSITIONAL_ONLY | POSITIONAL_OR_KEYWORD => true
  | _ => false
  end.

Definition is_variadic (p : Param) : bool :=
  match pkind p with
  | VAR_POSITIONAL | VAR_KEYWORD => true
  | _ => false
  end.

Definition quoted (s : string) : string := "'" +:+ s +:+ "'".

(** *** [Signature._bind], first loop: the positional arguments.

    Returns the arguments bound so far and the parameters left for the
    keyword loop ([parameters_ex] chained with the rest of the
    iterator). *)
Fixpoint bind_positional (args : list value) (parameters : list Param)
         (kwargs : Kwargs) (arguments : Arguments)
  : result (Arguments * list Param) :=
  match args with
  | [] =>
      match parameters with
      | [] => Ok (arguments, [])
      | param :: parameters' =>
          if decide (pkind param = VAR_POSITIONAL) then
            Ok (arguments, parameters')
          else if dict_mem (name param) kwargs then
            if decide (pkind param = POSITIONAL_ONLY) then
              Err (TypeError (quoted (name param) +:+
                     " parameter is positional only, but was passed as a keyword"))
            else Ok (arguments, param :: parameters')
          else if decide (pkind param = VAR_KEYWORD) then
            Ok (arguments, param :: parameters')
          else if default param is Some _ then
            Ok (arguments, param :: parameters')
          else
            Err (TypeError ("missing a required argument: " +:+ quoted (name param)))
      end
  | arg_val :: arg_vals =>
      match parameters with
      | [] => Err (TypeError "too many positional arguments")
      | param :: parameters' =>
          match pkind param with
          | VAR_KEYWORD | KEYWORD_ONLY =>
              Err (TypeError "too many positional arguments")
          | VAR_POSITIONAL =>
              Ok (dict_set (name param) (VTuple (arg_val :: arg_vals)) arguments,
                  parameters')
          | k =>
              if dict_mem (name param) kwargs
                 && negb (bool_decide (k = POSITIONAL_ONLY)) then
                Err (TypeError ("multiple values for argument " +:+ quoted (name param)))
              else
                bind_positional arg_vals parameters' kwargs
                                (dict_set (name param) arg_val arguments)
          end
      end
  end.

(** *** [Signature._bind], second loop: the keyword arguments.

    Returns the arguments, what is left of [kwargs] and the
    variable-keyword parameter met on the way, if any. *)
Fixpoint bind_keywords (parameters : list Param) (kwargs : Kwargs)
         (arguments : Arguments) (kwargs_param : option Param)
  : result (Arguments * Kwargs * option Param) :=
  match parameters with
  | [] => Ok (arguments, kwargs, kwargs_param)
  | param :: parameters' =>
      if decide (pkind param = VAR_KEYWORD) then
        bind_keywords parameters' kwargs arguments (Some param)
      else if decide (pkind param = VAR_POSITIONAL) then
        bind_keywords parameters' kwargs arguments kwargs_param
      else
        match dict_pop (name param) kwargs with
        | None =>
            if default param is Some _ then
              bind_keywords parameters' kwargs arguments kwargs_param
            else
              Err (TypeError ("missing a required argument: " +:+ quoted (name param)))
        | Some (arg_val, kwargs') =>
            if decide (pkind param = POSITIONAL_ONLY) then
              Err (TypeError (quoted (name param) +:+
                     " parameter is positional only, but was passed as a keyword"))
            else
              bind_keywords parameters' kwargs'
                            (dict_set (name param) arg_val arguments) kwargs_param
        end
  end.

(** *** [Signature._bind], the end: what is left of [kwargs] goes to the
    variable-keyword parameter, or is an error. *)
Definition bind_rest (arguments : Arguments) (kwargs : Kwargs)
           (kwargs_param : option Param) : result Arguments :=
  match kwargs with
  | [] => Ok arguments
  | (k, _) :: _ =>
      match kwargs_param with
      | Some param => Ok (dict_set (name param) (VDict kwargs) arguments)
      | None => Err (TypeError ("got an unexpected keyword argument " +:+ quoted k))
      end
  end.

(** The keyword loop and the end, from an intermediate state. *)
Definition bind_keywords_rest (parameters : list Param) (kwargs : Kwargs)
           (arguments : Arguments) (kwargs_param : option Param)
  : result Arguments :=
  match bind_keywords parameters kwargs arguments kwargs_param with
  | inl e => Err e
  | inr (arguments, kwargs, kwargs_param) => bind_rest arguments kwargs kwargs_param
  end.

(** The whole of [_bind], from an intermediate state of the first loop. *)
Definition bind_from (args : list value) (parameters : list Param)
           (kwargs : Kwargs) (arguments : Arguments) : result Arguments :=
  match bind_positional args parameters kwargs arguments with
  | inl e => Err e
  | inr (arguments, parameters) =>
      bind_keywords_rest parameters kwargs arguments None
  end.

(** *** [Signature.bind] *)
Definition bind (sig : Signature) (args : list value) (kwargs : Kwargs)
  : result BoundArguments :=
  match bind_from args sig kwargs [] with
  | inl e => Err e
  | inr arguments => Ok (mkBoundArguments sig arguments)
  end.

(** *** [BoundArguments.apply_defaults] *)
Fixpoint defaults_loop (parameters : list Param) (arguments : Arguments)
  : Arguments :=
  match parameters with
  | [] => []
  | param :: parameters' =>
      let rest := defaults_loop parameters' arguments in
      match dict_get (name param) arguments with
      | Some v => (name param, v) :: rest
      | None =>
          match default param with
          | Some val => (name param, val) :: rest
          | None =>
              match pkind param with
              | VAR_POSITIONAL => (name param, VTuple []) :: rest
              | VAR_KEYWORD => (name param, VDict []) :: rest
              | _ => rest
              end
          end
      end
  end.

(** [self.arguments = dict(new_arguments)]: building the dictionary from
    the pairs goes through [dict_set], so a repeated name keeps one
    entry. *)
Definition apply_defaults (ba : BoundArguments) : BoundArguments :=
  mkBoundArguments (ba_signature ba)
    (dict_update [] (defaults_loop (ba_signature ba) (arguments ba))).

(** *** [BoundArguments.args] *)
Fixpoint args_loop (parameters : list Param) (arguments : Arguments)
  : result (list value) :=
  match parameters with
  | [] => Ok []
  | param :: parameters' =>
      match pkind param with
      | VAR_KEYWORD | KEYWORD_ONLY => Ok []
      | k =>
          match dict_get (name param) arguments with
          | None => Ok []
          | Some arg =>
              match args_loop parameters' arguments with
              | inl e => Err e
              | inr rest =>
                  if decide (k = VAR_POSITIONAL) then
                    match iterate arg with
                    | Some items => Ok (items ++ rest)
                    | None => Err (TypeError "object is not iterable")
                    end
                  else Ok (arg :: rest)
              end
          end
      end
  end.

Definition args (ba : BoundArguments) : result (list value) :=
  args_loop (ba_signature ba) (arguments ba).

(** *** [BoundArguments.kwargs]

    [kwargs.update(arg)] is modelled for a dictionary [arg]; any other
    value in the variable-keyword slot is refused with a [TypeError]. *)
Fixpoint kwargs_loop (parameters : list Param) (arguments : Arguments)
         (kwargs_started : bool) (kwargs : Kwargs) : result Kwargs :=
  match parameters with
  | [] => Ok kwargs
  | param :: parameters' =>
      if negb kwargs_started
         && negb (bool_decide (pkind param = VAR_KEYWORD)
                  || bool_decide (pkind param = KEYWORD_ONLY))
      then
        if negb (dict_mem (name param) arguments)
        then (* kwargs_started = True; continue *)
          kwargs_loop parameters' arguments true kwargs
        else (* not kwargs_started: continue *)
          kwargs_loop parameters' arguments false kwargs
      else
        match dict_get (name param) arguments with
        | None => kwargs_loop parameters' arguments true kwargs
        | Some arg =>
            if decide (pkind param = VAR_KEYWORD) then
              match arg with
              | VDict items =>
                  kwargs_loop parameters' arguments true (dict_update kwargs items)
              | _ => Err (TypeError "object is not a mapping")
              end
            else
              kwargs_loop parameters' arguments true
                          (dict_set (name param) arg kwargs)
        end
  end.

Definition kwargs (ba : BoundArguments) : result Kwargs :=
  kwargs_loop (ba_signature ba) (arguments ba) false [].

End Inspect.
Import Inspect.

(* ===================================================================== *)
(** ** Objects of the module, the user program, the execution monad *)
(* ===================================================================== *)

(** A callback registered with a decorator.  User callbacks are named by
    their index in the user program; [Update kw] is the closure [update]
    that [dynamic_defaults] registers, with the keyword mapping [kw] it captures. *)
Inductive callback : Type :=
| UserCallback (code : nat)
| Update (kw : Kwargs).

(** The attributes of a [SignatureDecorator] instance.  The seven
    underscored ones are set by [__init__]; [boundarguments] is the
    attribute the decorated function assigns on every call (it does not
    exist before the first call, hence the option). *)
Record SignatureDecorator : Type := mkSignatureDecorator {
  _callbacks : list callback;
  _apply_defaults : bool;
  _apply_self : bool;
  _func : option Function;
  _signature : option Signature;
  _boundarguments : option BoundArguments;
  _isset : bool;
  boundarguments : option BoundArguments;
}.

(** What a callback is called with: the decorator instance ([apply_self])
    or the bound arguments of the call. *)
Inductive CallbackArg : Type :=
| ArgSelf (self : SignatureDecorator)
| ArgBoundArguments (ba : BoundArguments).

(** The [BoundArguments] object a callback can reach through its
    argument. *)
Definition reachable_ba (arg : CallbackArg) : option BoundArguments :=
  match arg with
  | ArgSelf self => boundarguments self
  | ArgBoundArguments ba => Some ba
  end.

(** Ghost trace: the calls the module's code makes into user code.  A
    callback event records the argument at the time of the call; a provider
    event records how the call ended; a target event records the locals the
    body starts with; an accessor event records the property's name. *)
Inductive event : Type :=
| EvCallback (cb : callback) (arg : CallbackArg)
| EvProvider (k : string) (code : nat) (outcome : result value)
| EvTarget (func : Function) (locals : Arguments)
| EvAccessor (name : string).

(** The user program over its own state [U].  A callback returns the
    content of the [arguments] mapping of the bound arguments it was handed
    as it leaves it: the object is shared, so this is what every later
    reader sees.  [call_error] is the text of the [TypeError] the
    interpreter raises when it refuses a call of a function: its wording
    differs from that of [inspect] and between versions, and is left
    open. *)
Record Program (U : Type) : Type := mkProgram {
  run_function : nat -> Arguments -> U -> U * result value;
  run_callback : nat -> CallbackArg -> U -> U * result Arguments;
  run_provider : nat -> U -> U * result value;
  call_error : Function -> list value -> Kwargs -> string;
}.
Arguments run_function {U} _ _ _ _.
Arguments run_callback {U} _ _ _ _.
Arguments run_provider {U} _ _ _.
Arguments call_error {U} _ _ _ _.

(** State, trace and exceptions. *)
Definition M (S A : Type) : Type := S -> list event * S * result A.

Section Monad.
Context {S : Type}.

Definition ret {A} (a : A) : M S A := fun s => ([], s, Ok a).

Definition raise {A} (e : exn) : M S A := fun s => ([], s, Err e).

Definition mbind' {A B} (m : M S A) (k : A -> M S B) : M S B :=
  fun s =>
    match m s with
    | (tr, s', inl e) => (tr, s', Err e)
    | (tr, s', inr a) =>
        match k a s' with
        | (tr', s'', r) => (tr ++ tr', s'', r)
        end
    end.

Definition emit (ev : event) : M S unit := fun s => ([ev], s, Ok tt).

Definition of_result {A} (r : result A) : M S A := fun s => ([], s, r).

Definition get : M S S := fun s => ([], s, Ok s).

Definition modify (f : S -> S) : M S unit := fun s => ([], f s, Ok tt).

(** [try: m except: h] with a bare [except] *)
Definition try_except {A} (m : M S A) (h : M S A) : M S A :=
  fun s =>
    match m s with
    | (tr, s', inl _) =>
        match h s' with
        | (tr', s'', r) => (tr ++ tr', s'', r)
        end
    | (tr, s', inr a) => (tr, s', Ok a)
    end.
End Monad.

Declare Scope py_scope.
Delimit Scope py_scope with py.
Notation "x <- m ;; k" := (mbind' m (fun x => k))
  (at level 100, m at next level, right associativity) : py_scope.
Notation "m ;; k" := (mbind' m (fun _ => k))
  (at level 100, right associativity) : py_scope.
Open Scope py_scope.

(** User code acts on the user state only. *)
Definition user {U A} (f : U -> U * result A) : M U A :=
  fun u => let (u', r) := f u in ([], u', r).

(** Code that knows nothing of the instance, run where the instance is
    part of the state. *)
Definition outside {I U A} (m : M U A) : M (I * U) A :=
  fun s => match m (snd s) with (tr, u', r) => (tr, (fst s, u'), r) end.

Definition trace_of {S A} (x : list event * S * result A) : list event := fst (fst x).
Definition state_of {S A} (x : list event * S * result A) : S := snd (fst x).
Definition outcome_of {S A} (x : list event * S * result A) : result A := snd x.

Definition with_arguments (ba : BoundArguments) (a : Arguments) : BoundArguments :=
  mkBoundArguments (ba_signature ba) a.

(* ===================================================================== *)
(** ** The interpreter's matching of a call against a [def] *)
(* ===================================================================== *)

(** How Python itself matches [func( *args, **kwargs )] against the
    parameters (the language reference, section "Calls"; PEP 570 for the
    positional-only parameters).  This is not [Signature.bind]: the two
    are written separately and compared by theorems. *)

(** The names a keyword argument can bind: those of the parameters that are
    neither positional-only nor variadic. *)
Definition keywordable (p : Param) : bool :=
  match pkind p with
  | POSITIONAL_OR_KEYWORD | KEYWORD_ONLY => true
  | _ => false
  end.

Definition keyword_names (sig : Signature) : list string :=
  param_names (filter (fun p => keywordable p = true) sig).

(** "If there are N positional arguments, they are placed in the first N
    slots": the slots of the leading parameters that take a positional
    argument.  Returns the slots and the positional arguments in excess. *)
Fixpoint place_positional (params : list Param) (args : list value)
         (slots : Arguments) : Arguments * list value :=
  match params, args with
  | param :: params', arg :: args' =>
      if is_positional param
      then place_positional params' args' (dict_set (name param) arg slots)
      else (slots, args)
  | _, _ => (slots, args)
  end.

(** "For each keyword argument, the identifier is used to determine the
    corresponding slot.  If the slot is already filled, a TypeError
    exception is raised.  Otherwise, the argument is placed in the slot."
    A keyword that names no slot (the names of the positional-only and of
    the variadic parameters are none) is in excess.  [None] stands for the
    refusal. *)
Fixpoint place_keywords (sig : Signature) (kwargs : Kwargs)
         (slots : Arguments) (excess : Kwargs) : option (Arguments * Kwargs) :=
  match kwargs with
  | [] => Some (slots, excess)
  | (k, v) :: kwargs' =>
      if bool_decide (k ∈ keyword_names sig) then
        if dict_mem k slots then None
        else place_keywords sig kwargs' (dict_set k v slots) excess
      else place_keywords sig kwargs' slots (dict_set k v excess)
  end.

(** "The slots that are still unfilled are filled with the corresponding
    default value from the function definition.  If there are any unfilled
    slots for which no default value is specified, a TypeError exception
    is raised."  The [*identifier] parameter receives a tuple of the excess
    positional arguments, the [**identifier] parameter a dictionary of the
    excess keyword arguments.  The result lists the locals in the order of
    the parameters. *)
Fixpoint fill_slots (params : list Param) (slots : Arguments)
         (more : list value) (excess : Kwargs) : option Arguments :=
  match params with
  | [] => Some []
  | param :: params' =>
      let filled :=
        match pkind param with
        | VAR_POSITIONAL => Some (VTuple more)
        | VAR_KEYWORD => Some (VDict excess)
        | _ =>
            match dict_get (name param) slots with
            | Some v => Some v
            | None => default param
            end
        end in
      match filled, fill_slots params' slots more excess with
      | Some v, Some locals => Some ((name param, v) :: locals)
      | _, _ => None
      end
  end.

Definition has_kind (k : kind) (sig : Signature) : bool :=
  existsb (fun p => bool_decide (pkind p = k)) sig.

Definition is_nil {A} (l : list A) : bool :=
  match l with [] => true | _ => false end.

(** The locals the body starts with, or [None] when the call is refused:
    a slot filled twice, positional arguments in excess without
    [*identifier], keyword arguments in excess without [**identifier], a
    slot left unfilled without a default. *)
Definition match_call (sig : Signature) (args : list value) (kwargs : Kwargs)
  : option Arguments :=
  let (slots, more) := place_positional sig args [] in
  match place_keywords sig kwargs slots [] with
  | None => None
  | Some (slots, excess) =>
      if negb (is_nil more) && negb (has_kind VAR_POSITIONAL sig) then None
      else if negb (is_nil excess) && negb (has_kind VAR_KEYWORD sig) then None
      else fill_slots sig slots more excess
  end.

(* ===================================================================== *)
(** ** Calls into user code *)
(* ===================================================================== *)

Section Calls.
Context {U : Type} (prog : Program U).

(** [func( *args, **kwargs )] on a function object.  The interpreter matches
    the call against the [def] and runs the body on the resulting locals;
    a call it refuses is a [TypeError], with the interpreter's own text,
    and the body does not run. *)
Definition call_function (func : Function) (args : list value) (kwargs : Kwargs)
  : M U value :=
  match match_call (signature func) args kwargs with
  | None => raise (TypeError (call_error prog func args kwargs))
  | Some locals =>
      emit (EvTarget func locals) ;;
      user (run_function prog (__code__ func) locals)
  end.

(** [v()] for the value configured under [k]: a callable is called with no
    argument, anything else is not callable. *)
Definition call_provider (k : string) (v : value) : M U value :=
  match v with
  | VFunc code =>
      fun u =>
        let (u', r) := run_provider prog code u in
        ([EvProvider k code r], u', r)
  | _ => raise (TypeError "object is not callable")
  end.

(** *** The closures of [dynamic_defaults] *)

Definition unexpected_keyword (fname k : string) : string :=
  "dynamic_defaults got an unexpected keyword argument for the function "
  +:+ fname +:+ ": " +:+ k.

(** [for k in kw: if k not in params: raise TypeError(...)] *)
Fixpoint ondecoration_loop (ks : list string) (params : Signature)
         (sigdecor : SignatureDecorator) : result unit :=
  match ks with
  | [] => Ok tt
  | k :: ks' =>
      if negb (has_parameter k params) then
        match _func sigdecor with
        | Some func => Err (TypeError (unexpected_keyword (__name__ func) k))
        | None => Err (AttributeError "'NoneType' object has no attribute '__name__'")
        end
      else ondecoration_loop ks' params sigdecor
  end.

Definition ondecoration (kw : Kwargs) (sigdecor : SignatureDecorator) : M U unit :=
  match _signature sigdecor with
  | None => raise (AttributeError "'NoneType' object has no attribute 'parameters'")
  | Some params => of_result (ondecoration_loop (keys kw) params sigdecor)
  end.

(** [if k not in ba.arguments:
      try: ba.arguments[k] = v()
      except: ba.arguments[k] = v] *)
Definition update_item (k : string) (v : value) (arguments : Arguments)
  : M U Arguments :=
  if negb (dict_mem k arguments) then
    try_except
      (r <- call_provider k v ;; ret (dict_set k r arguments))
      (ret (dict_set k v arguments))
  else ret arguments.

(** [for (k,v) in kw.items(): ...] *)
Fixpoint update_loop (kw : Kwargs) (arguments : Arguments) : M U Arguments :=
  match kw with
  | [] => ret arguments
  | (k, v) :: kw' =>
      arguments' <- update_item k v arguments ;;
      update_loop kw' arguments'
  end.

Definition update (kw : Kwargs) (sigdecor : CallbackArg) : M U Arguments :=
  match sigdecor with
  | ArgSelf self =>
      match boundarguments self with
      | Some ba =>
          arguments' <- update_loop kw (arguments ba) ;;
          ret (arguments (apply_defaults (with_arguments ba arguments')))
      | None =>
          raise (AttributeError "'SignatureDecorator' object has no attribute 'boundarguments'")
      end
  | ArgBoundArguments _ =>
      raise (AttributeError "'BoundArguments' object has no attribute 'boundarguments'")
  end.

(** [callback(arg)] *)
Definition call_callback (cb : callback) (arg : CallbackArg) : M U Arguments :=
  emit (EvCallback cb arg) ;;
  match cb with
  | UserCallback code => user (run_callback prog code arg)
  | Update kw => update kw arg
  end.

(* =================================================================== *)
(** ** [signature_decorator_factory] *)
(* =================================================================== *)

(** [for callback in callbacks: callback(ba)].  The one [ba] object is
    threaded through: each callback starts from what the previous one
    left. *)
Fixpoint run_callbacks (callbacks : list callback) (ba : BoundArguments)
  : M U BoundArguments :=
  match callbacks with
  | [] => ret ba
  | cb :: callbacks' =>
      arguments' <- call_callback cb (ArgBoundArguments ba) ;;
      run_callbacks callbacks' (with_arguments ba arguments')
  end.

(** [return func( *ba.args, **ba.kwargs )] *)
Definition invoke (func : Function) (ba : BoundArguments) : M U value :=
  args' <- of_result (args ba) ;;
  kwargs' <- of_result (kwargs ba) ;;
  call_function func args' kwargs'.

Definition inner (callbacks : list callback) (apply_defaults : bool)
           (func : Function) (sig : Signature)
           (args : list value) (kw : Kwargs) : M U value :=
  ba <- of_result (bind sig args kw) ;;
  let ba := if apply_defaults then Inspect.apply_defaults ba else ba in
  ba <- run_callbacks callbacks ba ;;
  invoke func ba.

Definition decorator (callbacks : list callback) (apply_defaults : bool)
           (func : Function) : list value -> Kwargs -> M U value :=
  let sig := signature func in
  inner callbacks apply_defaults func sig.

Definition signature_decorator_factory (callbacks : list callback)
           (apply_defaults : bool)
  : Function -> list value -> Kwargs -> M U value :=
  decorator callbacks apply_defaults.

End Calls.

(* ===================================================================== *)
(** ** [class SignatureDecorator] *)
(* ===================================================================== *)

Module SignatureDecorator.
Section Methods.
Context {U : Type} (prog : Program U).

Definition __init__ (callbacks : list callback) (apply_defaults apply_self : bool)
  : SignatureDecorator :=
  {| _callbacks := callbacks;
     _apply_defaults := apply_defaults;
     _apply_self := apply_self;
     _func := None;
     _signature := None;
     _boundarguments := None;
     _isset := false;
     boundarguments := None |}.

(** The read-only properties. *)
Definition callbacks (self : SignatureDecorator) : list callback := _callbacks self.
Definition apply_defaults (self : SignatureDecorator) : bool := _apply_defaults self.
Definition apply_self (self : SignatureDecorator) : bool := _apply_self self.
Definition func (self : SignatureDecorator) : option Function := _func self.
Definition signature (self : SignatureDecorator) : option Signature := _signature self.

(** Attribute assignments. *)
Definition set_func (f : Function) (self : SignatureDecorator) : SignatureDecorator :=
  {| _callbacks := _callbacks self; _apply_defaults := _apply_defaults self;
     _apply_self := _apply_self self; _func := Some f;
     _signature := _signature self; _boundarguments := _boundarguments self;
     _isset := _isset self; boundarguments := boundarguments self |}.

Definition set_signature (sig : Signature) (self : SignatureDecorator)
  : SignatureDecorator :=
  {| _callbacks := _callbacks self; _apply_defaults := _apply_defaults self;
     _apply_self := _apply_self self; _func := _func self;
     _signature := Some sig; _boundarguments := _boundarguments self;
     _isset := _isset self; boundarguments := boundarguments self |}.

Definition set_boundarguments (ba : BoundArguments) (self : SignatureDecorator)
  : SignatureDecorator :=
  {| _callbacks := _callbacks self; _apply_defaults := _apply_defaults self;
     _apply_self := _apply_self self; _func := _func self;
     _signature := _signature self; _boundarguments := _boundarguments self;
     _isset := _isset self; boundarguments := Some ba |}.

(** The state a decorated function runs in: the instance its closure
    holds, and the user state. *)
Definition St : Type := SignatureDecorator * U.

Definition this : M St SignatureDecorator := fun s => ([], s, Ok (fst s)).

(** The bound arguments of the call are one object, reachable as the local
    [ba] and as [self.boundarguments]: a change to it is a change to
    both. *)
Definition store (ba : BoundArguments) : M St unit :=
  modify (fun s => (set_boundarguments ba (fst s), snd s)).

(** [for callback in self.callbacks: if self.apply_self: callback(self)
    else: callback(ba)] *)
Fixpoint run_callbacks (callbacks : list callback) (ba : BoundArguments)
  : M St BoundArguments :=
  match callbacks with
  | [] => ret ba
  | cb :: callbacks' =>
      self <- this ;;
      arguments' <-
        outside (if apply_self self
                 then call_callback prog cb (ArgSelf self)
                 else call_callback prog cb (ArgBoundArguments ba)) ;;
      let ba := with_arguments ba arguments' in
      store ba ;;
      run_callbacks callbacks' ba
  end.

Definition inner (func : Function) (args : list value) (kw : Kwargs)
  : M St value :=
  self <- this ;;
  match signature self with
  | None => raise (AttributeError "'NoneType' object has no attribute 'bind'")
  | Some sig =>
      ba <- of_result (bind sig args kw) ;;
      store ba ;;
      self <- this ;;
      ba <- (if apply_defaults self
             then let ba := Inspect.apply_defaults ba in store ba ;; ret ba
             else ret ba) ;;
      self <- this ;;
      ba <- run_callbacks (callbacks self) ba ;;
      outside (invoke prog func ba)
  end.

Definition reuse_message : string :=
  "SignatureDecorator can only be initialized for a single function (see SignatureDecorator.factory)".

(** [__call__]: the instance after the call, and the decorated function. *)
Definition __call__ (self : SignatureDecorator) (func : Function)
  : result (SignatureDecorator * (list value -> Kwargs -> M St value)) :=
  if _isset self then Err (AttributeError reuse_message)
  else
    let self := set_func func self in
    let self := set_signature (Inspect.signature func) self in
    Ok (self, inner func).

(** [factory]: the decorator it returns, applied to [func].  The result is
    the fresh instance, as decoration leaves it, and the decorated
    function whose closure holds it. *)
Definition factory (callbacks : list callback) (apply_defaults apply_self : bool)
           (ondecoration : option (SignatureDecorator -> M U unit))
           (func : Function)
  : M U (SignatureDecorator * (list value -> Kwargs -> M St value)) :=
  let inst := __init__ callbacks apply_defaults apply_self in
  match __call__ inst func with
  | inl e => raise e
  | inr (inst, deco) =>
      match ondecoration with
      | Some hook => hook inst ;; ret (inst, deco)
      | None => ret (inst, deco)
      end
  end.

End Methods.
End SignatureDecorator.

(* ===================================================================== *)
(** ** [dynamic_defaults] *)
(* ===================================================================== *)

Section DynamicDefaults.
Context {U : Type} (prog : Program U).

Definition dynamic_defaults (kw : Kwargs) (func : Function)
  : M U (SignatureDecorator
         * (list value -> Kwargs -> M (SignatureDecorator.St (U:=U)) value)) :=
  SignatureDecorator.factory prog [Update kw] false true
                             (Some (ondecoration kw)) func.

End DynamicDefaults.

(* ===================================================================== *)
(** ** [defaultproperty] *)
(* ===================================================================== *)

Module DefaultProperty.
Section Property.
Context {U : Type}.

(** The dictionary of an instance. *)
Abbreviation Object := (gmap string value).

(** What the class of the instance holds under a name, as attribute access
    sees it.  A data descriptor (a [property] is one) is asked before the
    dictionary of the instance, for reading, assigning and deleting; any
    other class attribute is found only when the dictionary has no entry,
    and does not stand in the way of an assignment.  The three functions of
    a descriptor act on the dictionary of the instance. *)
Inductive ClassAttr : Type :=
| DataDescriptor (get : Object -> U -> U * result value)
                 (set : Object -> value -> U -> U * result Object)
                 (del : Object -> U -> U * result Object)
| ClassValue (v : value).

(** An instance: the attributes of its class (looked up along the MRO) and
    its own dictionary. *)
Record Instance : Type := mkInstance {
  type_of : gmap string ClassAttr;
  dict_of : Object;
}.


(** The decorated accessor: its [__name__] and its body, which reads the
    instance and may use the program state. *)
Record Accessor : Type := mkAccessor {
  acc_name : string;
  acc_body : Instance -> U -> U * result value;
}.

Definition no_attribute (attr : string) : exn :=
  AttributeError ("object has no attribute " +:+ quoted attr).

(** [getattr(self, attr)], [setattr(self, attr, v)] and
    [delattr(self, attr)], as [object] implements them: the class first
    for a data descriptor, then the dictionary of the instance, then the
    class again for a plain attribute. *)
Definition getattr (self : Instance) (attr : string) : M U value :=
  match type_of self !! attr with
  | Some (DataDescriptor get _ _) => user (get (dict_of self))
  | found =>
      match dict_of self !! attr with
      | Some v => ret v
      | None =>
          match found with
          | Some (ClassValue v) => ret v
          | _ => raise (no_attribute attr)
          end
      end
  end.



(** [try: m except AttributeError: h] *)
Definition except_AttributeError {A} (m h : M U A) : M U A :=
  fun u =>
    match m u with
    | (tr, u', inl (AttributeError _)) =>
        match h u' with
        | (tr', u'', r) => (tr ++ tr', u'', r)
        end
    | (tr, u', r) => (tr, u', r)
    end.


Section Closures.
Variable func : Accessor.

Definition name : string := acc_name func.
Definition varname : string := "_" +:+ name.



(** [try: return getattr(self,varname)
    except AttributeError: return func(self)] *)
Definition inner (self : Instance) : M U value :=
  except_AttributeError
    (getattr self varname)
    (emit (EvAccessor name) ;; user (acc_body func self)).

End Closures.

End Property.
End DefaultProperty.

(* ===================================================================== *)
(** ** Observations on traces *)
(* ===================================================================== *)

(** Who was called: the callbacks and the target, without the data. *)
Inductive callee : Type :=
| CallbackCall (cb : callback)
| TargetCall (func : Function).

Definition callee_of (ev : event) : option callee :=
  match ev with
  | EvCallback cb _ => Some (CallbackCall cb)
  | EvTarget func _ => Some (TargetCall func)
  | _ => None
  end.

Definition callees (tr : list event) : list callee := omap callee_of tr.

(** The outcomes of the calls made to the provider configured under [k]. *)
Definition provider_outcome (k : string) (ev : event) : option (nat * result value) :=
  match ev with
  | EvProvider k' code r => if decide (k = k') then Some (code, r) else None
  | _ => None
  end.

Definition provider_calls (k : string) (tr : list event) : list (nat * result value) :=
  omap (provider_outcome k) tr.

(** The locals the target body was started with, for each start. *)
Definition target_locals (ev : event) : option Arguments :=
  match ev with
  | EvTarget _ locals => Some locals
  | _ => None
  end.

Definition target_starts (tr : list event) : list Arguments := omap target_locals tr.

(** The instance is bound to [func]: the state [__call__] leaves, which
    calls of the decorated function preserve. *)
Definition bound_to (self : SignatureDecorator) (func : Function) : Prop :=
  _func self = Some func /\ _signature self = Some (signature func).

(** The instance is the one [dynamic_defaults] makes for [func] from the
    configuration [kw]. *)
Definition configured_by (kw : Kwargs) (func : Function)
           (self : SignatureDecorator) : Prop :=
  bound_to self func
  /\ _callbacks self = [Update kw]
  /\ _apply_defaults self = false
  /\ _apply_self self = true.

(** No configured name is the name of a variadic parameter. *)
Definition plain_configuration (kw : Kwargs) (sig : Signature) : Prop :=
  forall k q, k ∈ keys kw -> q ∈ sig -> name q = k -> is_variadic q = false.

(** The argument a callback of the class-based decorator is called with. *)
Definition class_arg (self : SignatureDecorator) (ba : BoundArguments) : CallbackArg :=
  if _apply_self self then ArgSelf self else ArgBoundArguments ba.

(* ===================================================================== *)
(** ** Vocabulary for the binder *)
(* ===================================================================== *)

(** What Python's grammar and [inspect.Signature] guarantee of the
    parameter list of a [def]: the kinds come in order, with at most one
    variable-positional and one variable-keyword parameter; the names are
    distinct; a variadic parameter declares no default. *)
Fixpoint ordered (top : nat) (params : list Param) : bool :=
  match params with
  | [] => true
  | p :: ps =>
      let r := kind_rank (pkind p) in
      (top <=? r) && ordered (if is_variadic p then S r else r) ps
  end.

Definition has_default (p : Param) : bool :=
  match default p with Some _ => true | None => false end.

Definition wf_signature (sig : Signature) : bool :=
  ordered 0 sig
  && bool_decide (NoDup (param_names sig))
  && forallb (fun p => negb (is_variadic p && has_default p)) sig.

(** Is the parameter [n] supplied by the call?  The parameters are walked
    together with the positional arguments, of which [nargs] are left: a
    positional parameter is supplied when an argument is left for it, or,
    unless positional-only, when its name is a keyword of the call; the
    variable-positional one when arguments are left over; a keyword-only one
    when its name is a keyword; the variable-keyword one when some keyword
    names no parameter it could bind. *)
Fixpoint supplied_from (sig : Signature) (R : list Param) (nargs : nat)
         (kw : Kwargs) (n : string) : bool :=
  match R with
  | [] => false
  | p :: ps =>
      if decide (name p = n) then
        match pkind p with
        | POSITIONAL_ONLY => bool_decide (0 < nargs)
        | POSITIONAL_OR_KEYWORD => bool_decide (0 < nargs) || dict_mem n kw
        | VAR_POSITIONAL => bool_decide (0 < nargs)
        | KEYWORD_ONLY => dict_mem n kw
        | VAR_KEYWORD =>
            existsb (fun k => negb (bool_decide (k ∈ keyword_names sig))) (keys kw)
        end
      else supplied_from sig ps (pred nargs) kw n
  end.

Definition supplied (sig : Signature) (args : list value) (kw : Kwargs)
           (n : string) : bool :=
  supplied_from sig sig (length args) kw n.

(** The shape of a bound-argument mapping that converts back to a call.
    Walking the parameters, [gap] tells whether a parameter has been found
    absent (or the keyword part has been reached):
    - an absent parameter is variadic or has a default;
    - a positional-only or variable-positional parameter is present only
      before any gap, and the latter holds a tuple;
    - the variable-keyword parameter, when present, holds a dictionary. *)
Definition is_tuple (v : value) : bool :=
  match v with VTuple _ => true | _ => false end.

Definition is_dict (v : value) : bool :=
  match v with VDict _ => true | _ => false end.

Fixpoint shaped_from (gap : bool) (R : list Param) (A : Arguments) : bool :=
  match R with
  | [] => true
  | p :: ps =>
      match dict_get (name p) A with
      | Some v =>
          match pkind p with
          | POSITIONAL_ONLY => negb gap && shaped_from false ps A
          | POSITIONAL_OR_KEYWORD => shaped_from gap ps A
          | VAR_POSITIONAL => negb gap && is_tuple v && shaped_from true ps A
          | KEYWORD_ONLY => shaped_from true ps A
          | VAR_KEYWORD => is_dict v && shaped_from true ps A
          end
      | None => (is_variadic p || has_default p) && shaped_from true ps A
      end
  end.

(** The keys of a dictionary held by the variable-keyword parameter are
    distinct, and none is the name of a parameter a keyword could bind or
    of an absent positional-only parameter. *)
Definition clean_key (sig : Signature) (A : Arguments) (k : string) : bool :=
  forallb (fun q =>
             negb (bool_decide (name q = k))
             || is_variadic q
             || (bool_decide (pkind q = POSITIONAL_ONLY) && dict_mem (name q) A))
          sig.

Definition extra_ok (sig : Signature) (A : Arguments) : bool :=
  forallb (fun p =>
             match pkind p, dict_get (name p) A with
             | VAR_KEYWORD, Some (VDict d) =>
                 bool_decide (NoDup (keys d)) && forallb (clean_key sig A) (keys d)
             | _, _ => true
             end) sig.

Definition shaped (sig : Signature) (A : Arguments) : bool :=
  shaped_from false sig A && extra_ok sig A.

(** What rebinding the converted arguments produces: the entries of the
    parameters that are present, in the order of the signature, an empty
    tuple or dictionary of a variadic parameter counting as absent. *)
Definition entry (p : Param) (A : Arguments) : option (string * value) :=
  match dict_get (name p) A with
  | None => None
  | Some v =>
      match pkind p, v with
      | VAR_POSITIONAL, VTuple [] => None
      | VAR_KEYWORD, VDict [] => None
      | _, _ => Some (name p, v)
      end
  end.

Definition canon (R : list Param) (A : Arguments) : Arguments :=
  omap (fun p => entry p A) R.

(** The positional arguments [args] yields: the values of the leading
    parameters that are present. *)
Fixpoint arglist (R : list Param) (A : Arguments) : list value :=
  match R with
  | [] => []
  | p :: ps =>
      match pkind p, dict_get (name p) A with
      | (POSITIONAL_ONLY | POSITIONAL_OR_KEYWORD), Some v => v :: arglist ps A
      | VAR_POSITIONAL, Some (VTuple items) => items
      | _, _ => []
      end
  end.

(** The parameters that lead, and those left for the keywords. *)
Fixpoint leading (R : list Param) (A : Arguments) : list Param :=
  match R with
  | [] => []
  | p :: ps =>
      match pkind p, dict_get (name p) A with
      | (POSITIONAL_ONLY | POSITIONAL_OR_KEYWORD), Some _ => p :: leading ps A
      | VAR_POSITIONAL, _ => [p]
      | _, _ => []
      end
  end.

Fixpoint trailing (R : list Param) (A : Arguments) : list Param :=
  match R with
  | [] => []
  | p :: ps =>
      match pkind p, dict_get (name p) A with
      | (POSITIONAL_ONLY | POSITIONAL_OR_KEYWORD), Some _ => trailing ps A
      | VAR_POSITIONAL, _ => ps
      | _, _ => p :: ps
      end
  end.

(** The keyword arguments [kwargs] yields from the trailing parameters. *)
Fixpoint kwlist (R : list Param) (A : Arguments) : Kwargs :=
  match R with
  | [] => []
  | p :: ps =>
      match dict_get (name p) A with
      | None => kwlist ps A
      | Some v =>
          match pkind p with
          | VAR_KEYWORD =>
              match v with
              | VDict d => d ++ kwlist ps A
              | _ => kwlist ps A
              end
          | _ => (name p, v) :: kwlist ps A
          end
      end
  end.

(** The keyword arguments that match none of the names. *)
Definition unmatched (names : list string) (K : list (string * value))
  : list (string * value) :=
  filter (fun kv => kv.1 ∉ names) K.

(** No parameter of [R] is bound in [acc] yet. *)
Definition fresh_for (R : list Param) (acc : Arguments) : Prop :=
  forall n, n ∈ param_names R -> n ∉ keys acc.

(** The value a parameter ends up with once defaults are applied. *)
Definition effective (p : Param) (A : Arguments) : option value :=
  match dict_get (name p) A with
  | Some v => Some v
  | None =>
      match default p with
      | Some d => Some d
      | None =>
          match pkind p with
          | VAR_POSITIONAL => Some (VTuple [])
          | VAR_KEYWORD => Some (VDict [])
          | _ => None
          end
      end
  end.

(* ===================================================================== *)
(** ** Further observations *)
(* ===================================================================== *)

(** The providers called, in the order of the calls, each with the name it
    is configured under. *)
Definition provider_event (ev : event) : option (string * nat) :=
  match ev with
  | EvProvider k code _ => Some (k, code)
  | _ => None
  end.

Definition provider_events (tr : list event) : list (string * nat) :=
  omap provider_event tr.

(** The providers a call is due to run: the callables configured under the
    names absent from the bound arguments, in configuration order. *)
Definition due_provider (a : Arguments) (item : string * value)
  : option (string * nat) :=
  match item with
  | (k, VFunc code) => if dict_mem k a then None else Some (k, code)
  | _ => None
  end.

Definition due (kw : Kwargs) (a : Arguments) : list (string * nat) :=
  omap (due_provider a) kw.

(** What [__init__] and [__call__] set of an instance: everything but the
    bound arguments of the last call. *)
Definition settings (self : SignatureDecorator)
  : list callback * bool * bool * option Function * option Signature
    * option BoundArguments * bool :=
  (_callbacks self, _apply_defaults self, _apply_self self, _func self,
   _signature self, _boundarguments self, _isset self).

(* ===================================================================== *)
(** ** A small program to run the definitions on *)
(* ===================================================================== *)

Module Demo.

(** The arguments a callback sees. *)
Definition seen (arg : CallbackArg) : Arguments :=
  match reachable_ba arg with
  | Some ba => arguments ba
  | None => []
  end.

(** The user state counts the calls made to the counting provider.
    - every body returns its locals as a dictionary;
    - callback 0 sets [b] to 99 when it is absent, callback 1 changes
      nothing, any other callback raises;
    - provider 0 returns the counter and increments it, any other provider
      raises;
    - the text of a refused call only names the function. *)
Definition prog : Program nat :=
  {| run_function := fun _ locals u => (u, Ok (VDict locals));
     run_callback := fun code arg u =>
       match code with
       | 0 => (u, Ok (if dict_mem "b" (seen arg) then seen arg
                      else dict_set "b" (VInt 99) (seen arg)))
       | 1 => (u, Ok (seen arg))
       | _ => (u, Err (UserError 7))
       end;
     run_provider := fun code u =>
       match code with
       | 0 => (S u, Ok (VInt (Z.of_nat u)))
       | _ => (u, Err (UserError 1))
       end;
     call_error := fun func _ _ => __name__ func +:+ "() cannot take these arguments" |}.

(** [def f(a, b=2)] *)
Definition f : Function :=
  mkFunction "f"
    [mkParam "a" POSITIONAL_OR_KEYWORD None;
     mkParam "b" POSITIONAL_OR_KEYWORD (Some (VInt 2))] 0.

(** [def g(x)] *)
Definition g : Function :=
  mkFunction "g" [mkParam "x" POSITIONAL_OR_KEYWORD None] 0.

(** [def h(p, /, a=1, *rest, k=None, **kw)] *)
Definition h : Function :=
  mkFunction "h"
    [mkParam "p" POSITIONAL_ONLY None;
     mkParam "a" POSITIONAL_OR_KEYWORD (Some (VInt 1));
     mkParam "rest" VAR_POSITIONAL None;
     mkParam "k" KEYWORD_ONLY (Some VNone);
     mkParam "kw" VAR_KEYWORD None] 0.

(** [def h2(p=1, /, **kw)] *)
Definition h2 : Function :=
  mkFunction "h2"
    [mkParam "p" POSITIONAL_ONLY (Some (VInt 1));
     mkParam "kw" VAR_KEYWORD None] 0.

(** The instance [dynamic_defaults] leaves after decorating [func] with the
    configuration [kw]. *)
Definition decorated (kw : Kwargs) (func : Function) : SignatureDecorator :=
  SignatureDecorator.set_signature (signature func)
    (SignatureDecorator.set_func func
       (SignatureDecorator.__init__ [Update kw] false true)).

(** [b] from the counting provider; [b] from the failing provider; [x] from
    the counting provider. *)
Definition counting_b : Kwargs := [("b", VFunc 0)].
Definition failing_b : Kwargs := [("b", VFunc 1)].
Definition counting_x : Kwargs := [("x", VFunc 0)].

(** A property [x] whose fallback reads the program state. *)
Definition x : DefaultProperty.Accessor (U:=nat) :=
  DefaultProperty.mkAccessor "x" (fun _ u => (u, Ok (VInt (Z.of_nat u)))).

End Demo.

(* ===================================================================== *)
(** ** Properties *)
(* ===================================================================== *)

(** *** The monad *)

Section MonadFacts.
Context {S : Type}.

Lemma mbind_inv {A B} (m : M S A) (k : A -> M S B) s tr s' r :
  mbind' m k s = (tr, s', r) ->
  (exists e, m s = (tr, s', Err e) /\ r = Err e)
  \/ (exists tr1 s1 a tr2,
        m s = (tr1, s1, Ok a) /\ k a s1 = (tr2, s', r) /\ tr = tr1 ++ tr2).
Proof.
  unfold mbind'. destruct (m s) as [[tr1 s1] [e|a]] eqn:Hm.
  - intros [= <- <- <-]. left. eauto.
  - destruct (k a s1) as [[tr2 s2] r2] eqn:Hk.
    intros [= <- <- <-]. right. exists tr1, s1, a, tr2. auto.
Qed.

Lemma mbind_ok {A B} (m : M S A) (k : A -> M S B) s tr1 s1 a :
  m s = (tr1, s1, Ok a) ->
  mbind' m k s =
    (tr1 ++ trace_of (k a s1), state_of (k a s1), outcome_of (k a s1)).
Proof.
  intros Hm. unfold mbind'. rewrite Hm. cbn.
  destruct (k a s1) as [[tr2 s2] r2]. reflexivity.
Qed.

Lemma mbind_err {A B} (m : M S A) (k : A -> M S B) s tr1 s1 e :
  m s = (tr1, s1, Err e) -> mbind' m k s = (tr1, s1, Err e).
Proof. intros Hm. unfold mbind'. rewrite Hm. reflexivity. Qed.

Lemma triple_eta {A} (x : list event * S * result A) :
  x = (trace_of x, state_of x, outcome_of x).
Proof. destruct x as [[? ?] ?]. reflexivity. Qed.

Lemma mbind_ret {A B} (a : A) (k : A -> M S B) s : mbind' (ret a) k s = k a s.
Proof. unfold mbind', ret. destruct (k a s) as [[? ?] ?]. reflexivity. Qed.

Lemma mbind_raise {A B} e (k : A -> M S B) s :
  mbind' (raise e) k s = ([], s, Err e).
Proof. reflexivity. Qed.

Lemma mbind_of_result {A B} (r : result A) (k : A -> M S B) s :
  mbind' (of_result r) k s =
    match r with inl e => ([], s, Err e) | inr a => k a s end.
Proof.
  unfold mbind', of_result. destruct r as [e|a]; [reflexivity|].
  destruct (k a s) as [[? ?] ?]. reflexivity.
Qed.

Lemma mbind_assoc {A B C} (m : M S A) (f : A -> M S B) (g : B -> M S C) s :
  mbind' (mbind' m f) g s = mbind' m (fun a => mbind' (f a) g) s.
Proof.
  unfold mbind'. destruct (m s) as [[tr1 s1] [e|a]]; [reflexivity|].
  destruct (f a s1) as [[tr2 s2] [e|b]]; [reflexivity|].
  destruct (g b s2) as [[tr3 s3] r]. rewrite app_assoc. reflexivity.
Qed.

Lemma mbind_modify {B} (f : S -> S) (k : unit -> M S B) s :
  mbind' (modify f) k s = k tt (f s).
Proof. unfold mbind', modify. destruct (k tt (f s)) as [[? ?] ?]. reflexivity. Qed.

Lemma mbind_emit {B} ev (k : unit -> M S B) s :
  mbind' (emit ev) k s =
    (ev :: trace_of (k tt s), state_of (k tt s), outcome_of (k tt s)).
Proof. unfold mbind', emit. destruct (k tt s) as [[? ?] ?]. reflexivity. Qed.

End MonadFacts.

(** *** C1: reuse of a [SignatureDecorator] instance *)

Section Reuse.
Context {U : Type} (prog : Program U).

(** [__call__] never sets the flag it tests. *)
Lemma call_leaves_isset self func self' deco :
  SignatureDecorator.__call__ prog self func = Ok (self', deco) ->
  _isset self' = _isset self.
Proof.
  unfold SignatureDecorator.__call__.
  destruct (_isset self) eqn:E; [discriminate|].
  intros [= <- _]. exact E.
Qed.

Lemma call_unset self func :
  _isset self = false ->
  SignatureDecorator.__call__ prog self func =
    Ok (SignatureDecorator.set_signature (signature func)
          (SignatureDecorator.set_func func self),
        SignatureDecorator.inner prog func).
Proof. intros H. unfold SignatureDecorator.__call__. rewrite H. reflexivity. Qed.

(** C1.  The class documents that an instance already applied to one
    function raises [AttributeError] when applied to a second one, and that
    a decorator made by [SignatureDecorator.factory] never does.  On the
    code the first half fails: [__call__] tests [_isset] but nothing ever sets it, so for every
    configuration and every two functions the second application returns a
    decorated function, and silently rebinds [_func] and [_signature] to
    the second function.  The factory half holds: each decoration runs
    [__call__] on a fresh instance and, without a hook, returns. *)
Theorem reuse_is_not_rejected
    (callbacks : list callback) (apply_defaults apply_self : bool)
    (first second : Function) :
  let d0 := SignatureDecorator.__init__ callbacks apply_defaults apply_self in
  (exists d1 d2,
      SignatureDecorator.__call__ prog d0 first
        = Ok (d1, SignatureDecorator.inner prog first)
      /\ SignatureDecorator.__call__ prog d1 second
        = Ok (d2, SignatureDecorator.inner prog second)
      /\ _isset d1 = false
      /\ _func d2 = Some second
      /\ _signature d2 = Some (signature second))
  /\ (forall (func : Function) (u : U),
        exists inst,
          SignatureDecorator.factory prog callbacks apply_defaults apply_self
                                     None func u
          = ([], u, Ok (inst, SignatureDecorator.inner prog func))).
Proof.
  intros d0. split.
  - eexists _, _. split; [|split].
    + apply call_unset. reflexivity.
    + apply call_unset. reflexivity.
    + repeat split.
  - intros func u. eexists.
    unfold SignatureDecorator.factory.
    rewrite call_unset by reflexivity. reflexivity.
Qed.

End Reuse.

(** *** Binding failures *)

Lemma bind_positional_error args : forall parameters kw acc e,
  bind_positional args parameters kw acc = Err e -> is_TypeError e = true.
Proof.
  induction args as [|arg_val arg_vals IH]; intros parameters kw acc e;
    destruct parameters as [|param parameters']; cbn; try discriminate.
  - repeat case_match; try discriminate; intros [= <-]; reflexivity.
  - intros [= <-]; reflexivity.
  - destruct (pkind param); try (intros [= <-]; reflexivity); try discriminate.
    all: case_match; [intros [= <-]; reflexivity | apply IH].
Qed.

Lemma bind_keywords_error parameters : forall kw acc kwp e,
  bind_keywords parameters kw acc kwp = Err e -> is_TypeError e = true.
Proof.
  induction parameters as [|param parameters' IH]; intros kw acc kwp e; cbn;
    [discriminate|].
  repeat case_match; try (intros [= <-]; reflexivity); apply IH.
Qed.

Lemma bind_from_error args params kw acc e :
  bind_from args params kw acc = Err e -> is_TypeError e = true.
Proof.
  unfold bind_from, bind_keywords_rest.
  destruct (bind_positional args params kw acc) as [e1|[acc1 ps]] eqn:Hp.
  - intros [= <-]. eapply bind_positional_error, Hp.
  - destruct (bind_keywords ps kw acc1 None) as [e2|[[acc' kw'] kwp]] eqn:Hk.
    + intros [= <-]. eapply bind_keywords_error, Hk.
    + unfold bind_rest. destruct kw' as [|[k v] kw']; [discriminate|].
      destruct kwp; [discriminate|]. intros [= <-]. reflexivity.
Qed.

Lemma bind_error sig args kw e :
  bind sig args kw = Err e -> is_TypeError e = true.
Proof.
  unfold bind. destruct (bind_from args sig kw []) as [e1|acc] eqn:H;
    [|discriminate].
  intros [= <-]. eapply bind_from_error, H.
Qed.

(** *** Unfolding the decorated functions *)

Section Wrappers.
Context {U : Type} (prog : Program U).

Lemma factory_inner_unfold callbacks apply_defaults func args kw ba (u : U) :
  bind (signature func) args kw = Ok ba ->
  signature_decorator_factory prog callbacks apply_defaults func args kw u =
    mbind' (run_callbacks prog callbacks
              (if apply_defaults then Inspect.apply_defaults ba else ba))
           (invoke prog func) u.
Proof.
  intros Hb.
  unfold signature_decorator_factory, decorator, inner.
  rewrite mbind_of_result, Hb. reflexivity.
Qed.


Lemma mbind_this {B} (k : SignatureDecorator -> M (SignatureDecorator.St (U:=U)) B) s :
  mbind' SignatureDecorator.this k s = k (fst s) s.
Proof.
  unfold mbind', SignatureDecorator.this.
  destruct (k (fst s) s) as [[? ?] ?]. reflexivity.
Qed.

Lemma mbind_store {B} ba (k : unit -> M (SignatureDecorator.St (U:=U)) B) s :
  mbind' (SignatureDecorator.store ba) k s =
    k tt (SignatureDecorator.set_boundarguments ba (fst s), snd s).
Proof. unfold SignatureDecorator.store. rewrite mbind_modify. reflexivity. Qed.

Lemma class_inner_unfold self func sig args kw ba (u : U) :
  _signature self = Some sig ->
  bind sig args kw = Ok ba ->
  let ba1 := if _apply_defaults self then Inspect.apply_defaults ba else ba in
  SignatureDecorator.inner prog func args kw (self, u) =
    mbind' (SignatureDecorator.run_callbacks prog (_callbacks self) ba1)
           (fun ba' => outside (invoke prog func ba'))
           (SignatureDecorator.set_boundarguments ba1 self, u).
Proof.
  intros Hs Hb ba1. subst ba1.
  unfold SignatureDecorator.inner.
  rewrite mbind_this. cbn [fst].
  unfold SignatureDecorator.signature. rewrite Hs.
  rewrite mbind_of_result, Hb, mbind_store, mbind_this. cbn [fst snd].
  unfold SignatureDecorator.apply_defaults, SignatureDecorator.callbacks.
  cbn [_apply_defaults SignatureDecorator.set_boundarguments].
  destruct (_apply_defaults self).
  - rewrite mbind_assoc, mbind_store, mbind_ret, mbind_this. reflexivity.
  - rewrite mbind_ret, mbind_this.
    cbn [fst _callbacks SignatureDecorator.set_boundarguments]. reflexivity.
Qed.

End Wrappers.

(** *** What the trace of a call looks like *)

Lemma callees_app tr1 tr2 : callees (tr1 ++ tr2) = callees tr1 ++ callees tr2.
Proof. unfold callees. apply omap_app. Qed.

Section Traces.
Context {U : Type} (prog : Program U).

(** One step of [update], case by case.  It never raises. *)
Lemma update_item_present k v a (u : U) :
  dict_mem k a = true -> update_item prog k v a u = ([], u, Ok a).
Proof. intros H. unfold update_item. rewrite H. reflexivity. Qed.

Lemma update_item_provider k code a (u : U) :
  dict_mem k a = false ->
  update_item prog k (VFunc code) a u =
    ([EvProvider k code (run_provider prog code u).2],
     (run_provider prog code u).1,
     Ok (dict_set k (match (run_provider prog code u).2 with
                     | inr r => r
                     | inl _ => VFunc code
                     end) a)).
Proof.
  intros H. unfold update_item. rewrite H. cbn.
  unfold try_except, mbind', call_provider, ret.
  destruct (run_provider prog code u) as [u' [e|r]]; reflexivity.
Qed.

Lemma update_item_literal k v a (u : U) :
  dict_mem k a = false -> callable v = false ->
  update_item prog k v a u = ([], u, Ok (dict_set k v a)).
Proof.
  intros H Hv. unfold update_item. rewrite H.
  destruct v; try discriminate; reflexivity.
Qed.

Lemma update_item_ok k v a (u : U) :
  exists a', outcome_of (update_item prog k v a u) = Ok a'.
Proof.
  destruct (dict_mem k a) eqn:H.
  - rewrite update_item_present by done. eauto.
  - destruct (callable v) eqn:Hv.
    + destruct v; try discriminate. rewrite update_item_provider by done. eauto.
    + rewrite update_item_literal by done. eauto.
Qed.

Lemma update_item_callees k v a (u : U) :
  callees (trace_of (update_item prog k v a u)) = [].
Proof.
  destruct (dict_mem k a) eqn:H.
  - rewrite update_item_present by done. reflexivity.
  - destruct (callable v) eqn:Hv.
    + destruct v; try discriminate. rewrite update_item_provider by done.
      reflexivity.
    + rewrite update_item_literal by done. reflexivity.
Qed.

Lemma update_loop_step k v kw a (u : U) :
  update_loop prog ((k, v) :: kw) a u =
    let x := update_item prog k v a u in
    match outcome_of x with
    | inr a' =>
        let y := update_loop prog kw a' (state_of x) in
        (trace_of x ++ trace_of y, state_of y, outcome_of y)
    | inl e => (trace_of x, state_of x, Err e)
    end.
Proof.
  cbn [update_loop]. unfold mbind'.
  destruct (update_item prog k v a u) as [[tr s] [e|a']]; cbn; [reflexivity|].
  destruct (update_loop prog kw a' s) as [[tr' s'] r]. reflexivity.
Qed.

Lemma update_loop_ok kw : forall a (u : U),
  exists a', outcome_of (update_loop prog kw a u) = Ok a'.
Proof.
  induction kw as [|[k v] kw IH]; intros a u.
  - eexists. reflexivity.
  - rewrite update_loop_step. cbn zeta.
    destruct (update_item_ok k v a u) as [a' Ha]. rewrite Ha. cbn.
    apply IH.
Qed.

Lemma update_loop_callees kw : forall a (u : U),
  callees (trace_of (update_loop prog kw a u)) = [].
Proof.
  induction kw as [|[k v] kw IH]; intros a u.
  - reflexivity.
  - rewrite update_loop_step. cbn zeta.
    destruct (update_item_ok k v a u) as [a' Ha]. rewrite Ha. cbn.
    rewrite callees_app, update_item_callees, IH. reflexivity.
Qed.

Lemma update_callees kw arg (u : U) :
  callees (trace_of (update prog kw arg u)) = [].
Proof.
  unfold update. destruct arg as [self|ba]; [|reflexivity].
  destruct (boundarguments self) as [ba|]; [|reflexivity].
  pose proof (update_loop_callees kw (arguments ba) u) as Hc.
  destruct (update_loop_ok kw (arguments ba) u) as [a' Ha].
  unfold mbind'.
  destruct (update_loop prog kw (arguments ba) u) as [[tr s] r].
  cbn in Ha, Hc. subst r. cbn. rewrite app_nil_r. exact Hc.
Qed.

(** A callback call shows in the trace as its own event, followed by
    provider events only. *)
Lemma call_callback_trace cb arg (u : U) :
  exists tr, trace_of (call_callback prog cb arg u) = EvCallback cb arg :: tr
             /\ callees tr = [].
Proof.
  unfold call_callback. rewrite mbind_emit. cbn [trace_of fst].
  eexists. split; [reflexivity|].
  destruct cb as [code|kw].
  - unfold user. destruct (run_callback prog code arg u). reflexivity.
  - apply update_callees.
Qed.

Lemma call_callback_callees cb arg (u : U) :
  callees (trace_of (call_callback prog cb arg u)) = [CallbackCall cb].
Proof.
  destruct (call_callback_trace cb arg u) as (tr & -> & Htr).
  cbn. unfold callees in Htr. rewrite Htr. reflexivity.
Qed.

(** The final call: nothing in the trace if the conversion or the match
    against the [def] fails, the start of the body otherwise. *)
Lemma call_function_trace func args kw (u : U) :
  match match_call (signature func) args kw with
  | None =>
      call_function prog func args kw u
      = ([], u, Err (TypeError (call_error prog func args kw)))
  | Some locals =>
      call_function prog func args kw u =
        ([EvTarget func locals],
         (run_function prog (__code__ func) locals u).1,
         (run_function prog (__code__ func) locals u).2)
  end.
Proof.
  unfold call_function.
  destruct (match_call (signature func) args kw) as [locals|]; [|reflexivity].
  rewrite mbind_emit. unfold user.
  destruct (run_function _ _ _ u). reflexivity.
Qed.

Lemma call_function_returns func args kw (u : U) tr u' v :
  call_function prog func args kw u = (tr, u', Ok v) ->
  exists locals, tr = [EvTarget func locals].
Proof.
  pose proof (call_function_trace func args kw u) as H.
  destruct (match_call (signature func) args kw) as [locals|].
  - rewrite H. intros [= <- _ _]. eauto.
  - rewrite H. discriminate.
Qed.

Lemma invoke_returns func ba (u : U) tr u' v :
  invoke prog func ba u = (tr, u', Ok v) ->
  exists locals, tr = [EvTarget func locals].
Proof.
  unfold invoke. rewrite mbind_of_result.
  destruct (args ba) as [e|args']; [discriminate|].
  rewrite mbind_of_result.
  destruct (kwargs ba) as [e|kwargs']; [discriminate|].
  apply call_function_returns.
Qed.

End Traces.

(** *** The callback loops *)

Section Loops.
Context {U : Type} (prog : Program U).

Lemma run_callbacks_step cb rest ba (u : U) :
  run_callbacks prog (cb :: rest) ba u =
    let x := call_callback prog cb (ArgBoundArguments ba) u in
    match outcome_of x with
    | inr a' =>
        let y := run_callbacks prog rest (with_arguments ba a') (state_of x) in
        (trace_of x ++ trace_of y, state_of y, outcome_of y)
    | inl e => (trace_of x, state_of x, Err e)
    end.
Proof.
  cbn [run_callbacks]. unfold mbind' at 1.
  destruct (call_callback prog cb (ArgBoundArguments ba) u) as [[tr s] [e|a']];
    cbn; [reflexivity|].
  destruct (run_callbacks prog rest _ s) as [[tr' s'] r]. reflexivity.
Qed.

Lemma class_run_callbacks_step cb rest ba self (u : U) :
  SignatureDecorator.run_callbacks prog (cb :: rest) ba (self, u) =
    let x := call_callback prog cb (class_arg self ba) u in
    match outcome_of x with
    | inr a' =>
        let ba' := with_arguments ba a' in
        let y := SignatureDecorator.run_callbacks prog rest ba'
                   (SignatureDecorator.set_boundarguments ba' self, state_of x) in
        (trace_of x ++ trace_of y, state_of y, outcome_of y)
    | inl e => (trace_of x, (self, state_of x), Err e)
    end.
Proof.
  cbn [SignatureDecorator.run_callbacks]. rewrite mbind_this. cbn [fst].
  unfold class_arg, SignatureDecorator.apply_self.
  destruct (_apply_self self);
    unfold mbind' at 1, outside at 1; cbn [fst snd];
    (destruct (call_callback prog cb _ u) as [[tr s] [e|a']];
      cbn [trace_of state_of outcome_of fst snd]; [reflexivity|]);
    unfold SignatureDecorator.store; rewrite mbind_modify; cbn [fst snd];
    destruct (SignatureDecorator.run_callbacks prog rest _ _) as [[tr' s'] r];
    reflexivity.
Qed.

Lemma run_callbacks_callees callbacks : forall ba (u : U) tr u' ba',
  run_callbacks prog callbacks ba u = (tr, u', Ok ba') ->
  callees tr = map CallbackCall callbacks.
Proof.
  induction callbacks as [|cb rest IH]; intros ba u tr u' ba'.
  - intros [= <- _ _]. reflexivity.
  - rewrite run_callbacks_step. cbn zeta.
    pose proof (call_callback_callees prog cb (ArgBoundArguments ba) u) as Hc.
    destruct (call_callback prog cb (ArgBoundArguments ba) u) as [[tr1 s1] [e|a']];
      cbn [trace_of state_of outcome_of fst snd] in *; [discriminate|].
    intros [= <- Hs Ho].
    rewrite callees_app, Hc. cbn. f_equal.
    eapply IH. rewrite (triple_eta (run_callbacks _ _ _ _)), Hs, Ho. reflexivity.
Qed.

Lemma class_run_callbacks_callees callbacks : forall ba self (u : U) tr s' ba',
  SignatureDecorator.run_callbacks prog callbacks ba (self, u) = (tr, s', Ok ba') ->
  callees tr = map CallbackCall callbacks.
Proof.
  induction callbacks as [|cb rest IH]; intros ba self u tr s' ba'.
  - intros [= <- _ _]. reflexivity.
  - rewrite class_run_callbacks_step. cbn zeta.
    pose proof (call_callback_callees prog cb (class_arg self ba) u) as Hc.
    destruct (call_callback prog cb (class_arg self ba) u) as [[tr1 s1] [e|a']];
      cbn [trace_of state_of outcome_of fst snd] in *; [discriminate|].
    intros [= <- Hs Ho].
    rewrite callees_app, Hc. cbn. f_equal.
    eapply IH.
    rewrite (triple_eta (SignatureDecorator.run_callbacks _ _ _ _)), Hs, Ho.
    reflexivity.
Qed.

(** The instance keeps its configuration and its binding through the loop
    and the call. *)
Lemma class_run_callbacks_state callbacks : forall ba self (u : U),
  exists ba', (state_of (SignatureDecorator.run_callbacks prog callbacks ba (self, u))).1
              = self
           \/ (state_of (SignatureDecorator.run_callbacks prog callbacks ba (self, u))).1
              = SignatureDecorator.set_boundarguments ba' self.
Proof.
  induction callbacks as [|cb rest IH]; intros ba self u.
  - exists ba. left. reflexivity.
  - rewrite class_run_callbacks_step. cbn zeta.
    destruct (call_callback prog cb (class_arg self ba) u) as [[tr1 s1] [e|a']];
      cbn.
    + exists ba. left. reflexivity.
    + destruct (IH (with_arguments ba a')
                  (SignatureDecorator.set_boundarguments (with_arguments ba a') self)
                  s1) as [ba' [H|H]].
      * exists (with_arguments ba a'). right. exact H.
      * exists ba'. right. rewrite H. reflexivity.
Qed.

End Loops.

(** *** C2, C8: what a call of a decorated function does *)

Section DecoratedCalls.
Context {U : Type} (prog : Program U).

Lemma run_callbacks_progress callbacks : forall ba (u : U),
  (forall cb ba' u', cb ∈ callbacks ->
     exists a, outcome_of (call_callback prog cb (ArgBoundArguments ba') u') = Ok a) ->
  exists tr u1 ba1, run_callbacks prog callbacks ba u = (tr, u1, Ok ba1).
Proof.
  induction callbacks as [|cb rest IH]; intros ba u Hret.
  - eexists _, _, _. reflexivity.
  - rewrite run_callbacks_step. cbn zeta.
    destruct (Hret cb ba u (list_elem_of_here _ _)) as [a Ha]. rewrite Ha.
    destruct (IH (with_arguments ba a)
                 (state_of (call_callback prog cb (ArgBoundArguments ba) u)))
      as (tr & u1 & ba1 & Hrest).
    { intros c ba' u' Hc. apply Hret. right. exact Hc. }
    rewrite Hrest. eexists _, _, _. reflexivity.
Qed.

Lemma class_run_callbacks_progress flag callbacks : forall ba s (u : U),
  _apply_self s = flag ->
  boundarguments s = Some ba ->
  (forall cb s' ba' u', cb ∈ callbacks ->
     _apply_self s' = flag -> boundarguments s' = Some ba' ->
     exists a, outcome_of (call_callback prog cb (class_arg s' ba') u') = Ok a) ->
  exists tr s1 u1 ba1,
    SignatureDecorator.run_callbacks prog callbacks ba (s, u)
    = (tr, (s1, u1), Ok ba1).
Proof.
  induction callbacks as [|cb rest IH]; intros ba s u Hflag Hba Hret.
  - eexists _, _, _, _. reflexivity.
  - rewrite class_run_callbacks_step. cbn zeta.
    destruct (Hret cb s ba u (list_elem_of_here _ _) Hflag Hba) as [a Ha].
    rewrite Ha.
    destruct (IH (with_arguments ba a)
                 (SignatureDecorator.set_boundarguments (with_arguments ba a) s)
                 (state_of (call_callback prog cb (class_arg s ba) u)))
      as (tr & s1 & u1 & ba1 & Hrest).
    { exact Hflag. }
    { reflexivity. }
    { intros c s' ba' u' Hc. apply Hret. right. exact Hc. }
    rewrite Hrest. eexists _, _, _, _. reflexivity.
Qed.

(** C2.  Every call of a decorated function that returns has called each
    registered callback exactly once, in registration order, and then the
    target: the callbacks and the target met in the trace are the registered
    list followed by the target.  First the function-based factory, then
    the class (its callbacks are those of the instance the call starts
    from).  And the calls are made: on a call that matches the signature,
    with callbacks that return when called, the loop goes through the whole
    list, each callback once and in order, and the decorated call then ends
    as the call of the target on the bound arguments they leave ends; third
    for the function-based factory, fourth for an instance of the class
    bound to the function. *)
Theorem callbacks_once_in_order :
  (forall callbacks apply_defaults func args kw (u : U) tr u' v,
      signature_decorator_factory prog callbacks apply_defaults func args kw u
        = (tr, u', Ok v) ->
      callees tr = map CallbackCall callbacks ++ [TargetCall func])
  /\ (forall self func args kw (u : U) tr s' v,
      SignatureDecorator.inner prog func args kw (self, u) = (tr, s', Ok v) ->
      callees tr = map CallbackCall (SignatureDecorator.callbacks self)
                   ++ [TargetCall func])
  /\ (forall callbacks (apply_defaults : bool) func args kw (u : U) ba,
      bind (signature func) args kw = Ok ba ->
      (forall cb ba' u', cb ∈ callbacks ->
         exists a,
           outcome_of (call_callback prog cb (ArgBoundArguments ba') u') = Ok a) ->
      exists tr1 u1 ba1,
        run_callbacks prog callbacks
          (if apply_defaults then Inspect.apply_defaults ba else ba) u
        = (tr1, u1, Ok ba1)
        /\ callees tr1 = map CallbackCall callbacks
        /\ let final := invoke prog func ba1 u1 in
           signature_decorator_factory prog callbacks apply_defaults func args kw u
           = (tr1 ++ trace_of final, state_of final, outcome_of final))
  /\ (forall self func args kw (u : U) ba,
      bound_to self func ->
      bind (signature func) args kw = Ok ba ->
      (forall cb s' ba' u', cb ∈ _callbacks self ->
         _apply_self s' = _apply_self self -> boundarguments s' = Some ba' ->
         exists a,
           outcome_of (call_callback prog cb (class_arg s' ba') u') = Ok a) ->
      let ba0 := if _apply_defaults self then Inspect.apply_defaults ba else ba in
      exists tr1 self1 u1 ba1,
        SignatureDecorator.run_callbacks prog (_callbacks self) ba0
          (SignatureDecorator.set_boundarguments ba0 self, u)
        = (tr1, (self1, u1), Ok ba1)
        /\ callees tr1 = map CallbackCall (_callbacks self)
        /\ let final := invoke prog func ba1 u1 in
           SignatureDecorator.inner prog func args kw (self, u)
           = (tr1 ++ trace_of final, (self1, state_of final), outcome_of final)).
Proof.
  split; [|split; [|split]].
  - intros callbacks apply_defaults func args kw u tr u' v.
    destruct (bind (signature func) args kw) as [e|ba] eqn:Hb.
    + unfold signature_decorator_factory, decorator, inner.
      rewrite mbind_of_result, Hb. discriminate.
    + rewrite (factory_inner_unfold prog _ _ _ _ _ ba) by exact Hb.
      intros H. apply mbind_inv in H as [(e & _ & He)|H]; [discriminate He|].
      destruct H as (tr1 & u1 & ba' & tr2 & Hcb & Hinv & ->).
      apply run_callbacks_callees in Hcb.
      apply invoke_returns in Hinv as [locals ->].
      rewrite callees_app, Hcb. reflexivity.
  - intros self func args kw u tr s' v.
    unfold SignatureDecorator.callbacks.
    destruct (_signature self) as [sig|] eqn:Hs.
    + destruct (bind sig args kw) as [e|ba] eqn:Hb.
      * unfold SignatureDecorator.inner. rewrite mbind_this. cbn [fst].
        unfold SignatureDecorator.signature. rewrite Hs.
        rewrite mbind_of_result, Hb. discriminate.
      * rewrite (class_inner_unfold prog self func sig args kw ba u Hs Hb).
        intros H. apply mbind_inv in H as [(e & _ & He)|H]; [discriminate He|].
        destruct H as (tr1 & [self1 u1] & ba' & tr2 & Hcb & Hinv & ->).
        apply class_run_callbacks_callees in Hcb.
        unfold outside in Hinv. cbn [fst snd] in Hinv.
        destruct (invoke prog func ba' u1) as [[tr3 u3] r3] eqn:Hi.
        injection Hinv as <- _ ->.
        apply invoke_returns in Hi as [locals ->].
        rewrite callees_app, Hcb. reflexivity.
    + unfold SignatureDecorator.inner. rewrite mbind_this. cbn [fst].
      unfold SignatureDecorator.signature. rewrite Hs. discriminate.
  - intros callbacks apply_defaults func args kw u ba Hb Hret.
    destruct (run_callbacks_progress callbacks
                (if apply_defaults then Inspect.apply_defaults ba else ba) u Hret)
      as (tr1 & u1 & ba1 & Hrun).
    exists tr1, u1, ba1. split; [exact Hrun|].
    split; [eapply run_callbacks_callees, Hrun|]. cbn zeta.
    rewrite (factory_inner_unfold prog _ _ _ _ _ ba u Hb).
    apply mbind_ok, Hrun.
  - intros self func args kw u ba [_ Hs] Hb Hret ba0.
    destruct (class_run_callbacks_progress (_apply_self self) (_callbacks self) ba0
                (SignatureDecorator.set_boundarguments ba0 self) u
                eq_refl eq_refl Hret)
      as (tr1 & self1 & u1 & ba1 & Hrun).
    exists tr1, self1, u1, ba1. split; [exact Hrun|].
    split; [eapply class_run_callbacks_callees, Hrun|]. cbn zeta.
    rewrite (class_inner_unfold prog self func _ args kw ba u Hs Hb).
    fold ba0. rewrite (mbind_ok _ _ _ _ _ _ Hrun).
    unfold outside. cbn [fst snd].
    destruct (invoke prog func ba1 u1) as [[tr3 u3] r3]. reflexivity.
Qed.


End DecoratedCalls.

(** *** C5: a configured name the target does not have *)

Section Configuration.
Context {U : Type} (prog : Program U).

Lemma ondecoration_loop_ok ks params sigdecor :
  Forall (fun k => k ∈ param_names params) ks ->
  ondecoration_loop ks params sigdecor = Ok tt.
Proof.
  induction 1 as [|k ks Hk _ IH]; [reflexivity|].
  cbn. unfold has_parameter. rewrite bool_decide_eq_true_2 by exact Hk.
  exact IH.
Qed.

Lemma ondecoration_loop_unknown ks params sigdecor func k :
  _func sigdecor = Some func ->
  k ∈ ks -> k ∉ param_names params ->
  exists k', k' ∈ ks /\ (k' ∉ param_names params)
    /\ ondecoration_loop ks params sigdecor
       = Err (TypeError (unexpected_keyword (__name__ func) k')).
Proof.
  intros Hf. induction ks as [|k0 ks IH]; intros Hin Hout.
  - inversion Hin.
  - cbn. unfold has_parameter.
    destruct (decide (k0 ∈ param_names params)) as [Hk0|Hk0].
    + rewrite bool_decide_eq_true_2 by exact Hk0. cbn.
      assert (k ∈ ks) as Hin'.
      { apply elem_of_cons in Hin as [->|]; [contradiction|assumption]. }
      destruct (IH Hin' Hout) as (k' & Hk' & Hno & Heq).
      exists k'. split; [right; exact Hk'|]. split; assumption.
    + rewrite bool_decide_eq_false_2 by exact Hk0. cbn. rewrite Hf.
      exists k0. split; [left|]. split; [assumption|reflexivity].
Qed.

(** C5.  If some configured name is not a parameter of the target,
    decorating fails with a [TypeError] whose message names the target and
    an offending name.  It is raised by the decoration itself: no decorated
    function is returned, nothing of the user program has run (the trace is
    empty) and the state is untouched. *)
Theorem unknown_name_rejected_at_decoration kw func k (u : U) :
  k ∈ keys kw ->
  k ∉ param_names (signature func) ->
  exists k',
    k' ∈ keys kw /\ (k' ∉ param_names (signature func))
    /\ dynamic_defaults prog kw func u
       = ([], u, Err (TypeError (unexpected_keyword (__name__ func) k'))).
Proof.
  intros Hin Hout.
  unfold dynamic_defaults, SignatureDecorator.factory.
  rewrite call_unset by reflexivity.
  set (inst := SignatureDecorator.set_signature _ _).
  destruct (ondecoration_loop_unknown (keys kw) (signature func) inst func k)
    as (k' & Hk' & Hno & Heq); [reflexivity|assumption|assumption|].
  exists k'. split; [assumption|]. split; [assumption|].
  unfold mbind', ondecoration. cbn [_signature inst SignatureDecorator.set_signature].
  unfold of_result. rewrite Heq. reflexivity.
Qed.

(** When every configured name is a parameter, decoration goes through. *)
Lemma known_names_accepted kw func (u : U) :
  Forall (fun k => k ∈ param_names (signature func)) (keys kw) ->
  exists inst,
    dynamic_defaults prog kw func u
      = ([], u, Ok (inst, SignatureDecorator.inner prog func))
    /\ bound_to inst func
    /\ _callbacks inst = [Update kw]
    /\ _apply_defaults inst = false
    /\ _apply_self inst = true.
Proof.
  intros Hall.
  unfold dynamic_defaults, SignatureDecorator.factory.
  rewrite call_unset by reflexivity.
  eexists. split.
  - unfold mbind', ondecoration. cbn [_signature SignatureDecorator.set_signature].
    unfold of_result. rewrite ondecoration_loop_ok by exact Hall. reflexivity.
  - repeat split.
Qed.

End Configuration.

(** *** C6: the defaulting property *)

Section DefaultingProperty.
Context {U : Type}.
Import DefaultProperty.







End DefaultingProperty.

(** *** The theorems at work on the demo program *)

Lemma callbacks_once_in_order_witness :
  let call := signature_decorator_factory Demo.prog
                [UserCallback 0; UserCallback 1] false Demo.f [VInt 1] [] 0 in
  let self := SignatureDecorator.set_signature (signature Demo.f)
                (SignatureDecorator.set_func Demo.f
                   (SignatureDecorator.__init__
                      [UserCallback 0; UserCallback 1] false true)) in
  let class_call := SignatureDecorator.inner Demo.prog Demo.f [VInt 1] [] (self, 0) in
  outcome_of call = Ok (VDict [("a", VInt 1); ("b", VInt 99)])
  /\ callees (trace_of call)
     = [CallbackCall (UserCallback 0); CallbackCall (UserCallback 1);
        TargetCall Demo.f]
  /\ outcome_of class_call = Ok (VDict [("a", VInt 1); ("b", VInt 99)])
  /\ callees (trace_of class_call)
     = [CallbackCall (UserCallback 0); CallbackCall (UserCallback 1);
        TargetCall Demo.f].
Proof.
  intros call self class_call.
  split; [reflexivity|]. split; [|split; [reflexivity|]].
  - exact (proj1 (callbacks_once_in_order Demo.prog)
             [UserCallback 0; UserCallback 1] false Demo.f [VInt 1] [] 0
             _ _ _ eq_refl).
  - exact (proj1 (proj2 (callbacks_once_in_order Demo.prog))
             self Demo.f [VInt 1] [] 0 _ _ _ eq_refl).
Defined.



Lemma unknown_name_rejected_at_decoration_witness :
  exists k',
    k' ∈ keys [("b", VFunc 0); ("zz", VInt 1)]
    /\ (k' ∉ param_names (signature Demo.f))
    /\ dynamic_defaults Demo.prog [("b", VFunc 0); ("zz", VInt 1)] Demo.f 0
       = ([], 0, Err (TypeError (unexpected_keyword "f" k'))).
Proof.
  apply (unknown_name_rejected_at_decoration Demo.prog
           [("b", VFunc 0); ("zz", VInt 1)] Demo.f "zz" 0).
  - apply (bool_decide_unpack _). reflexivity.
  - apply (bool_decide_unpack _). reflexivity.
Defined.



(** *** Dictionaries *)

Section DictFacts.
Context {A : Type}.
Implicit Types (d e : dict A) (k n : string) (v : A).

Lemma dict_get_set n k v d :
  dict_get n (dict_set k v d) = if decide (n = k) then Some v else dict_get n d.
Proof.
  induction d as [|[k' v'] d IH]; cbn.
  - destruct (decide (n = k)); reflexivity.
  - destruct (decide (k = k')) as [->|Hk]; cbn.
    + destruct (decide (n = k')); reflexivity.
    + rewrite IH. destruct (decide (n = k')) as [->|]; [|reflexivity].
      destruct (decide (k' = k)); [congruence|reflexivity].
Qed.

Lemma dict_get_None n d : dict_get n d = None <-> n ∉ keys d.
Proof.
  induction d as [|[k' v'] d IH]; cbn.
  - split; [intros _; apply not_elem_of_nil|reflexivity].
  - rewrite not_elem_of_cons. destruct (decide (n = k')) as [->|Hn].
    + split; [discriminate|intros [? _]; congruence].
    + rewrite IH. tauto.
Qed.

Lemma dict_mem_true n d : dict_mem n d = true <-> n ∈ keys d.
Proof.
  unfold dict_mem. destruct (dict_get n d) eqn:H.
  - split; [intros _|reflexivity].
    destruct (decide (n ∈ keys d)) as [|Hn]; [assumption|].
    apply dict_get_None in Hn. congruence.
  - split; [discriminate|]. intros Hin. apply dict_get_None in H. contradiction.
Qed.

Lemma dict_mem_false n d : dict_mem n d = false <-> n ∉ keys d.
Proof.
  rewrite <- dict_mem_true. destruct (dict_mem n d); split; congruence.
Qed.

Lemma dict_get_Some_mem n d v : dict_get n d = Some v -> n ∈ keys d.
Proof. intros H. apply dict_mem_true. unfold dict_mem. rewrite H. reflexivity. Qed.

Lemma dict_set_fresh k v d : k ∉ keys d -> dict_set k v d = d ++ [(k, v)].
Proof.
  induction d as [|[k' v'] d IH]; cbn; [reflexivity|].
  rewrite not_elem_of_cons. intros [Hk Hd].
  destruct (decide (k = k')); [contradiction|]. rewrite IH by assumption.
  reflexivity.
Qed.

Lemma keys_app d e : keys (d ++ e) = keys d ++ keys e.
Proof. unfold keys. apply map_app. Qed.

Lemma dict_get_app n d e :
  dict_get n (d ++ e) =
    match dict_get n d with Some v => Some v | None => dict_get n e end.
Proof.
  induction d as [|[k' v'] d IH]; cbn; [reflexivity|].
  destruct (decide (n = k')); [reflexivity|apply IH].
Qed.

Lemma dict_update_fresh e : forall d,
  NoDup (keys e) ->
  (forall k, k ∈ keys e -> k ∉ keys d) ->
  dict_update d e = d ++ e.
Proof.
  unfold dict_update.
  induction e as [|[k v] e IH]; intros d Hnd Hfresh; cbn.
  - rewrite app_nil_r. reflexivity.
  - cbn in Hnd. apply NoDup_cons in Hnd as [Hk Hnd].
    rewrite dict_set_fresh by (apply Hfresh; left).
    rewrite IH; [rewrite <- app_assoc; reflexivity|assumption|].
    intros k' Hk'. rewrite keys_app. cbn. rewrite elem_of_app, list_elem_of_singleton.
    intros [Hd| ->]; [|contradiction].
    revert Hd. apply Hfresh. right. assumption.
Qed.

Lemma dict_del_fresh k d : k ∉ keys d -> dict_del k d = d.
Proof.
  induction d as [|[k' v'] d IH]; cbn; [reflexivity|].
  rewrite not_elem_of_cons. intros [Hk Hd].
  destruct (decide (k = k')); [contradiction|]. rewrite IH by assumption.
  reflexivity.
Qed.

Lemma keys_dict_del k d n : n ∈ keys (dict_del k d) -> n ∈ keys d.
Proof.
  induction d as [|[k' v'] d IH]; cbn; [trivial|].
  destruct (decide (k = k')); cbn.
  - intros H. right. assumption.
  - rewrite !elem_of_cons. intros [->|H]; [left; reflexivity|right; auto].
Qed.

Lemma NoDup_keys_del k d : NoDup (keys d) -> NoDup (keys (dict_del k d)).
Proof.
  induction d as [|[k' v'] d IH]; cbn; [trivial|].
  rewrite NoDup_cons. intros [Hk Hd].
  destruct (decide (k = k')); [assumption|]. cbn.
  apply NoDup_cons. split; [|auto].
  intros H. apply Hk. eapply keys_dict_del, H.
Qed.

Lemma dict_get_del_ne n k d : n <> k -> dict_get n (dict_del k d) = dict_get n d.
Proof.
  intros Hn. induction d as [|[k' v'] d IH]; cbn; [reflexivity|].
  destruct (decide (k = k')) as [->|Hk]; cbn.
  - destruct (decide (n = k')); [contradiction|reflexivity].
  - rewrite IH. reflexivity.
Qed.

Lemma dict_del_gone k d : NoDup (keys d) -> k ∉ keys (dict_del k d).
Proof.
  induction d as [|[k' v'] d IH]; cbn; [intros _; apply not_elem_of_nil|].
  rewrite NoDup_cons. intros [Hk Hd].
  destruct (decide (k = k')) as [->|Hne]; [assumption|]. cbn.
  rewrite not_elem_of_cons. split; [assumption|auto].
Qed.

Lemma dict_pop_None k d : dict_pop k d = None <-> k ∉ keys d.
Proof.
  unfold dict_pop. rewrite <- dict_get_None.
  destruct (dict_get k d); split; congruence.
Qed.

Lemma dict_pop_Some k d v d' :
  dict_pop k d = Some (v, d') -> dict_get k d = Some v /\ d' = dict_del k d.
Proof.
  unfold dict_pop. destruct (dict_get k d); [|discriminate].
  intros [= <- <-]. split; reflexivity.
Qed.

Lemma dict_pop_head k v d : dict_pop k ((k, v) :: d) = Some (v, d).
Proof.
  unfold dict_pop. cbn. destruct (decide (k = k)); [reflexivity|congruence].
Qed.

End DictFacts.

(** *** Well-formed parameter lists *)

Lemma ordered_weaken R : forall top top',
  top' <= top -> ordered top R = true -> ordered top' R = true.
Proof.
  destruct R as [|p ps]; intros top top' Hle; cbn; [trivial|].
  rewrite !andb_true_iff, !Nat.leb_le. intros [H1 H2]. split; [lia|exact H2].
Qed.

Lemma ordered_cons top p ps :
  ordered top (p :: ps) = true ->
  top <= kind_rank (pkind p)
  /\ ordered (if is_variadic p then S (kind_rank (pkind p)) else kind_rank (pkind p)) ps
     = true.
Proof. cbn. rewrite andb_true_iff, Nat.leb_le. trivial. Qed.

Lemma ordered_tail top p ps :
  ordered top (p :: ps) = true -> ordered (kind_rank (pkind p)) ps = true.
Proof.
  intros H. apply ordered_cons in H as [_ H].
  eapply ordered_weaken; [|exact H]. destruct (is_variadic p); lia.
Qed.

Lemma ordered_head top p ps :
  ordered top (p :: ps) = true -> top <= kind_rank (pkind p).
Proof. intros H. apply ordered_cons in H as [H _]. exact H. Qed.

Lemma ordered_after_var_keyword top p ps :
  pkind p = VAR_KEYWORD -> ordered top (p :: ps) = true -> ps = [].
Proof.
  intros Hk H. apply ordered_cons in H as [_ H].
  unfold is_variadic in H. rewrite Hk in H. cbn in H.
  destruct ps as [|q qs]; [reflexivity|].
  apply ordered_head in H. destruct (pkind q); cbn in H; lia.
Qed.

Lemma ordered_after_var_positional top p ps :
  pkind p = VAR_POSITIONAL -> ordered top (p :: ps) = true -> ordered 3 ps = true.
Proof.
  intros Hk H. apply ordered_cons in H as [_ H].
  unfold is_variadic in H. rewrite Hk in H. exact H.
Qed.

Lemma wf_signature_spec sig :
  wf_signature sig = true ->
  ordered 0 sig = true /\ NoDup (param_names sig)
  /\ (forall p, p ∈ sig -> is_variadic p = true -> default p = None).
Proof.
  unfold wf_signature. rewrite !andb_true_iff, bool_decide_eq_true.
  intros [[H1 H2] H3]. split; [assumption|]. split; [assumption|].
  intros p Hp Hv. rewrite forallb_forall in H3.
  apply list_elem_of_In in Hp. specialize (H3 p Hp).
  rewrite Hv in H3. unfold has_default in H3.
  destruct (default p); [discriminate|reflexivity].
Qed.

(** *** Converting a shaped mapping back to a call *)

Section Conversion.
Variable A : Arguments.

Lemma high_rank_kind top p ps :
  3 <= top -> ordered top (p :: ps) = true ->
  pkind p = KEYWORD_ONLY \/ pkind p = VAR_KEYWORD.
Proof.
  intros Htop H. apply ordered_head in H.
  destruct (pkind p); cbn in H; try lia; auto.
Qed.

Lemma args_loop_high R : ordered 3 R = true -> args_loop R A = Ok [].
Proof.
  destruct R as [|p ps]; [reflexivity|]. intros H.
  destruct (high_rank_kind 3 p ps (le_n _) H) as [Hk|Hk]; cbn; rewrite Hk;
    reflexivity.
Qed.

Lemma kwargs_loop_high R kacc :
  ordered 3 R = true -> kwargs_loop R A false kacc = kwargs_loop R A true kacc.
Proof.
  destruct R as [|p ps]; [reflexivity|]. intros H.
  destruct (high_rank_kind 3 p ps (le_n _) H) as [Hk|Hk]; cbn; rewrite Hk;
    reflexivity.
Qed.

Lemma args_loop_shaped R : forall top,
  ordered top R = true -> shaped_from false R A = true ->
  args_loop R A = Ok (arglist R A).
Proof.
  induction R as [|p ps IH]; intros top Hord Hsh; [reflexivity|].
  cbn in Hsh |- *.
  destruct (dict_get (name p) A) as [v|] eqn:Hv.
  - destruct (pkind p) eqn:Hk; cbn in Hsh |- *; try reflexivity.
    + rewrite (IH _ (ordered_tail _ _ _ Hord) Hsh). reflexivity.
    + rewrite (IH _ (ordered_tail _ _ _ Hord) Hsh). reflexivity.
    + apply andb_true_iff in Hsh as [Ht _].
      rewrite (args_loop_high ps (ordered_after_var_positional _ _ _ Hk Hord)).
      destruct v; try discriminate. cbn. rewrite app_nil_r. reflexivity.
  - destruct (pkind p); reflexivity.
Qed.

Lemma kwargs_loop_trailing R : forall top kacc,
  ordered top R = true ->
  kwargs_loop R A false kacc = kwargs_loop (trailing R A) A true kacc.
Proof.
  induction R as [|p ps IH]; intros top kacc Hord; [reflexivity|].
  cbn. unfold dict_mem.
  destruct (dict_get (name p) A) as [v|] eqn:Hv;
    destruct (pkind p) eqn:Hk; cbn; rewrite ?Hv, ?Hk; cbn;
    try reflexivity;
    try (apply (IH _ _ (ordered_tail _ _ _ Hord)));
    try (apply kwargs_loop_high, (ordered_after_var_positional _ _ _ Hk Hord)).
Qed.

Lemma kwargs_loop_started R : forall kacc,
  shaped_from true R A = true ->
  NoDup (keys (kacc ++ kwlist R A)) ->
  kwargs_loop R A true kacc = Ok (kacc ++ kwlist R A).
Proof.
  induction R as [|p ps IH]; intros kacc Hsh Hnd; cbn.
  - rewrite app_nil_r. reflexivity.
  - cbn in Hsh, Hnd.
    destruct (dict_get (name p) A) as [v|] eqn:Hv.
    + assert (Hstep :
                 shaped_from true ps A = true ->
                 NoDup (keys (kacc ++ (name p, v) :: kwlist ps A)) ->
                 kwargs_loop ps A true (dict_set (name p) v kacc)
                 = Ok (kacc ++ (name p, v) :: kwlist ps A)).
      { intros Hsh' Hnd'.
        rewrite dict_set_fresh.
        - rewrite IH; [rewrite <- app_assoc; reflexivity|assumption|].
          rewrite <- app_assoc. exact Hnd'.
        - rewrite keys_app in Hnd'. apply NoDup_app in Hnd' as (_ & Hd & _).
          intros Hin. apply (Hd _ Hin). left. }
      destruct (pkind p) eqn:Hk; cbn in Hsh |- *; try discriminate Hsh.
      * apply Hstep; assumption.
      * apply Hstep; assumption.
      * apply andb_true_iff in Hsh as [Hg Hsh].
        destruct v; try discriminate.
        rewrite dict_update_fresh.
        -- rewrite IH; [rewrite <- app_assoc; reflexivity|assumption|].
           rewrite <- app_assoc. exact Hnd.
        -- rewrite !keys_app in Hnd. apply NoDup_app in Hnd as (_ & _ & Hd).
           apply NoDup_app in Hd as (Hd & _). exact Hd.
        -- rewrite !keys_app in Hnd. apply NoDup_app in Hnd as (_ & Hd & _).
           intros k Hk1 Hk2. apply (Hd _ Hk2). apply elem_of_app. left. exact Hk1.
    + apply andb_true_iff in Hsh as [_ Hsh].
      destruct (pkind p); cbn; apply IH; assumption.
Qed.

End Conversion.

(** *** Rebinding the converted arguments *)

Lemma extra_ok_spec sig A :
  extra_ok sig A = true <->
  (forall p d, p ∈ sig -> pkind p = VAR_KEYWORD ->
     dict_get (name p) A = Some (VDict d) ->
     NoDup (keys d)
     /\ forall k q, k ∈ keys d -> q ∈ sig -> name q = k ->
          is_variadic q = true
          \/ (pkind q = POSITIONAL_ONLY /\ dict_mem (name q) A = true)).
Proof.
  unfold extra_ok. rewrite forallb_forall. split.
  - intros H p d Hp Hk Hd. apply list_elem_of_In in Hp.
    specialize (H p Hp). rewrite Hk, Hd in H.
    apply andb_true_iff in H as [H1 H2]. apply bool_decide_eq_true in H1.
    split; [assumption|]. intros k q Hkd Hq Hn.
    rewrite forallb_forall in H2. apply list_elem_of_In in Hkd.
    specialize (H2 k Hkd). unfold clean_key in H2.
    rewrite forallb_forall in H2. apply list_elem_of_In in Hq.
    specialize (H2 q Hq).
    rewrite !orb_true_iff, andb_true_iff, negb_true_iff in H2.
    rewrite bool_decide_eq_false, bool_decide_eq_true in H2.
    destruct H2 as [[H2|H2]|H2]; [contradiction|left; assumption|right; assumption].
  - intros H p Hp. apply list_elem_of_In in Hp.
    destruct (pkind p) eqn:Hk; try reflexivity.
    destruct (dict_get (name p) A) as [[]|] eqn:Hd; try reflexivity.
    destruct (H p items Hp Hk Hd) as [H1 H2].
    apply andb_true_iff. split; [apply bool_decide_eq_true; assumption|].
    apply forallb_forall. intros k Hkd. apply list_elem_of_In in Hkd.
    unfold clean_key. apply forallb_forall. intros q Hq.
    apply list_elem_of_In in Hq.
    rewrite !orb_true_iff, andb_true_iff, negb_true_iff.
    rewrite bool_decide_eq_false, bool_decide_eq_true.
    destruct (decide (name q = k)) as [Hn|Hn]; [|left; left; assumption].
    destruct (H2 k q Hkd Hq Hn); [left; right; assumption|right; assumption].
Qed.

Lemma extra_ok_sub sig R A :
  (forall p, p ∈ R -> p ∈ sig) -> extra_ok sig A = true -> extra_ok R A = true.
Proof.
  intros Hsub H. apply extra_ok_spec. intros p d Hp Hk Hd.
  pose proof (proj1 (extra_ok_spec _ _) H) as H'.
  destruct (H' p d (Hsub _ Hp) Hk Hd) as [H1 H2].
  split; [assumption|]. intros k q Hkd Hq Hn. apply (H2 k q Hkd (Hsub _ Hq) Hn).
Qed.

Lemma extra_ok_cons p ps A : extra_ok (p :: ps) A = true -> extra_ok ps A = true.
Proof. apply extra_ok_sub. intros q Hq. right. exact Hq. Qed.

Section Rebinding.
Variable A : Arguments.

Lemma keys_kwlist_inv R k :
  k ∈ keys (kwlist R A) ->
  (exists q, q ∈ R /\ name q = k /\ dict_mem k A = true /\ pkind q <> VAR_KEYWORD)
  \/ (exists q d, q ∈ R /\ pkind q = VAR_KEYWORD
        /\ dict_get (name q) A = Some (VDict d) /\ k ∈ keys d).
Proof.
  induction R as [|p ps IH]; cbn; [intros H; inversion H|].
  assert (Hlater : k ∈ keys (kwlist ps A) ->
    (exists q, q ∈ p :: ps /\ name q = k /\ dict_mem k A = true
               /\ pkind q <> VAR_KEYWORD)
    \/ (exists q d, q ∈ p :: ps /\ pkind q = VAR_KEYWORD
          /\ dict_get (name q) A = Some (VDict d) /\ k ∈ keys d)).
  { intros H. destruct (IH H) as [(q & Hq & ?)|(q & d & Hq & ?)].
    - left. exists q. split; [right; assumption|assumption].
    - right. exists q, d. split; [right; assumption|assumption]. }
  destruct (dict_get (name p) A) as [v|] eqn:Hv; [|exact Hlater].
  assert (Hhere : pkind p <> VAR_KEYWORD ->
            k ∈ keys ((name p, v) :: kwlist ps A) ->
    (exists q, q ∈ p :: ps /\ name q = k /\ dict_mem k A = true
               /\ pkind q <> VAR_KEYWORD)
    \/ (exists q d, q ∈ p :: ps /\ pkind q = VAR_KEYWORD
          /\ dict_get (name q) A = Some (VDict d) /\ k ∈ keys d)).
  { intros Hk H. cbn in H. apply elem_of_cons in H as [->|H]; [|auto].
    left. exists p. split; [left|]. split; [reflexivity|].
    split; [|assumption]. unfold dict_mem. rewrite Hv. reflexivity. }
  destruct (pkind p) eqn:Hk; try (apply Hhere; discriminate).
  destruct v; try exact Hlater.
  rewrite map_app, elem_of_app. intros [H|H]; [|apply Hlater, H].
  right. exists p, items. split; [left|]. auto.
Qed.

(** The name of a parameter that a keyword could bind, or that is absent,
    is not among the keywords produced from the parameters after it. *)
Lemma kwlist_fresh p ps :
  NoDup (param_names (p :: ps)) ->
  extra_ok (p :: ps) A = true ->
  is_variadic p = false ->
  pkind p <> POSITIONAL_ONLY \/ dict_mem (name p) A = false ->
  name p ∉ keys (kwlist ps A).
Proof.
  intros Hnd Hex Hvar Hp Hin. cbn in Hnd. apply NoDup_cons in Hnd as [Hnd _].
  apply keys_kwlist_inv in Hin as [(q & Hq & Hn & _)|(q & d & Hq & Hk & Hd & Hin)].
  - apply Hnd. rewrite <- Hn. unfold param_names.
    apply list_elem_of_fmap. exists q. auto.
  - pose proof (proj1 (extra_ok_spec _ _) Hex) as Hex'.
    destruct (Hex' q d (list_elem_of_further _ _ _ Hq) Hk Hd) as [_ Hclean].
    destruct (Hclean (name p) p Hin (list_elem_of_here _ _) eq_refl) as [H|[H1 H2]].
    + congruence.
    + destruct Hp; congruence.
Qed.

Lemma keys_canon R k : k ∈ keys (canon R A) -> k ∈ param_names R.
Proof.
  induction R as [|p ps IH]; cbn; [trivial|].
  unfold entry at 1.
  destruct (dict_get (name p) A) as [v|]; [|intros H; right; auto].
  assert (Hgen : k ∈ keys ((name p, v) :: canon ps A) ->
                 k ∈ name p :: param_names ps).
  { cbn. rewrite !elem_of_cons. intros [->|H]; [left; reflexivity|right; auto]. }
  destruct (pkind p); try exact Hgen;
    destruct v as [| | | |[|]|[|]|]; try exact Hgen; intros H; right; auto.
Qed.

Lemma NoDup_keys_canon R : NoDup (param_names R) -> NoDup (keys (canon R A)).
Proof.
  induction R as [|p ps IH]; cbn; [trivial|].
  rewrite NoDup_cons. intros [Hp Hnd]. unfold entry at 1.
  destruct (dict_get (name p) A) as [v|]; [|auto].
  assert (Hgen : NoDup (keys ((name p, v) :: canon ps A))).
  { cbn. apply NoDup_cons. split; [|auto].
    intros H. apply Hp, keys_canon, H. }
  destruct (pkind p); try exact Hgen;
    destruct v as [| | | |[|]|[|]|]; try exact Hgen; auto.
Qed.

Lemma canon_app R1 R2 : canon (R1 ++ R2) A = canon R1 A ++ canon R2 A.
Proof. unfold canon. apply omap_app. Qed.

Lemma leading_trailing R : R = leading R A ++ trailing R A.
Proof.
  induction R as [|p ps IH]; [reflexivity|]. cbn.
  destruct (pkind p), (dict_get (name p) A); cbn; congruence.
Qed.

Lemma trailing_elem R q : q ∈ trailing R A -> q ∈ R.
Proof.
  intros H. rewrite (leading_trailing R). apply elem_of_app. right. exact H.
Qed.

Lemma trailing_ordered R : forall top,
  ordered top R = true -> exists top', ordered top' (trailing R A) = true.
Proof.
  induction R as [|p ps IH]; intros top H; [exists 0; reflexivity|]. cbn.
  pose proof (ordered_tail _ _ _ H) as Ht.
  destruct (pkind p), (dict_get (name p) A); eauto.
Qed.

Lemma trailing_NoDup R :
  NoDup (param_names R) -> NoDup (param_names (trailing R A)).
Proof.
  intros H. rewrite (leading_trailing R) in H. unfold param_names in H.
  rewrite map_app in H. apply NoDup_app in H as (_ & _ & H). exact H.
Qed.

Lemma trailing_shaped R :
  shaped_from false R A = true -> shaped_from true (trailing R A) A = true.
Proof.
  induction R as [|p ps IH]; [trivial|]. cbn.
  destruct (dict_get (name p) A) as [v|] eqn:Hv;
    destruct (pkind p) eqn:Hk; cbn; rewrite ?Hv, ?Hk; cbn;
    rewrite ?andb_true_iff; tauto.
Qed.

End Rebinding.

(** *** The keyword loop, step by step *)

Lemma keywords_step_var_keyword p ps K acc kwp :
  pkind p = VAR_KEYWORD ->
  bind_keywords_rest (p :: ps) K acc kwp = bind_keywords_rest ps K acc (Some p).
Proof.
  intros Hk. unfold bind_keywords_rest. cbn [bind_keywords].
  destruct (decide (pkind p = VAR_KEYWORD)); [reflexivity|contradiction].
Qed.

Lemma keywords_step_var_positional p ps K acc kwp :
  pkind p = VAR_POSITIONAL ->
  bind_keywords_rest (p :: ps) K acc kwp = bind_keywords_rest ps K acc kwp.
Proof.
  intros Hk. unfold bind_keywords_rest. cbn [bind_keywords].
  destruct (decide (pkind p = VAR_KEYWORD)); [congruence|].
  destruct (decide (pkind p = VAR_POSITIONAL)); [reflexivity|contradiction].
Qed.

Lemma keywords_step_absent p ps K acc kwp :
  is_variadic p = false -> name p ∉ keys K ->
  bind_keywords_rest (p :: ps) K acc kwp =
    if has_default p then bind_keywords_rest ps K acc kwp
    else Err (TypeError ("missing a required argument: " +:+ quoted (name p))).
Proof.
  intros Hv Hn. unfold bind_keywords_rest. cbn [bind_keywords].
  unfold is_variadic in Hv.
  destruct (decide (pkind p = VAR_KEYWORD)) as [E|_]; [rewrite E in Hv; discriminate|].
  destruct (decide (pkind p = VAR_POSITIONAL)) as [E|_]; [rewrite E in Hv; discriminate|].
  rewrite (proj2 (dict_pop_None _ _) Hn). unfold has_default.
  destruct (default p); reflexivity.
Qed.

Lemma keywords_step_present p ps K acc kwp v :
  is_variadic p = false -> dict_get (name p) K = Some v ->
  bind_keywords_rest (p :: ps) K acc kwp =
    if decide (pkind p = POSITIONAL_ONLY) then
      Err (TypeError (quoted (name p) +:+
             " parameter is positional only, but was passed as a keyword"))
    else bind_keywords_rest ps (dict_del (name p) K)
                            (dict_set (name p) v acc) kwp.
Proof.
  intros Hv Hn. unfold bind_keywords_rest. cbn [bind_keywords].
  unfold is_variadic in Hv.
  destruct (decide (pkind p = VAR_KEYWORD)) as [E|_]; [rewrite E in Hv; discriminate|].
  destruct (decide (pkind p = VAR_POSITIONAL)) as [E|_]; [rewrite E in Hv; discriminate|].
  unfold dict_pop. rewrite Hn.
  destruct (decide (pkind p = POSITIONAL_ONLY)); reflexivity.
Qed.

Section RebindingLoops.
Variable A : Arguments.

Lemma canon_cons p ps :
  canon (p :: ps) A =
    match entry p A with Some e => e :: canon ps A | None => canon ps A end.
Proof. unfold canon. cbn. destruct (entry p A); reflexivity. Qed.

Lemma entry_absent p : dict_get (name p) A = None -> entry p A = None.
Proof. intros H. unfold entry. rewrite H. reflexivity. Qed.

Lemma entry_plain p v :
  dict_get (name p) A = Some v -> is_variadic p = false ->
  entry p A = Some (name p, v).
Proof.
  intros H Hv. unfold entry. rewrite H. unfold is_variadic in Hv.
  destruct (pkind p); try discriminate Hv; reflexivity.
Qed.

Lemma entry_dict p d :
  dict_get (name p) A = Some (VDict d) -> pkind p = VAR_KEYWORD ->
  entry p A = match d with [] => None | _ => Some (name p, VDict d) end.
Proof. intros H Hk. unfold entry. rewrite H, Hk. destruct d; reflexivity. Qed.

Lemma entry_tuple p items :
  dict_get (name p) A = Some (VTuple items) -> pkind p = VAR_POSITIONAL ->
  entry p A = match items with [] => None | _ => Some (name p, VTuple items) end.
Proof. intros H Hk. unfold entry. rewrite H, Hk. destruct items; reflexivity. Qed.

Lemma bind_keywords_kwlist R : forall top acc,
  ordered top R = true -> NoDup (param_names R) ->
  shaped_from true R A = true -> extra_ok R A = true ->
  NoDup (keys (acc ++ canon R A)) ->
  bind_keywords_rest R (kwlist R A) acc None = Ok (acc ++ canon R A).
Proof.
  induction R as [|p ps IH]; intros top acc Hord Hnd Hsh Hex Hfresh.
  - cbn. rewrite app_nil_r. reflexivity.
  - pose proof (ordered_tail _ _ _ Hord) as Hord'.
    pose proof (extra_ok_cons _ _ _ Hex) as Hex'.
    pose proof Hnd as Hnd0.
    cbn in Hnd. apply NoDup_cons in Hnd as [Hp Hnd].
    cbn [shaped_from] in Hsh. cbn [kwlist].
    rewrite canon_cons in Hfresh |- *.
    assert (Hpresent : forall v,
              dict_get (name p) A = Some v -> is_variadic p = false ->
              pkind p <> POSITIONAL_ONLY -> shaped_from true ps A = true ->
              bind_keywords_rest (p :: ps) ((name p, v) :: kwlist ps A) acc None
              = Ok (acc ++ (name p, v) :: canon ps A)).
    { intros v Hv Hvar Hk Hsh'.
      rewrite (entry_plain _ _ Hv Hvar) in Hfresh.
      rewrite (keywords_step_present _ _ _ _ _ v);
        [|exact Hvar
         |cbn; destruct (decide (name p = name p)); [reflexivity|congruence]].
      destruct (decide (pkind p = POSITIONAL_ONLY)); [contradiction|].
      cbn [dict_del]. destruct (decide (name p = name p)); [|congruence].
      rewrite dict_set_fresh.
      - rewrite (IH _ _ Hord' Hnd Hsh' Hex');
          rewrite <- app_assoc; [reflexivity|exact Hfresh].
      - rewrite keys_app in Hfresh. apply NoDup_app in Hfresh as (_ & Hd & _).
        intros Hin. apply (Hd _ Hin). left. }
    destruct (dict_get (name p) A) as [v|] eqn:Hv.
    + destruct (pkind p) eqn:Hk; cbn in Hsh; try discriminate Hsh.
      * rewrite (entry_plain _ _ Hv) by (unfold is_variadic; rewrite Hk; reflexivity).
        apply Hpresent; [reflexivity|unfold is_variadic; rewrite Hk; reflexivity
                        |discriminate|exact Hsh].
      * rewrite (entry_plain _ _ Hv) by (unfold is_variadic; rewrite Hk; reflexivity).
        apply Hpresent; [reflexivity|unfold is_variadic; rewrite Hk; reflexivity
                        |discriminate|exact Hsh].
      * (* variable keyword, present: it is the last parameter *)
        apply andb_true_iff in Hsh as [Hdict _].
        destruct v as [| | | | |d|]; try discriminate Hdict.
        pose proof (ordered_after_var_keyword _ _ _ Hk Hord) as ->.
        rewrite keywords_step_var_keyword by exact Hk.
        rewrite (entry_dict _ _ Hv Hk) in Hfresh |- *.
        cbn. rewrite !app_nil_r.
        destruct d as [|[k v] d]; cbn in Hfresh |- *.
        -- rewrite app_nil_r. reflexivity.
        -- rewrite dict_set_fresh; [reflexivity|].
           change (map fst acc) with (keys acc).
           unfold keys in Hfresh. rewrite map_app in Hfresh.
           apply NoDup_app in Hfresh as (_ & Hd & _).
           intros Hin. apply (Hd _ Hin). left.
    + apply andb_true_iff in Hsh as [Hopt Hsh].
      rewrite (entry_absent _ Hv) in Hfresh |- *.
      destruct (is_variadic p) eqn:Hvar.
      * unfold is_variadic in Hvar.
        destruct (pkind p) eqn:Hk; try discriminate Hvar.
        -- rewrite keywords_step_var_positional by exact Hk.
           apply (IH _ _ Hord' Hnd Hsh Hex' Hfresh).
        -- pose proof (ordered_after_var_keyword _ _ _ Hk Hord) as ->.
           rewrite keywords_step_var_keyword by exact Hk.
           cbn. rewrite app_nil_r. reflexivity.
      * rewrite keywords_step_absent; [|exact Hvar|].
        -- cbn in Hopt. rewrite Hopt.
           apply (IH _ _ Hord' Hnd Hsh Hex' Hfresh).
        -- apply kwlist_fresh; [exact Hnd0|exact Hex|exact Hvar|].
           right. unfold dict_mem. rewrite Hv. reflexivity.
Qed.

End RebindingLoops.

Section RebindingPositional.
Variable A : Arguments.

Lemma trailing_fresh p ps :
  NoDup (param_names (p :: ps)) ->
  extra_ok (p :: ps) A = true ->
  is_variadic p = false ->
  pkind p <> POSITIONAL_ONLY \/ dict_mem (name p) A = false ->
  dict_mem (name p) (kwlist (trailing ps A) A) = false.
Proof.
  intros Hnd Hex Hvar Hp. apply dict_mem_false.
  apply kwlist_fresh; [| |exact Hvar|exact Hp].
  - cbn in Hnd |- *. apply NoDup_cons in Hnd as [Hn Hnd].
    apply NoDup_cons. split; [|apply trailing_NoDup, Hnd].
    intros Hin. apply Hn. unfold param_names in *.
    apply list_elem_of_fmap in Hin as (q & -> & Hq).
    apply list_elem_of_fmap. exists q. split; [reflexivity|].
    eapply trailing_elem, Hq.
  - eapply extra_ok_sub; [|exact Hex].
    intros q Hq. apply elem_of_cons in Hq as [->|Hq]; [left|right].
    eapply trailing_elem, Hq.
Qed.

Lemma bind_positional_arglist R : forall top acc,
  ordered top R = true -> NoDup (param_names R) ->
  shaped_from false R A = true -> extra_ok R A = true ->
  NoDup (keys (acc ++ canon (leading R A) A)) ->
  bind_positional (arglist R A) R (kwlist (trailing R A) A) acc
  = Ok (acc ++ canon (leading R A) A, trailing R A).
Proof.
  induction R as [|p ps IH]; intros top acc Hord Hnd Hsh Hex Hfresh.
  - cbn. rewrite app_nil_r. reflexivity.
  - pose proof (ordered_tail _ _ _ Hord) as Hord'.
    pose proof (extra_ok_cons _ _ _ Hex) as Hex'.
    pose proof Hnd as Hnd0.
    cbn in Hnd. apply NoDup_cons in Hnd as [Hp Hnd].
    cbn [shaped_from] in Hsh.
    cbn [arglist leading trailing] in Hfresh |- *.
    assert (Hconsumed : forall v,
              dict_get (name p) A = Some v -> is_positional p = true ->
              shaped_from false ps A = true ->
              NoDup (keys (acc ++ canon (p :: leading ps A) A)) ->
              bind_positional (v :: arglist ps A) (p :: ps)
                              (kwlist (trailing ps A) A) acc
              = Ok (acc ++ canon (p :: leading ps A) A, trailing ps A)).
    { intros v Hv Hpos Hsh' Hfresh'.
      assert (Hvar : is_variadic p = false).
      { unfold is_positional in Hpos. unfold is_variadic.
        destruct (pkind p); try discriminate Hpos; reflexivity. }
      rewrite canon_cons, (entry_plain _ _ _ Hv Hvar) in Hfresh' |- *.
      assert (Hrec : bind_positional (arglist ps A) ps (kwlist (trailing ps A) A)
                       (dict_set (name p) v acc)
                     = Ok (acc ++ (name p, v) :: canon (leading ps A) A,
                           trailing ps A)).
      { rewrite dict_set_fresh.
        - rewrite (IH _ _ Hord' Hnd Hsh' Hex');
            rewrite <- app_assoc; [reflexivity|exact Hfresh'].
        - rewrite keys_app in Hfresh'. apply NoDup_app in Hfresh' as (_ & Hd & _).
          intros Hin. apply (Hd _ Hin). left. }
      cbn [bind_positional]. unfold is_positional in Hpos.
      destruct (pkind p) eqn:Hk; try discriminate Hpos.
      - rewrite bool_decide_eq_true_2 by reflexivity.
        rewrite andb_false_r. exact Hrec.
      - rewrite (trailing_fresh p ps Hnd0 Hex Hvar)
          by (left; rewrite Hk; discriminate).
        exact Hrec. }
    destruct (dict_get (name p) A) as [v|] eqn:Hv.
    + destruct (pkind p) eqn:Hk; cbn in Hsh.
      * apply Hconsumed; [reflexivity|unfold is_positional; rewrite Hk; reflexivity
                         |exact Hsh|exact Hfresh].
      * apply Hconsumed; [reflexivity|unfold is_positional; rewrite Hk; reflexivity
                         |exact Hsh|exact Hfresh].
      * (* variable positional, present *)
        apply andb_true_iff in Hsh as [Ht _].
        destruct v as [| | | |items| |]; try discriminate Ht.
        rewrite canon_cons, (entry_tuple _ _ _ Hv Hk) in Hfresh |- *.
        destruct items as [|x xs]; cbn [canon omap] in Hfresh |- *.
        -- cbn. rewrite Hk. cbn. rewrite app_nil_r. reflexivity.
        -- cbn [bind_positional]. rewrite Hk.
           rewrite dict_set_fresh; [reflexivity|].
           rewrite keys_app in Hfresh. apply NoDup_app in Hfresh as (_ & Hd & _).
           intros Hin. apply (Hd _ Hin). left.
      * (* keyword only, present *)
        cbn [bind_positional]. rewrite Hk.
        destruct (decide (KEYWORD_ONLY = VAR_POSITIONAL)); [discriminate|].
        cbn [kwlist]. rewrite Hv, Hk.
        unfold dict_mem at 1. cbn [dict_get].
        destruct (decide (name p = name p)); [|congruence].
        destruct (decide (KEYWORD_ONLY = POSITIONAL_ONLY)); [discriminate|].
        cbn. rewrite app_nil_r. reflexivity.
      * (* variable keyword *)
        cbn [bind_positional]. rewrite Hk.
        destruct (decide (VAR_KEYWORD = VAR_POSITIONAL)); [discriminate|].
        destruct (dict_mem (name p) _).
        -- destruct (decide (VAR_KEYWORD = POSITIONAL_ONLY)); [discriminate|].
           cbn. rewrite app_nil_r. reflexivity.
        -- destruct (decide (VAR_KEYWORD = VAR_KEYWORD)); [|congruence].
           cbn. rewrite app_nil_r. reflexivity.
    + apply andb_true_iff in Hsh as [Hopt Hsh].
      assert (Hstop :
                pkind p <> VAR_POSITIONAL ->
                bind_positional [] (p :: ps) (kwlist (p :: ps) A) acc
                = Ok (acc ++ canon [] A, p :: ps)).
      { intros Hk. cbn [bind_positional kwlist]. rewrite Hv.
        destruct (decide (pkind p = VAR_POSITIONAL)); [contradiction|].
        destruct (dict_mem (name p) (kwlist ps A)) eqn:Hmem.
        - destruct (decide (pkind p = POSITIONAL_ONLY)) as [Hpo|].
          + exfalso. apply dict_mem_true in Hmem. revert Hmem.
            apply kwlist_fresh; [exact Hnd0|exact Hex| |].
            * unfold is_variadic. rewrite Hpo. reflexivity.
            * right. unfold dict_mem. rewrite Hv. reflexivity.
          + cbn. rewrite app_nil_r. reflexivity.
        - destruct (decide (pkind p = VAR_KEYWORD)) as [Hvk|Hvk].
          + cbn. rewrite app_nil_r. reflexivity.
          + unfold is_variadic, has_default in Hopt.
            destruct (default p).
            * cbn. rewrite app_nil_r. reflexivity.
            * destruct (pkind p); try discriminate Hopt; congruence. }
      destruct (pkind p) eqn:Hk; try (apply Hstop; discriminate).
      rewrite canon_cons, (entry_absent A p Hv).
      change (canon [] A) with (@nil (string * value)). rewrite app_nil_r.
      cbn [bind_positional]. rewrite Hk. reflexivity.
Qed.

(** Rebinding the arguments converted from a shaped mapping succeeds and
    gives its entries back in the order of the signature. *)
Lemma rebind_shaped sig :
  wf_signature sig = true -> shaped sig A = true ->
  args_loop sig A = Ok (arglist sig A)
  /\ kwargs_loop sig A false [] = Ok (kwlist (trailing sig A) A)
  /\ bind_from (arglist sig A) sig (kwlist (trailing sig A) A) [] = Ok (canon sig A).
Proof.
  intros Hwf Hsh. apply wf_signature_spec in Hwf as (Hord & Hnd & Hvar).
  unfold shaped in Hsh. apply andb_true_iff in Hsh as [Hsh Hex].
  destruct (trailing_ordered A sig 0 Hord) as [top' Hord'].
  pose proof (trailing_NoDup A sig Hnd) as Hnd'.
  pose proof (trailing_shaped A sig Hsh) as Hsh'.
  assert (Hex' : extra_ok (trailing sig A) A = true).
  { eapply extra_ok_sub; [|exact Hex]. intros q. apply trailing_elem. }
  assert (Hcanon : NoDup (keys (canon (leading sig A) A ++ canon (trailing sig A) A))).
  { rewrite <- canon_app, <- leading_trailing. apply NoDup_keys_canon, Hnd. }
  split; [eapply args_loop_shaped; eassumption|]. split.
  - rewrite (kwargs_loop_trailing A sig 0 [] Hord).
    rewrite kwargs_loop_started; [reflexivity|exact Hsh'|].
    cbn [app]. clear Hcanon.
    (* the keywords produced from the trailing parameters are distinct *)
    revert Hord' Hnd' Hsh' Hex'. generalize (trailing sig A). clear.
    intros R. revert top'.
    induction R as [|p ps IH]; intros top Hord Hnd Hsh Hex; [constructor|].
    pose proof (ordered_tail _ _ _ Hord) as Hord'.
    pose proof (extra_ok_cons _ _ _ Hex) as Hex'.
    pose proof Hnd as Hnd0.
    cbn in Hnd. apply NoDup_cons in Hnd as [Hp Hnd].
    cbn [shaped_from] in Hsh. cbn [kwlist].
    destruct (dict_get (name p) A) as [v|] eqn:Hv.
    + assert (Hplain : is_variadic p = false -> pkind p <> POSITIONAL_ONLY ->
                shaped_from true ps A = true ->
                NoDup (keys ((name p, v) :: kwlist ps A))).
      { intros Hvar Hk Hsh'. cbn. apply NoDup_cons. split; [|eauto].
        apply kwlist_fresh; [exact Hnd0|exact Hex|exact Hvar|left; exact Hk]. }
      destruct (pkind p) eqn:Hk; cbn in Hsh; try discriminate Hsh.
      * apply Hplain; [unfold is_variadic; rewrite Hk; reflexivity
                      |discriminate|exact Hsh].
      * apply Hplain; [unfold is_variadic; rewrite Hk; reflexivity
                      |discriminate|exact Hsh].
      * apply andb_true_iff in Hsh as [Hdict _].
        destruct v as [| | | | |d|]; try discriminate Hdict.
        pose proof (ordered_after_var_keyword _ _ _ Hk Hord) as ->.
        cbn [kwlist]. rewrite app_nil_r.
        pose proof (proj1 (extra_ok_spec _ _) Hex) as Hspec.
        apply (Hspec p d (list_elem_of_here _ _) Hk Hv).
    + apply andb_true_iff in Hsh as [_ Hsh]. eauto.
  - unfold bind_from.
    rewrite (bind_positional_arglist sig 0 [] Hord Hnd Hsh Hex).
    + cbn [app].
      rewrite (bind_keywords_kwlist A _ top' _ Hord' Hnd' Hsh' Hex' Hcanon).
      rewrite <- canon_app, <- leading_trailing. reflexivity.
    + cbn [app]. rewrite keys_app in Hcanon.
      apply NoDup_app in Hcanon as (H & _). exact H.
Qed.

End RebindingPositional.

(** *** Defaults depend on the effective values only *)

Lemma dict_get_canon A R p :
  NoDup (param_names R) -> p ∈ R ->
  dict_get (name p) (canon R A) = snd <$> entry p A.
Proof.
  induction R as [|q qs IH]; intros Hnd Hp; [inversion Hp|].
  cbn in Hnd. apply NoDup_cons in Hnd as [Hq Hnd].
  rewrite canon_cons.
  assert (Hname : forall e, entry q A = Some e -> e.1 = name q).
  { unfold entry. intros e. destruct (dict_get (name q) A) as [v|]; [|discriminate].
    destruct (pkind q); destruct v as [| | | |[|]|[|]|];
      try discriminate; intros [= <-]; reflexivity. }
  apply elem_of_cons in Hp as [->|Hp].
  - destruct (entry q A) as [[k v]|] eqn:He.
    + specialize (Hname _ eq_refl). cbn in Hname. subst k. cbn.
      destruct (decide (name q = name q)); [reflexivity|congruence].
    + cbn. apply dict_get_None. intros Hin. apply Hq, (keys_canon A), Hin.
  - assert (name p <> name q) as Hne.
    { intros E. apply Hq. rewrite <- E. unfold param_names.
      apply list_elem_of_fmap. eauto. }
    destruct (entry q A) as [[k v]|] eqn:He; [|auto].
    specialize (Hname _ eq_refl). cbn in Hname. subst k. cbn.
    destruct (decide (name p = name q)); [contradiction|auto].
Qed.

Lemma effective_canon A sig p :
  NoDup (param_names sig) ->
  (forall q, q ∈ sig -> is_variadic q = true -> default q = None) ->
  p ∈ sig -> effective p (canon sig A) = effective p A.
Proof.
  intros Hnd Hvar Hp. unfold effective.
  rewrite (dict_get_canon A sig p Hnd Hp).
  unfold entry. destruct (dict_get (name p) A) as [v|]; [|reflexivity].
  specialize (Hvar p Hp). unfold is_variadic in Hvar.
  destruct (pkind p); destruct v as [| | | |[|]|[|]|]; cbn; try reflexivity;
    rewrite Hvar by reflexivity; reflexivity.
Qed.

Lemma defaults_loop_effective R X :
  defaults_loop R X = omap (fun p => pair (name p) <$> effective p X) R.
Proof.
  induction R as [|p ps IH]; [reflexivity|]. cbn. rewrite IH.
  unfold effective. destruct (dict_get (name p) X); [reflexivity|].
  destruct (default p); [reflexivity|]. destruct (pkind p); reflexivity.
Qed.

Lemma defaults_loop_ext R X Y :
  (forall p, p ∈ R -> effective p X = effective p Y) ->
  defaults_loop R X = defaults_loop R Y.
Proof.
  intros H. rewrite !defaults_loop_effective.
  induction R as [|p ps IH]; [reflexivity|]. cbn.
  rewrite (H p) by left. rewrite IH; [reflexivity|].
  intros q Hq. apply H. right. exact Hq.
Qed.

Lemma apply_defaults_canon sig A :
  wf_signature sig = true ->
  apply_defaults (mkBoundArguments sig (canon sig A))
  = apply_defaults (mkBoundArguments sig A).
Proof.
  intros Hwf. apply wf_signature_spec in Hwf as (_ & Hnd & Hvar).
  unfold apply_defaults. cbn. f_equal. f_equal.
  apply defaults_loop_ext. intros p Hp. apply effective_canon; assumption.
Qed.

(** *** Calling the target with a shaped mapping *)


(** *** What [bind] returns *)

Lemma bind_rest_inv acc K kwp A :
  bind_rest acc K kwp = Ok A ->
  (K = [] /\ A = acc)
  \/ (exists q, kwp = Some q /\ K <> [] /\ A = dict_set (name q) (VDict K) acc).
Proof.
  unfold bind_rest. destruct K as [|[k v] K].
  - intros [= <-]. left. split; reflexivity.
  - destruct kwp as [q|]; [|discriminate]. intros [= <-].
    right. exists q. split; [reflexivity|]. split; [discriminate|reflexivity].
Qed.

(** One step of the keyword loop, read backwards from a success. *)
Lemma keywords_step_inv p ps K acc A :
  bind_keywords_rest (p :: ps) K acc None = Ok A ->
  (pkind p = VAR_KEYWORD /\ bind_keywords_rest ps K acc (Some p) = Ok A)
  \/ (pkind p = VAR_POSITIONAL /\ bind_keywords_rest ps K acc None = Ok A)
  \/ (is_variadic p = false /\ (name p ∉ keys K) /\ has_default p = true
      /\ bind_keywords_rest ps K acc None = Ok A)
  \/ (exists v, is_variadic p = false /\ pkind p <> POSITIONAL_ONLY
        /\ dict_get (name p) K = Some v
        /\ bind_keywords_rest ps (dict_del (name p) K)
                              (dict_set (name p) v acc) None = Ok A).
Proof.
  intros H. destruct (is_variadic p) eqn:Hvar.
  - unfold is_variadic in Hvar. destruct (pkind p) eqn:Hk; try discriminate Hvar.
    + rewrite keywords_step_var_positional in H by exact Hk. auto.
    + rewrite keywords_step_var_keyword in H by exact Hk. auto.
  - destruct (dict_get (name p) K) as [v|] eqn:Hv.
    + rewrite (keywords_step_present _ _ _ _ _ v Hvar Hv) in H.
      destruct (decide (pkind p = POSITIONAL_ONLY)); [discriminate|].
      right. right. right. exists v. auto.
    + apply dict_get_None in Hv. rewrite keywords_step_absent in H by assumption.
      destruct (has_default p); [|discriminate]. right. right. left. auto.
Qed.

Lemma keywords_last_inv p K acc A :
  bind_keywords_rest [] K acc (Some p) = Ok A ->
  (K = [] /\ A = acc) \/ (K <> [] /\ A = dict_set (name p) (VDict K) acc).
Proof.
  unfold bind_keywords_rest. cbn [bind_keywords]. intros H.
  apply bind_rest_inv in H as [H|(q & [= <-] & H)]; auto.
Qed.

Lemma keywords_none_inv K acc A :
  bind_keywords_rest [] K acc None = Ok A -> K = [] /\ A = acc.
Proof.
  unfold bind_keywords_rest. cbn [bind_keywords]. intros H.
  apply bind_rest_inv in H as [H|(q & [=] & _)]. exact H.
Qed.

Lemma fresh_for_tail p ps acc : fresh_for (p :: ps) acc -> fresh_for ps acc.
Proof. intros H n Hn. apply H. right. exact Hn. Qed.

Lemma fresh_for_set p ps acc k v :
  k ∉ param_names ps -> fresh_for (p :: ps) acc ->
  fresh_for ps (dict_set k v acc).
Proof.
  intros Hk H n Hn Hin. apply dict_mem_true in Hin. unfold dict_mem in Hin.
  rewrite dict_get_set in Hin. destruct (decide (n = k)) as [->|_]; [contradiction|].
  assert (n ∉ keys acc) as Hnot by (apply H; right; exact Hn).
  apply dict_get_None in Hnot. rewrite Hnot in Hin. discriminate.
Qed.

Lemma not_in_names_cons n p ps :
  n ∉ param_names (p :: ps) -> n <> name p /\ n ∉ param_names ps.
Proof. cbn. apply not_elem_of_cons. Qed.

(** The keyword loop leaves alone every name that is not a parameter's. *)
Lemma keywords_frame R : forall top K acc A n,
  ordered top R = true ->
  bind_keywords_rest R K acc None = Ok A ->
  n ∉ param_names R -> dict_get n A = dict_get n acc.
Proof.
  induction R as [|p ps IH]; intros top K acc A n Hord H Hn.
  - apply keywords_none_inv in H as [_ ->]. reflexivity.
  - apply not_in_names_cons in Hn as [Hne Hn].
    pose proof (ordered_tail _ _ _ Hord) as Hord'.
    apply keywords_step_inv in H
      as [(Hk & H)|[(Hk & H)|[(Hvar & Hab & Hdef & H)|(v & Hvar & Hk & Hv & H)]]].
    + pose proof (ordered_after_var_keyword _ _ _ Hk Hord) as ->.
      apply keywords_last_inv in H as [[_ ->]|[_ ->]]; [reflexivity|].
      rewrite dict_get_set. destruct (decide (n = name p)); [contradiction|reflexivity].
    + eapply IH; eassumption.
    + eapply IH; eassumption.
    + rewrite (IH _ _ _ _ _ Hord' H Hn), dict_get_set.
      destruct (decide (n = name p)); [contradiction|reflexivity].
Qed.

Lemma shaped_from_weaken R A :
  shaped_from true R A = true -> shaped_from false R A = true.
Proof.
  induction R as [|p ps IH]; [trivial|]. cbn.
  destruct (dict_get (name p) A); [|trivial].
  destruct (pkind p); cbn; try discriminate; auto.
Qed.

Lemma fresh_None p ps acc :
  fresh_for (p :: ps) acc -> dict_get (name p) acc = None.
Proof. intros H. apply dict_get_None, H. left. Qed.

(** The keyword loop produces a mapping shaped for conversion. *)
Lemma keywords_shaped R : forall top K acc A,
  ordered top R = true -> NoDup (param_names R) -> fresh_for R acc ->
  bind_keywords_rest R K acc None = Ok A ->
  shaped_from true R A = true.
Proof.
  induction R as [|p ps IH]; intros top K acc A Hord Hnd Hfresh H; [reflexivity|].
  pose proof (ordered_tail _ _ _ Hord) as Hord'.
  cbn in Hnd. apply NoDup_cons in Hnd as [Hp Hnd].
  pose proof (fresh_None _ _ _ Hfresh) as Hnone.
  cbn [shaped_from].
  apply keywords_step_inv in H
    as [(Hk & H)|[(Hk & H)|[(Hvar & Hab & Hdef & H)|(v & Hvar & Hk & Hv & H)]]].
  - pose proof (ordered_after_var_keyword _ _ _ Hk Hord) as ->.
    apply keywords_last_inv in H as [[_ ->]|[_ ->]].
    + rewrite Hnone. unfold is_variadic. rewrite Hk. reflexivity.
    + rewrite dict_get_set. destruct (decide (name p = name p)); [|congruence].
      rewrite Hk. reflexivity.
  - rewrite (keywords_frame _ _ _ _ _ _ Hord' H Hp), Hnone.
    unfold is_variadic. rewrite Hk. cbn.
    eapply IH; eauto using fresh_for_tail.
  - rewrite (keywords_frame _ _ _ _ _ _ Hord' H Hp), Hnone.
    rewrite Hdef, orb_true_r. cbn.
    eapply IH; eauto using fresh_for_tail.
  - rewrite (keywords_frame _ _ _ _ _ _ Hord' H Hp), dict_get_set.
    destruct (decide (name p = name p)); [|congruence].
    assert (shaped_from true ps A = true) as Hsh.
    { eapply IH; [exact Hord'|exact Hnd| |exact H].
      eapply fresh_for_set; eassumption. }
    unfold is_variadic in Hvar.
    destruct (pkind p); try discriminate Hvar; try congruence; exact Hsh.
Qed.

(** The dictionary the keyword loop leaves for the variable-keyword
    parameter: what no parameter took. *)
Lemma keywords_extra R : forall top K acc A q v,
  ordered top R = true -> NoDup (param_names R) -> fresh_for R acc ->
  NoDup (keys K) ->
  bind_keywords_rest R K acc None = Ok A ->
  q ∈ R -> pkind q = VAR_KEYWORD ->
  dict_get (name q) A = Some v ->
  exists d, v = VDict d /\ d <> [] /\ NoDup (keys d)
    /\ forall k, k ∈ keys d ->
         k ∈ keys K
         /\ forall r, r ∈ R -> is_variadic r = false -> name r <> k.
Proof.
  induction R as [|p ps IH]; intros top K acc A q v Hord Hnd Hfresh HK H Hq Hkq Hv;
    [inversion Hq|].
  pose proof (ordered_tail _ _ _ Hord) as Hord'.
  cbn in Hnd. apply NoDup_cons in Hnd as [Hp Hnd].
  assert (Htail : forall K' acc',
             bind_keywords_rest ps K' acc' None = Ok A ->
             fresh_for ps acc' -> NoDup (keys K') ->
             (forall k, k ∈ keys K' -> k ∈ keys K) ->
             (is_variadic p = false -> name p ∉ keys K') ->
             pkind p <> VAR_KEYWORD ->
             exists d, v = VDict d /\ d <> [] /\ NoDup (keys d)
               /\ forall k, k ∈ keys d ->
                    k ∈ keys K
                    /\ forall r, r ∈ p :: ps -> is_variadic r = false ->
                         name r <> k).
  { intros K' acc' H' Hfresh' HK' Hsub Hgone Hkp.
    apply elem_of_cons in Hq as [->|Hq]; [contradiction|].
    destruct (IH _ _ _ _ _ _ Hord' Hnd Hfresh' HK' H' Hq Hkq Hv)
      as (d & -> & Hne & Hdd & Hkeys).
    exists d. split; [reflexivity|]. split; [assumption|]. split; [assumption|].
    intros k Hk. destruct (Hkeys k Hk) as [Hin Hr]. split; [auto|].
    intros r Hrin Hvar. apply elem_of_cons in Hrin as [->|Hrin]; [|auto].
    intros E. apply (Hgone Hvar). rewrite E. exact Hin. }
  apply keywords_step_inv in H
    as [(Hk & H)|[(Hk & H)|[(Hvar & Hab & Hdef & H)|(v' & Hvar & Hk & Hv' & H)]]].
  - pose proof (ordered_after_var_keyword _ _ _ Hk Hord) as ->.
    apply list_elem_of_singleton in Hq as ->.
    apply keywords_last_inv in H as [[_ ->]|[Hne ->]].
    + rewrite (fresh_None _ _ _ Hfresh) in Hv. discriminate.
    + rewrite dict_get_set in Hv. destruct (decide (name p = name p)); [|congruence].
      injection Hv as <-. exists K. split; [reflexivity|].
      split; [assumption|]. split; [assumption|].
      intros k Hk'. split; [assumption|].
      intros r Hr Hvar. apply list_elem_of_singleton in Hr as ->.
      unfold is_variadic in Hvar. rewrite Hk in Hvar. discriminate.
  - apply (Htail K acc H); eauto using fresh_for_tail.
    + unfold is_variadic. rewrite Hk. discriminate.
    + rewrite Hk. discriminate.
  - apply (Htail K acc H); eauto using fresh_for_tail.
    unfold is_variadic in Hvar. intros E. rewrite E in Hvar. discriminate.
  - apply (Htail _ _ H).
    + eapply fresh_for_set; eassumption.
    + apply NoDup_keys_del, HK.
    + intros k. apply keys_dict_del.
    + intros _. apply dict_del_gone, HK.
    + unfold is_variadic in Hvar. intros E. rewrite E in Hvar. discriminate.
Qed.

(** The positional loop, read backwards from a success. *)
Lemma bind_from_nil_inv R K acc A :
  bind_from [] R K acc = Ok A ->
  match R with
  | [] => bind_keywords_rest [] K acc None = Ok A
  | p :: ps =>
      if decide (pkind p = VAR_POSITIONAL)
      then bind_keywords_rest ps K acc None = Ok A
      else bind_keywords_rest (p :: ps) K acc None = Ok A
  end.
Proof.
  unfold bind_from. destruct R as [|p ps]; cbn [bind_positional]; [trivial|].
  destruct (decide (pkind p = VAR_POSITIONAL)); [trivial|].
  destruct (dict_mem (name p) K).
  - destruct (decide (pkind p = POSITIONAL_ONLY)); [discriminate|trivial].
  - destruct (decide (pkind p = VAR_KEYWORD)); [trivial|].
    destruct (default p); [trivial|discriminate].
Qed.

Lemma bind_from_cons_inv x xs R K acc A :
  bind_from (x :: xs) R K acc = Ok A ->
  exists p ps, R = p :: ps
    /\ ((is_positional p = true
         /\ (pkind p = POSITIONAL_OR_KEYWORD -> dict_mem (name p) K = false)
         /\ bind_from xs ps K (dict_set (name p) x acc) = Ok A)
        \/ (pkind p = VAR_POSITIONAL
            /\ bind_keywords_rest ps K
                 (dict_set (name p) (VTuple (x :: xs)) acc) None = Ok A)).
Proof.
  unfold bind_from. destruct R as [|p ps]; cbn [bind_positional]; [discriminate|].
  intros H. exists p, ps. split; [reflexivity|].
  unfold is_positional.
  destruct (pkind p) eqn:Hk; try discriminate H.
  - rewrite bool_decide_eq_true_2, andb_false_r in H by reflexivity.
    left. split; [reflexivity|]. split; [discriminate|exact H].
  - destruct (dict_mem (name p) K); [discriminate H|].
    left. split; [reflexivity|]. split; [reflexivity|exact H].
  - right. split; [reflexivity|exact H].
Qed.

Lemma positional_not_variadic p : is_positional p = true -> is_variadic p = false.
Proof.
  unfold is_positional, is_variadic. destruct (pkind p); congruence.
Qed.

(** [bind] leaves alone every name that is not a parameter's. *)
Lemma bind_from_frame args : forall top R K acc A n,
  ordered top R = true ->
  bind_from args R K acc = Ok A ->
  n ∉ param_names R -> dict_get n A = dict_get n acc.
Proof.
  induction args as [|x xs IH]; intros top R K acc A n Hord H Hn.
  - apply bind_from_nil_inv in H. destruct R as [|p ps].
    + exact (keywords_frame _ _ _ _ _ _ Hord H Hn).
    + pose proof (ordered_tail _ _ _ Hord) as Hord'.
      destruct (decide (pkind p = VAR_POSITIONAL)).
      * apply not_in_names_cons in Hn as [Hne Hn].
        exact (keywords_frame _ _ _ _ _ _ Hord' H Hn).
      * exact (keywords_frame _ _ _ _ _ _ Hord H Hn).
  - apply bind_from_cons_inv in H as (p & ps & -> & H).
    pose proof (ordered_tail _ _ _ Hord) as Hord'.
    apply not_in_names_cons in Hn as [Hne Hn].
    destruct H as [(_ & _ & H)|(_ & H)].
    + rewrite (IH _ _ _ _ _ _ Hord' H Hn), dict_get_set.
      destruct (decide (n = name p)); [contradiction|reflexivity].
    + rewrite (keywords_frame _ _ _ _ _ _ Hord' H Hn), dict_get_set.
      destruct (decide (n = name p)); [contradiction|reflexivity].
Qed.

(** [bind] produces a mapping shaped for conversion. *)
Lemma bind_from_shaped args : forall top R K acc A,
  ordered top R = true -> NoDup (param_names R) -> fresh_for R acc ->
  bind_from args R K acc = Ok A ->
  shaped_from false R A = true.
Proof.
  induction args as [|x xs IH]; intros top R K acc A Hord Hnd Hfresh H.
  - apply bind_from_nil_inv in H. destruct R as [|p ps]; [reflexivity|].
    pose proof (ordered_tail _ _ _ Hord) as Hord'.
    destruct (decide (pkind p = VAR_POSITIONAL)) as [Hk|Hk].
    + cbn in Hnd. apply NoDup_cons in Hnd as [Hp Hnd].
      cbn [shaped_from].
      rewrite (keywords_frame _ _ _ _ _ _ Hord' H Hp), (fresh_None _ _ _ Hfresh).
      unfold is_variadic. rewrite Hk. cbn.
      eapply keywords_shaped; eauto using fresh_for_tail.
    + apply shaped_from_weaken. eapply keywords_shaped; eassumption.
  - apply bind_from_cons_inv in H as (p & ps & -> & H).
    pose proof (ordered_tail _ _ _ Hord) as Hord'.
    cbn in Hnd. apply NoDup_cons in Hnd as [Hp Hnd].
    cbn [shaped_from].
    destruct H as [(Hpos & _ & H)|(Hk & H)].
    + rewrite (bind_from_frame _ _ _ _ _ _ _ Hord' H Hp), dict_get_set.
      destruct (decide (name p = name p)); [|congruence].
      assert (shaped_from false ps A = true) as Hsh.
      { eapply IH; [exact Hord'|exact Hnd| |exact H].
        eapply fresh_for_set; eassumption. }
      unfold is_positional in Hpos.
      destruct (pkind p); try discriminate Hpos; exact Hsh.
    + rewrite (keywords_frame _ _ _ _ _ _ Hord' H Hp), dict_get_set.
      destruct (decide (name p = name p)); [|congruence].
      rewrite Hk. cbn.
      eapply keywords_shaped; [exact Hord'|exact Hnd| |exact H].
      eapply fresh_for_set; eassumption.
Qed.

(** The dictionary [bind] leaves for the variable-keyword parameter. *)
Lemma bind_from_extra args : forall top R K acc A q v,
  ordered top R = true -> NoDup (param_names R) -> fresh_for R acc ->
  NoDup (keys K) ->
  bind_from args R K acc = Ok A ->
  q ∈ R -> pkind q = VAR_KEYWORD ->
  dict_get (name q) A = Some v ->
  exists d, v = VDict d /\ d <> [] /\ NoDup (keys d)
    /\ forall k, k ∈ keys d ->
         k ∈ keys K
         /\ forall r, r ∈ R -> name r = k ->
              is_variadic r = true
              \/ (pkind r = POSITIONAL_ONLY /\ dict_mem (name r) A = true).
Proof.
  assert (Hkw : forall top R K acc A q v,
             ordered top R = true -> NoDup (param_names R) -> fresh_for R acc ->
             NoDup (keys K) ->
             bind_keywords_rest R K acc None = Ok A ->
             q ∈ R -> pkind q = VAR_KEYWORD ->
             dict_get (name q) A = Some v ->
             exists d, v = VDict d /\ d <> [] /\ NoDup (keys d)
               /\ forall k, k ∈ keys d ->
                    k ∈ keys K
                    /\ forall r, r ∈ R -> name r = k ->
                         is_variadic r = true
                         \/ (pkind r = POSITIONAL_ONLY /\ dict_mem (name r) A = true)).
  { intros top R K acc A q v Hord Hnd Hfresh HK H Hq Hkq Hv.
    destruct (keywords_extra _ _ _ _ _ _ _ Hord Hnd Hfresh HK H Hq Hkq Hv)
      as (d & -> & Hne & Hdd & Hkeys).
    exists d. split; [reflexivity|]. split; [assumption|]. split; [assumption|].
    intros k Hk. destruct (Hkeys k Hk) as [Hin Hr]. split; [assumption|].
    intros r Hrin Hname. left.
    destruct (is_variadic r) eqn:Hvar; [reflexivity|].
    exfalso. apply (Hr r Hrin Hvar Hname). }
  induction args as [|x xs IH]; intros top R K acc A q v Hord Hnd Hfresh HK H Hq Hkq Hv.
  - apply bind_from_nil_inv in H. destruct R as [|p ps]; [inversion Hq|].
    pose proof (ordered_tail _ _ _ Hord) as Hord'.
    destruct (decide (pkind p = VAR_POSITIONAL)) as [Hk|Hk]; [|eauto].
    cbn in Hnd. apply NoDup_cons in Hnd as [Hp Hnd].
    apply elem_of_cons in Hq as [->|Hq]; [congruence|].
    destruct (Hkw _ _ _ _ _ _ _ Hord' Hnd (fresh_for_tail _ _ _ Hfresh) HK H Hq Hkq Hv)
      as (d & -> & Hne & Hdd & Hkeys).
    exists d. split; [reflexivity|]. split; [assumption|]. split; [assumption|].
    intros k Hkd. destruct (Hkeys k Hkd) as [Hin Hr]. split; [assumption|].
    intros r Hrin Hname. apply elem_of_cons in Hrin as [->|Hrin]; [|auto].
    left. unfold is_variadic. rewrite Hk. reflexivity.
  - apply bind_from_cons_inv in H as (p & ps & -> & H).
    pose proof (ordered_tail _ _ _ Hord) as Hord'.
    cbn in Hnd. apply NoDup_cons in Hnd as [Hp Hnd].
    destruct H as [(Hpos & Hmem & H)|(Hk & H)].
    + apply elem_of_cons in Hq as [->|Hq].
      { unfold is_positional in Hpos. rewrite Hkq in Hpos. discriminate. }
      assert (fresh_for ps (dict_set (name p) x acc)) as Hfresh'
        by (eapply fresh_for_set; eassumption).
      destruct (IH _ _ _ _ _ _ _ Hord' Hnd Hfresh' HK H Hq Hkq Hv)
        as (d & -> & Hne & Hdd & Hkeys).
      exists d. split; [reflexivity|]. split; [assumption|]. split; [assumption|].
      intros k Hkd. destruct (Hkeys k Hkd) as [Hin Hr]. split; [assumption|].
      intros r Hrin Hname. apply elem_of_cons in Hrin as [->|Hrin]; [|auto].
      right. unfold is_positional in Hpos.
      destruct (pkind p) eqn:Hkp; try discriminate Hpos.
      * split; [reflexivity|]. unfold dict_mem.
        rewrite (bind_from_frame _ _ _ _ _ _ _ Hord' H Hp), dict_get_set.
        destruct (decide (name p = name p)); [reflexivity|congruence].
      * exfalso. specialize (Hmem eq_refl). apply dict_mem_false in Hmem.
        apply Hmem. rewrite Hname. exact Hin.
    + apply elem_of_cons in Hq as [->|Hq]; [congruence|].
      assert (fresh_for ps (dict_set (name p) (VTuple (x :: xs)) acc)) as Hfresh'
        by (eapply fresh_for_set; eassumption).
      destruct (Hkw _ _ _ _ _ _ _ Hord' Hnd Hfresh' HK H Hq Hkq Hv)
        as (d & -> & Hne & Hdd & Hkeys).
      exists d. split; [reflexivity|]. split; [assumption|]. split; [assumption|].
      intros k Hkd. destruct (Hkeys k Hkd) as [Hin Hr]. split; [assumption|].
      intros r Hrin Hname. apply elem_of_cons in Hrin as [->|Hrin]; [|auto].
      left. unfold is_variadic. rewrite Hk. reflexivity.
Qed.

Lemma fresh_for_nil R : fresh_for R [].
Proof. intros n _. apply not_elem_of_nil. Qed.

(** What [bind] returns converts back to a call. *)
Lemma bind_shaped sig args kw ba :
  wf_signature sig = true -> NoDup (keys kw) ->
  bind sig args kw = Ok ba ->
  ba_signature ba = sig /\ shaped sig (arguments ba) = true.
Proof.
  intros Hwf HK. unfold bind.
  destruct (bind_from args sig kw []) as [e|A] eqn:H; [discriminate|].
  intros [= <-]. cbn. split; [reflexivity|].
  apply wf_signature_spec in Hwf as (Hord & Hnd & _).
  unfold shaped. apply andb_true_iff. split.
  - eapply bind_from_shaped; eauto using fresh_for_nil.
  - apply extra_ok_spec. intros q d Hq Hkq Hv.
    destruct (bind_from_extra _ _ _ _ _ _ _ _ Hord Hnd (fresh_for_nil _) HK H Hq Hkq Hv)
      as (d' & [= <-] & _ & Hdd & Hkeys).
    split; [assumption|]. intros k r Hk Hr Hname.
    destruct (Hkeys k Hk) as [_ Hclean]. auto.
Qed.


(** *** Parameters the call does not supply *)

Lemma names_elem n R : n ∈ param_names R -> exists p, p ∈ R /\ name p = n.
Proof.
  unfold param_names. intros H. apply list_elem_of_fmap in H as (p & -> & Hp).
  eauto.
Qed.

Lemma elem_names p R : p ∈ R -> name p ∈ param_names R.
Proof. intros H. unfold param_names. apply list_elem_of_fmap. eauto. Qed.

Lemma same_name_head p q qs :
  NoDup (param_names (q :: qs)) -> p ∈ q :: qs -> name q = name p -> p = q.
Proof.
  cbn. rewrite NoDup_cons. intros [Hq _] Hp Hn.
  apply elem_of_cons in Hp as [->|Hp]; [reflexivity|].
  exfalso. apply Hq. rewrite Hn. apply elem_names, Hp.
Qed.

Lemma supplied_keywordable sig K p R : forall m,
  m = 0 \/ ordered 3 R = true ->
  NoDup (param_names R) -> p ∈ R -> keywordable p = true ->
  supplied_from sig R m K (name p) = false ->
  dict_mem (name p) K = false.
Proof.
  induction R as [|q qs IH]; intros m Hm Hnd Hp Hkw; [inversion Hp|].
  cbn [supplied_from].
  destruct (decide (name q = name p)) as [Hn|Hn].
  - pose proof (same_name_head _ _ _ Hnd Hp Hn) as <-.
    unfold keywordable in Hkw.
    destruct (pkind p); try discriminate Hkw; [|trivial].
    rewrite orb_false_iff. intros [_ H]. exact H.
  - apply elem_of_cons in Hp as [->|Hp]; [congruence|].
    cbn in Hnd. apply NoDup_cons in Hnd as [_ Hnd].
    apply IH; [|assumption|assumption|assumption].
    destruct Hm as [->|Hord]; [left; reflexivity|right].
    eapply ordered_weaken; [|eapply ordered_tail, Hord].
    apply (ordered_head _ _ _ Hord).
Qed.

Lemma supplied_var_keyword sig K p R : forall m,
  NoDup (param_names R) -> p ∈ R -> pkind p = VAR_KEYWORD ->
  supplied_from sig R m K (name p)
  = existsb (fun k => negb (bool_decide (k ∈ keyword_names sig))) (keys K).
Proof.
  induction R as [|q qs IH]; intros m Hnd Hp Hk; [inversion Hp|].
  cbn [supplied_from].
  destruct (decide (name q = name p)) as [Hn|Hn].
  - pose proof (same_name_head _ _ _ Hnd Hp Hn) as <-. rewrite Hk. reflexivity.
  - apply elem_of_cons in Hp as [->|Hp]; [congruence|].
    cbn in Hnd. apply NoDup_cons in Hnd as [_ Hnd]. auto.
Qed.

Lemma keywords_unsupplied R : forall top K acc A p,
  ordered top R = true -> NoDup (param_names R) -> fresh_for R acc ->
  bind_keywords_rest R K acc None = Ok A ->
  p ∈ R -> pkind p <> VAR_KEYWORD ->
  (keywordable p = true -> name p ∉ keys K) ->
  dict_get (name p) A = None.
Proof.
  induction R as [|q qs IH]; intros top K acc A p Hord Hnd Hfresh H Hp Hk Hkw;
    [inversion Hp|].
  pose proof (ordered_tail _ _ _ Hord) as Hord'.
  pose proof Hnd as Hnd0.
  cbn in Hnd. apply NoDup_cons in Hnd as [Hq Hnd].
  assert (Hhead : forall K' acc',
            bind_keywords_rest qs K' acc' None = Ok A ->
            dict_get (name q) acc' = None -> dict_get (name q) A = None).
  { intros K' acc' H' Hnone.
    rewrite (keywords_frame _ _ _ _ _ _ Hord' H' Hq). exact Hnone. }
  apply keywords_step_inv in H
    as [(Hkq & H)|[(Hkq & H)|[(Hvar & Hab & Hdef & H)|(v & Hvar & Hkq & Hv & H)]]].
  - pose proof (ordered_after_var_keyword _ _ _ Hkq Hord) as ->.
    apply list_elem_of_singleton in Hp as ->. contradiction.
  - apply elem_of_cons in Hp as [->|Hp].
    + apply (Hhead _ _ H), (fresh_None _ _ _ Hfresh).
    + exact (IH _ _ _ _ _ Hord' Hnd (fresh_for_tail _ _ _ Hfresh) H Hp Hk Hkw).
  - apply elem_of_cons in Hp as [->|Hp].
    + apply (Hhead _ _ H), (fresh_None _ _ _ Hfresh).
    + exact (IH _ _ _ _ _ Hord' Hnd (fresh_for_tail _ _ _ Hfresh) H Hp Hk Hkw).
  - apply elem_of_cons in Hp as [->|Hp].
    + exfalso. apply dict_get_Some_mem in Hv. revert Hv. apply Hkw.
      unfold keywordable. unfold is_variadic in Hvar.
      destruct (pkind q); try discriminate Hvar; congruence.
    + eapply IH; [exact Hord'|exact Hnd| |exact H|exact Hp|exact Hk|].
      * eapply fresh_for_set; eassumption.
      * intros Hkwp Hin. apply (Hkw Hkwp). eapply keys_dict_del, Hin.
Qed.

Lemma bind_from_unsupplied sig args : forall top R K acc A p,
  ordered top R = true -> NoDup (param_names R) -> fresh_for R acc ->
  bind_from args R K acc = Ok A ->
  p ∈ R -> pkind p <> VAR_KEYWORD ->
  supplied_from sig R (length args) K (name p) = false ->
  dict_get (name p) A = None.
Proof.
  induction args as [|x xs IH]; intros top R K acc A p Hord Hnd Hfresh H Hp Hk Hsup.
  - apply bind_from_nil_inv in H. destruct R as [|q qs]; [inversion Hp|].
    pose proof (ordered_tail _ _ _ Hord) as Hord'.
    assert (Hkw : keywordable p = true -> name p ∉ keys K).
    { intros Hkwp. apply dict_mem_false.
      apply (supplied_keywordable sig K p (q :: qs) 0); auto. }
    destruct (decide (pkind q = VAR_POSITIONAL)) as [Hkq|Hkq];
      [|exact (keywords_unsupplied _ _ _ _ _ _ Hord Hnd Hfresh H Hp Hk Hkw)].
    cbn in Hnd. apply NoDup_cons in Hnd as [Hq Hnd].
    apply elem_of_cons in Hp as [->|Hp].
    + rewrite (keywords_frame _ _ _ _ _ _ Hord' H Hq).
      apply (fresh_None _ _ _ Hfresh).
    + exact (keywords_unsupplied _ _ _ _ _ _ Hord' Hnd
               (fresh_for_tail _ _ _ Hfresh) H Hp Hk Hkw).
  - apply bind_from_cons_inv in H as (q & qs & -> & H).
    pose proof (ordered_tail _ _ _ Hord) as Hord'.
    pose proof Hnd as Hnd0.
    cbn in Hnd. apply NoDup_cons in Hnd as [Hq Hnd].
    cbn [supplied_from length] in Hsup.
    destruct (decide (name q = name p)) as [Hn|Hn].
    { pose proof (same_name_head _ _ _ Hnd0 Hp Hn) as <-. exfalso.
      destruct H as [(Hpos & _)|(Hkq & _)].
      - unfold is_positional in Hpos.
        destruct (pkind p); try discriminate Hpos;
          rewrite bool_decide_eq_true_2 in Hsup by lia; discriminate Hsup.
      - rewrite Hkq, bool_decide_eq_true_2 in Hsup by lia. discriminate Hsup. }
    apply elem_of_cons in Hp as [->|Hp]; [congruence|].
    cbn [Nat.pred] in Hsup.
    destruct H as [(Hpos & _ & H)|(Hkq & H)].
    + eapply IH; [exact Hord'|exact Hnd| |exact H|exact Hp|exact Hk|exact Hsup].
      eapply fresh_for_set; eassumption.
    + eapply keywords_unsupplied;
        [exact Hord'|exact Hnd| |exact H|exact Hp|exact Hk|].
      * eapply fresh_for_set; eassumption.
      * intros Hkwp. apply dict_mem_false.
        apply (supplied_keywordable sig K p qs (length xs)); auto.
        right. eapply ordered_after_var_positional; eassumption.
Qed.

Lemma keyword_names_elem sig k :
  k ∈ keyword_names sig -> exists r, r ∈ sig /\ name r = k /\ keywordable r = true.
Proof.
  unfold keyword_names. intros H. apply names_elem in H as (r & Hr & Hn).
  apply list_elem_of_filter in Hr as [Hkw Hr].
  exists r. split; [exact Hr|]. split; assumption.
Qed.

(** A parameter the call does not supply is absent from what [bind]
    returns. *)
Lemma bind_unsupplied sig args kw ba p :
  wf_signature sig = true -> NoDup (keys kw) ->
  bind sig args kw = Ok ba ->
  p ∈ sig -> supplied sig args kw (name p) = false ->
  dict_get (name p) (arguments ba) = None.
Proof.
  intros Hwf HK. unfold bind.
  destruct (bind_from args sig kw []) as [e|A] eqn:H; [discriminate|].
  intros [= <-] Hp Hsup. cbn [arguments].
  apply wf_signature_spec in Hwf as (Hord & Hnd & _). unfold supplied in Hsup.
  destruct (decide (pkind p = VAR_KEYWORD)) as [Hk|Hk];
    [|exact (bind_from_unsupplied sig _ _ _ _ _ _ _ Hord Hnd (fresh_for_nil _)
               H Hp Hk Hsup)].
  rewrite (supplied_var_keyword sig kw p sig _ Hnd Hp Hk) in Hsup.
  destruct (dict_get (name p) A) as [v|] eqn:Hv; [exfalso|reflexivity].
  destruct (bind_from_extra _ _ _ _ _ _ _ _ Hord Hnd (fresh_for_nil _) HK H Hp Hk Hv)
    as (d & -> & Hne & _ & Hkeys).
  destruct d as [|[k v] d]; [congruence|].
  destruct (Hkeys k (list_elem_of_here _ _)) as [Hin Hclean].
  rewrite <- not_true_iff_false in Hsup. apply Hsup.
  apply existsb_exists. exists k. split; [apply list_elem_of_In, Hin|].
  apply negb_true_iff, bool_decide_eq_false. intros Hkn.
  apply keyword_names_elem in Hkn as (r & Hr & Hn & Hkw).
  unfold keywordable in Hkw.
  destruct (Hclean r Hr Hn) as [Hvar|[Hpo _]].
  - unfold is_variadic in Hvar. destruct (pkind r); discriminate.
  - rewrite Hpo in Hkw. discriminate.
Qed.

(** After [apply_defaults], every parameter holds its effective value. *)
Lemma keys_effective_list X k (l : list Param) :
  k ∈ keys (omap (fun q => pair (name q) <$> effective q X) l) ->
  k ∈ param_names l.
Proof.
  induction l as [|r l IHl]; cbn; [trivial|].
  destruct (effective r X); cbn; rewrite ?elem_of_cons; intuition.
Qed.

Lemma effective_list_cons X q qs :
  omap (fun q => pair (name q) <$> effective q X) (q :: qs)
  = match effective q X with
    | Some v => (name q, v) :: omap (fun q => pair (name q) <$> effective q X) qs
    | None => omap (fun q => pair (name q) <$> effective q X) qs
    end.
Proof. cbn. destruct (effective q X); reflexivity. Qed.

Lemma dict_get_effective_list R X p :
  NoDup (param_names R) -> p ∈ R ->
  dict_get (name p) (omap (fun q => pair (name q) <$> effective q X) R)
  = effective p X.
Proof.
  induction R as [|q qs IH]; intros Hnd Hp; [inversion Hp|].
  cbn in Hnd. apply NoDup_cons in Hnd as [Hq Hnd].
  rewrite effective_list_cons.
  apply elem_of_cons in Hp as [->|Hp].
  - destruct (effective q X) as [v|]; [|].
    + cbn [dict_get]. destruct (decide (name q = name q)); [reflexivity|congruence].
    + apply dict_get_None. intros Hin. apply Hq, (keys_effective_list X), Hin.
  - assert (name p <> name q) as Hne.
    { intros E. apply Hq. rewrite <- E. apply elem_names, Hp. }
    destruct (effective q X) as [v|]; [|auto].
    cbn [dict_get]. destruct (decide (name p = name q)); [contradiction|auto].
Qed.

Lemma NoDup_keys_effective_list R X :
  NoDup (param_names R) ->
  NoDup (keys (omap (fun q => pair (name q) <$> effective q X) R)).
Proof.
  induction R as [|q qs IH]; [intros _; constructor|].
  cbn [param_names map]. rewrite NoDup_cons. intros [Hq Hnd].
  rewrite effective_list_cons.
  destruct (effective q X); [|auto].
  cbn [keys map fst]. apply NoDup_cons. split; [|apply IH, Hnd].
  intros Hin. apply Hq, (keys_effective_list X), Hin.
Qed.

Lemma apply_defaults_lookup ba p :
  NoDup (param_names (ba_signature ba)) -> p ∈ ba_signature ba ->
  dict_get (name p) (arguments (apply_defaults ba)) = effective p (arguments ba).
Proof.
  intros Hnd Hp. unfold apply_defaults. cbn [arguments].
  rewrite defaults_loop_effective.
  rewrite dict_update_fresh;
    [|apply NoDup_keys_effective_list, Hnd|intros k _; apply not_elem_of_nil].
  cbn [app]. apply dict_get_effective_list; assumption.
Qed.

(** *** C7: the defaults and the first callback *)

Lemma trace_mbind_prefix {S A B} (m : M S A) (k : A -> M S B) s :
  exists tr', trace_of (mbind' m k s) = trace_of (m s) ++ tr'.
Proof.
  unfold mbind'. destruct (m s) as [[tr s'] [e|a]]; cbn.
  - exists []. rewrite app_nil_r. reflexivity.
  - destruct (k a s') as [[tr' s''] r]. cbn. eauto.
Qed.

Section FirstCallback.
Context {U : Type} (prog : Program U).

Lemma first_callback_event cb rest ba (u : U) :
  exists tr, trace_of (run_callbacks prog (cb :: rest) ba u)
             = EvCallback cb (ArgBoundArguments ba) :: tr.
Proof.
  rewrite run_callbacks_step. cbn zeta.
  destruct (call_callback_trace prog cb (ArgBoundArguments ba) u) as (tr & Htr & _).
  destruct (outcome_of (call_callback prog cb _ u));
    cbn [trace_of fst]; rewrite Htr; eexists; reflexivity.
Qed.

Lemma class_first_callback_event cb rest ba self (u : U) :
  exists tr, trace_of (SignatureDecorator.run_callbacks prog (cb :: rest) ba (self, u))
             = EvCallback cb (class_arg self ba) :: tr.
Proof.
  rewrite class_run_callbacks_step. cbn zeta.
  destruct (call_callback_trace prog cb (class_arg self ba) u) as (tr & Htr & _).
  destruct (outcome_of (call_callback prog cb _ u));
    cbn [trace_of fst]; rewrite Htr; eexists; reflexivity.
Qed.

Lemma class_arg_reaches ba self :
  reachable_ba (class_arg (SignatureDecorator.set_boundarguments ba self) ba) = Some ba.
Proof. unfold class_arg. cbn. destruct (_apply_self self); reflexivity. Qed.

(** C7.  For a call that matches the signature, the first callback is
    called with bound arguments in which,
    - when the flag is on, every parameter that declares a default and that
      the call does not supply holds that default;
    - when the flag is off, every parameter the call does not supply is
      absent.
    First for the function-based factory (flag on, then off), then for an
    instance of the class bound to the function. *)
Theorem defaults_before_first_callback func args kw ba cb rest (u : U) :
  wf_signature (signature func) = true ->
  NoDup (keys kw) ->
  bind (signature func) args kw = Ok ba ->
  (exists ba1 tr,
      trace_of (signature_decorator_factory prog (cb :: rest) true func args kw u)
      = EvCallback cb (ArgBoundArguments ba1) :: tr
      /\ forall p d, p ∈ signature func -> default p = Some d ->
           supplied (signature func) args kw (name p) = false ->
           dict_get (name p) (arguments ba1) = Some d)
  /\ (exists tr,
      trace_of (signature_decorator_factory prog (cb :: rest) false func args kw u)
      = EvCallback cb (ArgBoundArguments ba) :: tr
      /\ forall p, p ∈ signature func ->
           supplied (signature func) args kw (name p) = false ->
           dict_get (name p) (arguments ba) = None)
  /\ (forall self,
      bound_to self func -> _callbacks self = cb :: rest ->
      exists arg ba1 tr,
        trace_of (SignatureDecorator.inner prog func args kw (self, u))
        = EvCallback cb arg :: tr
        /\ reachable_ba arg = Some ba1
        /\ (_apply_defaults self = true ->
            forall p d, p ∈ signature func -> default p = Some d ->
              supplied (signature func) args kw (name p) = false ->
              dict_get (name p) (arguments ba1) = Some d)
        /\ (_apply_defaults self = false ->
            forall p, p ∈ signature func ->
              supplied (signature func) args kw (name p) = false ->
              dict_get (name p) (arguments ba1) = None)).
Proof.
  intros Hwf HK Hb.
  destruct (bind_shaped _ _ _ _ Hwf HK Hb) as [Hsig _].
  pose proof (wf_signature_spec _ Hwf) as (_ & Hnd & _).
  assert (Hoff : forall p, p ∈ signature func ->
            supplied (signature func) args kw (name p) = false ->
            dict_get (name p) (arguments ba) = None).
  { intros p Hp Hsup. eapply bind_unsupplied; eassumption. }
  assert (Hon : forall p d, p ∈ signature func -> default p = Some d ->
            supplied (signature func) args kw (name p) = false ->
            dict_get (name p) (arguments (apply_defaults ba)) = Some d).
  { intros p d Hp Hd Hsup.
    rewrite apply_defaults_lookup by (rewrite Hsig; assumption).
    unfold effective. rewrite (Hoff p Hp Hsup), Hd. reflexivity. }
  split; [|split].
  - rewrite (factory_inner_unfold prog _ _ _ _ _ ba u Hb).
    destruct (trace_mbind_prefix
                (run_callbacks prog (cb :: rest) (apply_defaults ba))
                (invoke prog func) u) as [tr' ->].
    destruct (first_callback_event cb rest (apply_defaults ba) u) as [tr ->].
    exists (apply_defaults ba), (tr ++ tr'). split; [reflexivity|exact Hon].
  - rewrite (factory_inner_unfold prog _ _ _ _ _ ba u Hb).
    destruct (trace_mbind_prefix (run_callbacks prog (cb :: rest) ba)
                (invoke prog func) u) as [tr' ->].
    destruct (first_callback_event cb rest ba u) as [tr ->].
    exists (tr ++ tr'). split; [reflexivity|exact Hoff].
  - intros self [_ Hs] Hcbs.
    rewrite (class_inner_unfold prog self func _ args kw ba u Hs Hb).
    cbn zeta. rewrite Hcbs.
    set (ba1 := if _apply_defaults self then apply_defaults ba else ba).
    destruct (trace_mbind_prefix
                (SignatureDecorator.run_callbacks prog (cb :: rest) ba1)
                (fun ba' => outside (invoke prog func ba'))
                (SignatureDecorator.set_boundarguments ba1 self, u)) as [tr' ->].
    destruct (class_first_callback_event cb rest ba1
                (SignatureDecorator.set_boundarguments ba1 self) u) as [tr ->].
    exists (class_arg (SignatureDecorator.set_boundarguments ba1 self) ba1), ba1,
           (tr ++ tr').
    split; [reflexivity|]. split; [apply class_arg_reaches|].
    subst ba1. split; intros Hflag; rewrite Hflag; assumption.
Qed.

End FirstCallback.

(** *** Parameters the call supplies *)

Lemma keys_dict_del_ne {V} (d : dict V) k n :
  k ∈ keys d -> k <> n -> k ∈ keys (dict_del n d).
Proof.
  intros Hin Hne. apply dict_mem_true. apply dict_mem_true in Hin.
  unfold dict_mem in *. rewrite dict_get_del_ne by exact Hne. exact Hin.
Qed.

Lemma keywordable_not_variadic p : keywordable p = true -> is_variadic p = false.
Proof. unfold keywordable, is_variadic. destruct (pkind p); congruence. Qed.

Lemma plain_keywordable p :
  is_variadic p = false -> pkind p <> POSITIONAL_ONLY -> keywordable p = true.
Proof. unfold keywordable, is_variadic. destruct (pkind p); congruence. Qed.

Lemma supplied_by_keyword sig K p R : forall m,
  m = 0 \/ ordered 3 R = true ->
  NoDup (param_names R) -> p ∈ R -> pkind p <> VAR_KEYWORD ->
  supplied_from sig R m K (name p) = true ->
  keywordable p = true /\ dict_mem (name p) K = true.
Proof.
  induction R as [|q qs IH]; intros m Hm Hnd Hp Hk; [inversion Hp|].
  cbn [supplied_from].
  destruct (decide (name q = name p)) as [Hn|Hn].
  - pose proof (same_name_head _ _ _ Hnd Hp Hn) as <-.
    unfold keywordable.
    destruct Hm as [->|Hord].
    + destruct (pkind p); try congruence; cbn; auto; discriminate.
    + destruct (high_rank_kind 3 p qs (le_n _) Hord) as [E|E]; rewrite E in *;
        [auto|congruence].
  - apply elem_of_cons in Hp as [->|Hp]; [congruence|].
    cbn in Hnd. apply NoDup_cons in Hnd as [_ Hnd].
    apply IH; [|assumption|assumption|assumption].
    destruct Hm as [->|Hord]; [left; reflexivity|right].
    eapply ordered_weaken; [|eapply ordered_tail, Hord].
    apply (ordered_head _ _ _ Hord).
Qed.

Lemma keywords_supplied R : forall top K acc A p,
  ordered top R = true -> NoDup (param_names R) ->
  bind_keywords_rest R K acc None = Ok A ->
  p ∈ R -> keywordable p = true -> name p ∈ keys K ->
  dict_mem (name p) A = true.
Proof.
  induction R as [|q qs IH]; intros top K acc A p Hord Hnd H Hp Hkw Hin;
    [inversion Hp|].
  pose proof (ordered_tail _ _ _ Hord) as Hord'.
  cbn in Hnd. apply NoDup_cons in Hnd as [Hq Hnd].
  pose proof (keywordable_not_variadic _ Hkw) as Hvarp.
  apply keywords_step_inv in H
    as [(Hkq & H)|[(Hkq & H)|[(Hvar & Hab & Hdef & H)|(v & Hvar & Hkq & Hv & H)]]].
  - pose proof (ordered_after_var_keyword _ _ _ Hkq Hord) as ->.
    apply list_elem_of_singleton in Hp as ->.
    unfold keywordable in Hkw. rewrite Hkq in Hkw. discriminate.
  - apply elem_of_cons in Hp as [->|Hp].
    + unfold keywordable in Hkw. rewrite Hkq in Hkw. discriminate.
    + exact (IH _ _ _ _ _ Hord' Hnd H Hp Hkw Hin).
  - apply elem_of_cons in Hp as [->|Hp]; [contradiction|].
    exact (IH _ _ _ _ _ Hord' Hnd H Hp Hkw Hin).
  - apply elem_of_cons in Hp as [->|Hp].
    + unfold dict_mem. rewrite (keywords_frame _ _ _ _ _ _ Hord' H Hq), dict_get_set.
      destruct (decide (name q = name q)); [reflexivity|congruence].
    + apply (IH _ _ _ _ _ Hord' Hnd H Hp Hkw).
      apply keys_dict_del_ne; [exact Hin|].
      intros E. apply Hq. rewrite <- E. apply elem_names, Hp.
Qed.

Lemma keywords_leftover R : forall top K acc A q k,
  ordered top R = true ->
  bind_keywords_rest R K acc None = Ok A ->
  q ∈ R -> pkind q = VAR_KEYWORD -> k ∈ keys K ->
  (forall r, r ∈ R -> keywordable r = true -> name r <> k) ->
  dict_mem (name q) A = true.
Proof.
  induction R as [|h hs IH]; intros top K acc A q k Hord H Hq Hkq Hin Hfree;
    [inversion Hq|].
  pose proof (ordered_tail _ _ _ Hord) as Hord'.
  assert (Htail : forall r, r ∈ hs -> keywordable r = true -> name r <> k).
  { intros r Hr. apply Hfree. right. exact Hr. }
  apply keywords_step_inv in H
    as [(Hkh & H)|[(Hkh & H)|[(Hvar & Hab & Hdef & H)|(v & Hvar & Hkh & Hv & H)]]].
  - pose proof (ordered_after_var_keyword _ _ _ Hkh Hord) as ->.
    apply list_elem_of_singleton in Hq as ->.
    apply keywords_last_inv in H as [[-> _]|[_ ->]]; [inversion Hin|].
    unfold dict_mem. rewrite dict_get_set.
    destruct (decide (name h = name h)); [reflexivity|congruence].
  - apply elem_of_cons in Hq as [->|Hq]; [congruence|].
    exact (IH _ _ _ _ _ _ Hord' H Hq Hkq Hin Htail).
  - apply elem_of_cons in Hq as [->|Hq].
    { unfold is_variadic in Hvar. rewrite Hkq in Hvar. discriminate. }
    exact (IH _ _ _ _ _ _ Hord' H Hq Hkq Hin Htail).
  - apply elem_of_cons in Hq as [->|Hq].
    { unfold is_variadic in Hvar. rewrite Hkq in Hvar. discriminate. }
    apply (IH _ _ _ _ _ k Hord' H Hq Hkq); [|exact Htail].
    apply keys_dict_del_ne; [exact Hin|].
    intros E. apply (Hfree h (list_elem_of_here _ _)); [|symmetry; exact E].
    apply plain_keywordable; assumption.
Qed.

Lemma bind_from_supplied sig args : forall top R K acc A p,
  ordered top R = true -> NoDup (param_names R) ->
  bind_from args R K acc = Ok A ->
  p ∈ R -> pkind p <> VAR_KEYWORD ->
  supplied_from sig R (length args) K (name p) = true ->
  dict_mem (name p) A = true.
Proof.
  induction args as [|x xs IH]; intros top R K acc A p Hord Hnd H Hp Hk Hsup.
  - apply bind_from_nil_inv in H. destruct R as [|q qs]; [inversion Hp|].
    pose proof (ordered_tail _ _ _ Hord) as Hord'.
    destruct (supplied_by_keyword sig K p (q :: qs) 0 (or_introl eq_refl)
                Hnd Hp Hk Hsup) as [Hkw Hmem].
    apply dict_mem_true in Hmem.
    destruct (decide (pkind q = VAR_POSITIONAL)) as [Hkq|Hkq];
      [|exact (keywords_supplied _ _ _ _ _ _ Hord Hnd H Hp Hkw Hmem)].
    cbn in Hnd. apply NoDup_cons in Hnd as [Hq Hnd].
    apply elem_of_cons in Hp as [->|Hp].
    + unfold keywordable in Hkw. rewrite Hkq in Hkw. discriminate.
    + exact (keywords_supplied _ _ _ _ _ _ Hord' Hnd H Hp Hkw Hmem).
  - apply bind_from_cons_inv in H as (q & qs & -> & H).
    pose proof (ordered_tail _ _ _ Hord) as Hord'.
    pose proof Hnd as Hnd0.
    cbn in Hnd. apply NoDup_cons in Hnd as [Hq Hnd].
    cbn [supplied_from length Nat.pred] in Hsup.
    destruct (decide (name q = name p)) as [Hn|Hn].
    { pose proof (same_name_head _ _ _ Hnd0 Hp Hn) as <-.
      unfold dict_mem.
      destruct H as [(_ & _ & H)|(_ & H)].
      - rewrite (bind_from_frame _ _ _ _ _ _ _ Hord' H Hq), dict_get_set.
        destruct (decide (name p = name p)); [reflexivity|congruence].
      - rewrite (keywords_frame _ _ _ _ _ _ Hord' H Hq), dict_get_set.
        destruct (decide (name p = name p)); [reflexivity|congruence]. }
    apply elem_of_cons in Hp as [->|Hp]; [congruence|].
    destruct H as [(_ & _ & H)|(Hkq & H)].
    + exact (IH _ _ _ _ _ _ Hord' Hnd H Hp Hk Hsup).
    + pose proof (ordered_after_var_positional _ _ _ Hkq Hord) as Hord3.
      destruct (supplied_by_keyword sig K p qs (length xs) (or_intror Hord3)
                  Hnd Hp Hk Hsup) as [Hkw Hmem].
      apply dict_mem_true in Hmem.
      exact (keywords_supplied _ _ _ _ _ _ Hord' Hnd H Hp Hkw Hmem).
Qed.

Lemma bind_from_leftover args : forall top R K acc A q k,
  ordered top R = true ->
  bind_from args R K acc = Ok A ->
  q ∈ R -> pkind q = VAR_KEYWORD -> k ∈ keys K ->
  (forall r, r ∈ R -> keywordable r = true -> name r <> k) ->
  dict_mem (name q) A = true.
Proof.
  induction args as [|x xs IH]; intros top R K acc A q k Hord H Hq Hkq Hin Hfree.
  - apply bind_from_nil_inv in H. destruct R as [|h hs]; [inversion Hq|].
    pose proof (ordered_tail _ _ _ Hord) as Hord'.
    destruct (decide (pkind h = VAR_POSITIONAL)) as [Hkh|Hkh];
      [|exact (keywords_leftover _ _ _ _ _ _ _ Hord H Hq Hkq Hin Hfree)].
    apply elem_of_cons in Hq as [->|Hq]; [congruence|].
    apply (keywords_leftover _ _ _ _ _ _ _ Hord' H Hq Hkq Hin).
    intros r Hr. apply Hfree. right. exact Hr.
  - apply bind_from_cons_inv in H as (h & hs & -> & H).
    pose proof (ordered_tail _ _ _ Hord) as Hord'.
    assert (Htail : forall r, r ∈ hs -> keywordable r = true -> name r <> k).
    { intros r Hr. apply Hfree. right. exact Hr. }
    destruct H as [(Hpos & _ & H)|(Hkh & H)].
    + apply elem_of_cons in Hq as [->|Hq].
      { unfold is_positional in Hpos. rewrite Hkq in Hpos. discriminate. }
      exact (IH _ _ _ _ _ _ _ Hord' H Hq Hkq Hin Htail).
    + apply elem_of_cons in Hq as [->|Hq]; [congruence|].
      exact (keywords_leftover _ _ _ _ _ _ _ Hord' H Hq Hkq Hin Htail).
Qed.

Lemma keyword_names_intro sig r :
  r ∈ sig -> keywordable r = true -> name r ∈ keyword_names sig.
Proof.
  intros Hr Hkw. unfold keyword_names. apply elem_names.
  apply list_elem_of_filter. split; assumption.
Qed.

(** A parameter the call supplies is present in what [bind] returns. *)
Lemma bind_supplied sig args kw ba p :
  wf_signature sig = true ->
  bind sig args kw = Ok ba ->
  p ∈ sig -> supplied sig args kw (name p) = true ->
  dict_mem (name p) (arguments ba) = true.
Proof.
  intros Hwf. unfold bind.
  destruct (bind_from args sig kw []) as [e|A] eqn:H; [discriminate|].
  intros [= <-] Hp Hsup. cbn [arguments].
  apply wf_signature_spec in Hwf as (Hord & Hnd & _). unfold supplied in Hsup.
  destruct (decide (pkind p = VAR_KEYWORD)) as [Hk|Hk];
    [|exact (bind_from_supplied sig _ _ _ _ _ _ _ Hord Hnd H Hp Hk Hsup)].
  rewrite (supplied_var_keyword sig kw p sig _ Hnd Hp Hk) in Hsup.
  apply existsb_exists in Hsup as (k & Hin & Hnot).
  apply list_elem_of_In in Hin.
  apply negb_true_iff, bool_decide_eq_false in Hnot.
  apply (bind_from_leftover _ _ _ _ _ _ _ k Hord H Hp Hk Hin).
  intros r Hr Hkw E. apply Hnot. rewrite <- E.
  apply keyword_names_intro; assumption.
Qed.

(** For a call that matches the signature, a parameter is in the bound
    arguments exactly when the call supplies it. *)
Lemma bind_present_iff_supplied sig args kw ba p :
  wf_signature sig = true -> NoDup (keys kw) ->
  bind sig args kw = Ok ba -> p ∈ sig ->
  dict_mem (name p) (arguments ba) = supplied sig args kw (name p).
Proof.
  intros Hwf HK Hb Hp.
  destruct (supplied sig args kw (name p)) eqn:Hsup.
  - eapply bind_supplied; eassumption.
  - unfold dict_mem. rewrite (bind_unsupplied _ _ _ _ _ Hwf HK Hb Hp Hsup).
    reflexivity.
Qed.

(** *** Dynamic defaults: the update loop *)

(** *** The binder against the interpreter *)

Lemma ordered_bound R p : forall t,
  ordered t R = true -> p ∈ R -> t <= kind_rank (pkind p).
Proof.
  induction R as [|r R IH]; intros t Hord Hp; [inversion Hp|].
  apply ordered_cons in Hord as [Hh Hord].
  apply elem_of_cons in Hp as [->|Hp]; [exact Hh|].
  specialize (IH _ Hord Hp). destruct (is_variadic r); lia.
Qed.

Lemma dict_mem_set_ne n k v (a : Arguments) :
  n <> k -> dict_mem n (dict_set k v a) = dict_mem n a.
Proof.
  intros Hne. unfold dict_mem. rewrite dict_get_set.
  destruct (decide (n = k)); [contradiction|reflexivity].
Qed.

Lemma keyword_names_cons p ps :
  keyword_names (p :: ps)
  = if keywordable p then name p :: keyword_names ps else keyword_names ps.
Proof.
  unfold keyword_names.
  destruct (keywordable p) eqn:E.
  - change (filter (fun q => keywordable q = true) (p :: ps))
      with (filter (fun q => keywordable q = true) ((p :: ps) : list Param)).
    rewrite (filter_cons_True (fun q => keywordable q = true) p ps E). reflexivity.
  - assert (Hn : ~ keywordable p = true) by congruence.
    change (filter (fun q => keywordable q = true) (p :: ps))
      with (filter (fun q => keywordable q = true) ((p :: ps) : list Param)).
    rewrite (filter_cons_False (fun q => keywordable q = true) p ps Hn). reflexivity.
Qed.

Lemma unmatched_cons L k v K :
  unmatched L ((k, v) :: K)
  = if decide (k ∈ L) then unmatched L K else (k, v) :: unmatched L K.
Proof.
  unfold unmatched. rewrite filter_cons. cbn [fst].
  destruct (decide (k ∈ L)); destruct (decide (k ∉ L)); try contradiction;
    reflexivity.
Qed.

Lemma unmatched_none K : unmatched [] K = K.
Proof.
  induction K as [|[k v] K IH]; [reflexivity|].
  rewrite unmatched_cons, IH.
  destruct (decide (k ∈ [])) as [H|_]; [inversion H|reflexivity].
Qed.

Lemma unmatched_cons_absent k L K :
  k ∉ keys K -> unmatched (k :: L) K = unmatched L K.
Proof.
  induction K as [|[k0 v0] K IH]; intros Hk; [reflexivity|].
  cbn in Hk. apply not_elem_of_cons in Hk as [Hne Hk].
  rewrite !unmatched_cons, (IH Hk).
  destruct (decide (k0 ∈ k :: L)) as [Hin|Hout];
    destruct (decide (k0 ∈ L)) as [Hin'|Hout']; try reflexivity.
  - apply elem_of_cons in Hin as [->|Hin]; [congruence|contradiction].
  - exfalso. apply Hout. right. exact Hin'.
Qed.

Lemma unmatched_del k L K :
  NoDup (keys K) -> unmatched (k :: L) K = unmatched L (dict_del k K).
Proof.
  induction K as [|[k0 v0] K IH]; intros Hnd; [reflexivity|].
  cbn in Hnd. apply NoDup_cons in Hnd as [Hk0 Hnd].
  cbn [dict_del]. destruct (decide (k = k0)) as [->|Hne].
  - rewrite unmatched_cons.
    destruct (decide (k0 ∈ k0 :: L)) as [_|Hout]; [|exfalso; apply Hout; left].
    apply unmatched_cons_absent, Hk0.
  - rewrite !unmatched_cons, (IH Hnd).
    destruct (decide (k0 ∈ k :: L)) as [Hin|Hout];
      destruct (decide (k0 ∈ L)) as [Hin'|Hout']; try reflexivity.
    + apply elem_of_cons in Hin as [->|Hin]; [congruence|contradiction].
    + exfalso. apply Hout. right. exact Hin'.
Qed.

Lemma has_kind_cons k p ps :
  has_kind k (p :: ps) = bool_decide (pkind p = k) || has_kind k ps.
Proof. reflexivity. Qed.

Lemma has_kind_head k p ps : pkind p = k -> has_kind k (p :: ps) = true.
Proof.
  intros H. rewrite has_kind_cons, bool_decide_eq_true_2 by exact H. reflexivity.
Qed.

Lemma has_kind_tail k p ps : has_kind k ps = true -> has_kind k (p :: ps) = true.
Proof. intros H. rewrite has_kind_cons, H. apply orb_true_r. Qed.

(** The keyword loop of the binder, value by value. *)
Lemma keywords_values R : forall top K acc A,
  ordered top R = true -> NoDup (param_names R) -> fresh_for R acc ->
  NoDup (keys K) ->
  bind_keywords_rest R K acc None = Ok A ->
  let X := unmatched (keyword_names R) K in
  (forall q, q ∈ R -> is_variadic q = false ->
     dict_get (name q) A = if keywordable q then dict_get (name q) K else None)
  /\ (forall q, q ∈ R -> pkind q = VAR_POSITIONAL -> dict_get (name q) A = None)
  /\ (forall q, q ∈ R -> pkind q = VAR_KEYWORD ->
        dict_get (name q) A = if is_nil X then None else Some (VDict X))
  /\ (is_nil X = false -> has_kind VAR_KEYWORD R = true).
Proof.
  induction R as [|p ps IH]; intros top K acc A Hord Hnd Hfresh HK H X.
  - apply keywords_none_inv in H as [-> ->]. subst X.
    repeat split; try (intros q Hq; inversion Hq). discriminate.
  - pose proof (ordered_tail _ _ _ Hord) as Hord'.
    pose proof Hnd as Hnd0.
    cbn in Hnd. apply NoDup_cons in Hnd as [Hp Hnd].
    pose proof (fresh_None _ _ _ Hfresh) as Hnone.
    subst X. rewrite keyword_names_cons.
    apply keywords_step_inv in H
      as [(Hk & H)|[(Hk & H)|[(Hvar & Hab & Hdef & H)|(v & Hvar & Hk & Hv & H)]]].
    + (* the variable-keyword parameter *)
      pose proof (ordered_after_var_keyword _ _ _ Hk Hord) as ->.
      assert (keywordable p = false) as -> by (unfold keywordable; rewrite Hk; reflexivity).
      change (keyword_names []) with (@nil string). rewrite unmatched_none.
      assert (Hq : forall q, q ∈ [p] -> q = p)
        by (intros q Hq; apply list_elem_of_singleton in Hq; exact Hq).
      apply keywords_last_inv in H as [[-> ->]|[HK0 ->]].
      * split; [|split; [|split]].
        -- intros q Hq0 Hv. rewrite (Hq q Hq0) in *. unfold is_variadic in Hv.
           rewrite Hk in Hv. discriminate.
        -- intros q Hq0 Hkq. rewrite (Hq q Hq0) in *. congruence.
        -- intros q Hq0 _. rewrite (Hq q Hq0). exact Hnone.
        -- discriminate.
      * split; [|split; [|split]].
        -- intros q Hq0 Hv. rewrite (Hq q Hq0) in *. unfold is_variadic in Hv.
           rewrite Hk in Hv. discriminate.
        -- intros q Hq0 Hkq. rewrite (Hq q Hq0) in *. congruence.
        -- intros q Hq0 _. rewrite (Hq q Hq0), dict_get_set.
           destruct (decide (name p = name p)); [|congruence].
           destruct K; [congruence|reflexivity].
        -- intros _. apply has_kind_head, Hk.
    + (* the variable-positional parameter, left alone *)
      assert (keywordable p = false) as -> by (unfold keywordable; rewrite Hk; reflexivity).
      destruct (IH _ _ _ _ Hord' Hnd (fresh_for_tail _ _ _ Hfresh) HK H)
        as (I1 & I2 & I3 & I4).
      assert (Hown : dict_get (name p) A = None)
        by (rewrite (keywords_frame _ _ _ _ _ _ Hord' H Hp); exact Hnone).
      split; [|split; [|split]].
      * intros q Hq Hv. apply elem_of_cons in Hq as [->|Hq]; [|auto].
        unfold is_variadic in Hv. rewrite Hk in Hv. discriminate.
      * intros q Hq Hkq. apply elem_of_cons in Hq as [->|Hq]; auto.
      * intros q Hq Hkq. apply elem_of_cons in Hq as [->|Hq]; [congruence|auto].
      * intros HX. apply has_kind_tail, I4, HX.
    + (* a parameter no keyword names *)
      destruct (IH _ _ _ _ Hord' Hnd (fresh_for_tail _ _ _ Hfresh) HK H)
        as (I1 & I2 & I3 & I4).
      assert (Hown : dict_get (name p) A = None)
        by (rewrite (keywords_frame _ _ _ _ _ _ Hord' H Hp); exact Hnone).
      assert (HX : unmatched (if keywordable p then name p :: keyword_names ps
                              else keyword_names ps) K
                   = unmatched (keyword_names ps) K).
      { destruct (keywordable p); [|reflexivity].
        apply unmatched_cons_absent, Hab. }
      rewrite HX.
      split; [|split; [|split]].
      * intros q Hq Hv. apply elem_of_cons in Hq as [->|Hq]; [|auto].
        rewrite Hown. apply dict_get_None in Hab. rewrite Hab.
        destruct (keywordable p); reflexivity.
      * intros q Hq Hkq. apply elem_of_cons in Hq as [->|Hq]; auto.
      * intros q Hq Hkq. apply elem_of_cons in Hq as [->|Hq]; [|auto].
        unfold is_variadic in Hvar. rewrite Hkq in Hvar. discriminate.
      * intros HX'. apply has_kind_tail, I4, HX'.
    + (* a parameter a keyword names *)
      pose proof (plain_keywordable _ Hvar Hk) as Hkw. rewrite Hkw.
      assert (Hfresh' : fresh_for ps (dict_set (name p) v acc))
        by (eapply fresh_for_set; eassumption).
      destruct (IH _ _ _ _ Hord' Hnd Hfresh' (NoDup_keys_del _ _ HK) H)
        as (I1 & I2 & I3 & I4).
      assert (Hown : dict_get (name p) A = Some v).
      { rewrite (keywords_frame _ _ _ _ _ _ Hord' H Hp), dict_get_set.
        destruct (decide (name p = name p)); [reflexivity|congruence]. }
      rewrite (unmatched_del _ _ _ HK).
      split; [|split; [|split]].
      * intros q Hq Hv0. apply elem_of_cons in Hq as [->|Hq].
        -- rewrite Hown, Hkw, Hv. reflexivity.
        -- rewrite (I1 q Hq Hv0).
           destruct (keywordable q); [|reflexivity].
           apply dict_get_del_ne. intros E. apply Hp. rewrite <- E.
           apply elem_names, Hq.
      * intros q Hq Hkq. apply elem_of_cons in Hq as [->|Hq]; [|auto].
        unfold is_variadic in Hvar. rewrite Hkq in Hvar. discriminate.
      * intros q Hq Hkq. apply elem_of_cons in Hq as [->|Hq]; [|auto].
        unfold is_variadic in Hvar. rewrite Hkq in Hvar. discriminate.
      * intros HX'. apply has_kind_tail, I4, HX'.
Qed.

Lemma place_positional_nil R acc : place_positional R [] acc = (acc, []).
Proof. destruct R; reflexivity. Qed.

Lemma place_positional_frame R : forall args acc n,
  n ∉ param_names R ->
  dict_get n (place_positional R args acc).1 = dict_get n acc.
Proof.
  induction R as [|p ps IH]; intros args acc n Hn; [reflexivity|].
  apply not_in_names_cons in Hn as [Hne Hn].
  destruct args as [|x xs]; [reflexivity|]. cbn [place_positional].
  destruct (is_positional p); [|reflexivity].
  rewrite (IH _ _ _ Hn), dict_get_set.
  destruct (decide (n = name p)); [contradiction|reflexivity].
Qed.

(** The whole binder, value by value, against the slots the interpreter
    fills from the positional arguments. *)
Lemma bind_from_values args : forall top R K acc A,
  ordered top R = true -> NoDup (param_names R) -> fresh_for R acc ->
  NoDup (keys K) ->
  bind_from args R K acc = Ok A ->
  let slots := (place_positional R args acc).1 in
  let more := (place_positional R args acc).2 in
  let X := unmatched (keyword_names R) K in
  (forall q, q ∈ R -> is_variadic q = false ->
     dict_get (name q) A
     = match dict_get (name q) slots with
       | Some v => Some v
       | None => if keywordable q then dict_get (name q) K else None
       end)
  /\ (forall q, q ∈ R -> keywordable q = true ->
        dict_mem (name q) slots = true -> name q ∉ keys K)
  /\ (forall q, q ∈ R -> pkind q = VAR_POSITIONAL ->
        dict_get (name q) A = if is_nil more then None else Some (VTuple more))
  /\ (is_nil more = false -> has_kind VAR_POSITIONAL R = true)
  /\ (forall q, q ∈ R -> pkind q = VAR_KEYWORD ->
        dict_get (name q) A = if is_nil X then None else Some (VDict X))
  /\ (is_nil X = false -> has_kind VAR_KEYWORD R = true).
Proof.
  induction args as [|x xs IH]; intros top R K acc A Hord Hnd Hfresh HK H.
  - (* no positional argument left: the keyword loop does it all *)
    rewrite place_positional_nil. cbn [fst snd is_nil].
    assert (Hkw : bind_keywords_rest R K acc None = Ok A).
    { apply bind_from_nil_inv in H. destruct R as [|p ps]; [exact H|].
      destruct (decide (pkind p = VAR_POSITIONAL)) as [Hk|_]; [|exact H].
      rewrite keywords_step_var_positional by exact Hk. exact H. }
    destruct (keywords_values R top K acc A Hord Hnd Hfresh HK Hkw)
      as (I1 & I2 & I3 & I4).
    assert (Hnone : forall q, q ∈ R -> dict_get (name q) acc = None).
    { intros q Hq. apply dict_get_None, Hfresh, elem_names, Hq. }
    split; [|split; [|split; [|split; [|split]]]].
    + intros q Hq Hv. rewrite (Hnone q Hq). auto.
    + intros q Hq _ Hm. unfold dict_mem in Hm. rewrite (Hnone q Hq) in Hm.
      discriminate.
    + exact I2.
    + discriminate.
    + exact I3.
    + exact I4.
  - apply bind_from_cons_inv in H as (p & ps & -> & H).
    pose proof (ordered_tail _ _ _ Hord) as Hord'.
    cbn in Hnd. apply NoDup_cons in Hnd as [Hp Hnd].
    pose proof (fresh_None _ _ _ Hfresh) as Hnone.
    rewrite keyword_names_cons.
    destruct H as [(Hpos & Hmult & H)|(Hk & H)].
    + (* a positional parameter takes the argument *)
      cbn [place_positional]. rewrite Hpos.
      assert (Hfresh' : fresh_for ps (dict_set (name p) x acc))
        by (eapply fresh_for_set; eassumption).
      destruct (IH _ _ _ _ _ Hord' Hnd Hfresh' HK H)
        as (I1 & I2 & I3 & I4 & I5 & I6).
      set (slots := (place_positional ps xs (dict_set (name p) x acc)).1) in *.
      assert (Hslot : dict_get (name p) slots = Some x).
      { subst slots. rewrite place_positional_frame by exact Hp.
        rewrite dict_get_set. destruct (decide (name p = name p)); congruence. }
      assert (Hown : dict_get (name p) A = Some x).
      { rewrite (bind_from_frame _ _ _ _ _ _ _ Hord' H Hp), dict_get_set.
        destruct (decide (name p = name p)); congruence. }
      assert (Hvar : is_variadic p = false) by (apply positional_not_variadic, Hpos).
      assert (HX : unmatched (if keywordable p then name p :: keyword_names ps
                              else keyword_names ps) K
                   = unmatched (keyword_names ps) K).
      { destruct (keywordable p) eqn:E; [|reflexivity].
        apply unmatched_cons_absent, dict_mem_false, Hmult.
        unfold keywordable, is_positional in *. destruct (pkind p); congruence. }
      rewrite HX.
      split; [|split; [|split; [|split; [|split]]]].
      * intros q Hq Hv. apply elem_of_cons in Hq as [->|Hq]; [|auto].
        rewrite Hown, Hslot. reflexivity.
      * intros q Hq Hkw Hm. apply elem_of_cons in Hq as [->|Hq]; [|auto].
        apply dict_mem_false, Hmult.
        unfold keywordable, is_positional in *. destruct (pkind p); congruence.
      * intros q Hq Hkq. apply elem_of_cons in Hq as [->|Hq]; [|auto].
        unfold is_positional in Hpos. rewrite Hkq in Hpos. discriminate.
      * intros Hm. apply has_kind_tail, I4, Hm.
      * intros q Hq Hkq. apply elem_of_cons in Hq as [->|Hq]; [|auto].
        unfold is_positional in Hpos. rewrite Hkq in Hpos. discriminate.
      * intros HX'. apply has_kind_tail, I6, HX'.
    + (* the variable-positional parameter takes all that is left *)
      cbn [place_positional].
      assert (is_positional p = false) as ->
        by (unfold is_positional; rewrite Hk; reflexivity).
      assert (keywordable p = false) as ->
        by (unfold keywordable; rewrite Hk; reflexivity).
      cbn [fst snd is_nil].
      assert (Hfresh' : fresh_for ps (dict_set (name p) (VTuple (x :: xs)) acc))
        by (eapply fresh_for_set; eassumption).
      destruct (keywords_values ps _ K _ A Hord' Hnd Hfresh' HK H)
        as (I1 & I2 & I3 & I4).
      assert (Hown : dict_get (name p) A = Some (VTuple (x :: xs))).
      { rewrite (keywords_frame _ _ _ _ _ _ Hord' H Hp), dict_get_set.
        destruct (decide (name p = name p)); congruence. }
      assert (Hnone' : forall q, q ∈ ps -> dict_get (name q) acc = None).
      { intros q Hq. apply dict_get_None, Hfresh. right. apply elem_names, Hq. }
      pose proof (ordered_after_var_positional _ _ _ Hk Hord) as Hhigh.
      split; [|split; [|split; [|split; [|split]]]].
      * intros q Hq Hv. apply elem_of_cons in Hq as [->|Hq].
        -- unfold is_variadic in Hv. rewrite Hk in Hv. discriminate.
        -- rewrite (Hnone' q Hq). auto.
      * intros q Hq _ Hm. apply elem_of_cons in Hq as [->|Hq].
        -- unfold dict_mem in Hm. rewrite Hnone in Hm. discriminate.
        -- unfold dict_mem in Hm. rewrite (Hnone' q Hq) in Hm. discriminate.
      * intros q Hq Hkq. apply elem_of_cons in Hq as [->|Hq]; [exact Hown|].
        exfalso. pose proof (ordered_bound _ _ _ Hhigh Hq) as Hle.
        rewrite Hkq in Hle. cbn in Hle. lia.
      * intros _. apply has_kind_head, Hk.
      * intros q Hq Hkq. apply elem_of_cons in Hq as [->|Hq]; [congruence|auto].
      * intros HX'. apply has_kind_tail, I4, HX'.
Qed.

(** The keyword arguments, as the interpreter places them. *)
Lemma place_keywords_spec sig K : forall slots exc,
  NoDup (keys K) ->
  (forall k, k ∈ keys K -> k ∈ keyword_names sig -> dict_mem k slots = false) ->
  (forall k, k ∈ keys K -> k ∉ keys exc) ->
  exists slots',
    place_keywords sig K slots exc
    = Some (slots', exc ++ unmatched (keyword_names sig) K)
    /\ forall n,
         dict_get n slots'
         = if bool_decide (n ∈ keyword_names sig)
           then match dict_get n K with
                | Some v => Some v
                | None => dict_get n slots
                end
           else dict_get n slots.
Proof.
  induction K as [|[k v] K IH]; intros slots exc Hnd Hfree Hexc.
  - exists slots. split; [cbn; rewrite app_nil_r; reflexivity|].
    intros n. destruct (bool_decide _); reflexivity.
  - cbn in Hnd. apply NoDup_cons in Hnd as [Hk Hnd].
    cbn [place_keywords]. rewrite unmatched_cons.
    destruct (decide (k ∈ keyword_names sig)) as [Hin|Hout].
    + rewrite bool_decide_eq_true_2 by exact Hin.
      rewrite (Hfree k (list_elem_of_here _ _) Hin).
      destruct (IH (dict_set k v slots) exc Hnd) as (slots' & Heq & Hlook).
      * intros k' Hk' Hkn. rewrite dict_mem_set_ne by (intros ->; contradiction).
        apply Hfree; [right; exact Hk'|exact Hkn].
      * intros k' Hk'. apply Hexc. right. exact Hk'.
      * exists slots'. split; [exact Heq|].
        intros n. rewrite Hlook. cbn [dict_get].
        destruct (bool_decide (n ∈ keyword_names sig)) eqn:E.
        -- destruct (decide (n = k)) as [->|Hne].
           ++ apply dict_get_None in Hk. rewrite Hk, dict_get_set.
              destruct (decide (k = k)); congruence.
           ++ rewrite dict_get_set. destruct (decide (n = k)); [contradiction|].
              reflexivity.
        -- rewrite dict_get_set. destruct (decide (n = k)) as [->|]; [|reflexivity].
           apply bool_decide_eq_false in E. contradiction.
    + rewrite bool_decide_eq_false_2 by exact Hout.
      assert (Hfreshk : k ∉ keys exc) by (apply Hexc; left).
      rewrite (dict_set_fresh k v exc Hfreshk).
      destruct (IH slots (exc ++ [(k, v)]) Hnd) as (slots' & Heq & Hlook).
      * intros k' Hk' Hkn. apply Hfree; [right; exact Hk'|exact Hkn].
      * intros k' Hk'. rewrite keys_app. intros Hin'.
        apply elem_of_app in Hin' as [Hin'|Hin'].
        -- revert Hin'. apply Hexc. right. exact Hk'.
        -- cbn in Hin'. apply list_elem_of_singleton in Hin'. subst k'.
           contradiction.
      * exists slots'. split; [rewrite Heq, <- app_assoc; reflexivity|].
        intros n. rewrite Hlook. cbn [dict_get].
        destruct (bool_decide (n ∈ keyword_names sig)) eqn:E; [|reflexivity].
        destruct (decide (n = k)) as [->|]; [|reflexivity].
        apply bool_decide_eq_true in E. contradiction.
Qed.

(** Filling the slots gives what applying the defaults gives. *)
Lemma fill_slots_effective slots more excess X : forall R : list Param,
  (forall q, q ∈ R ->
     effective q X
     = match pkind q with
       | VAR_POSITIONAL => Some (VTuple more)
       | VAR_KEYWORD => Some (VDict excess)
       | _ => match dict_get (name q) slots with
              | Some v => Some v
              | None => default q
              end
       end) ->
  (forall q, q ∈ R -> exists v, effective q X = Some v) ->
  fill_slots R slots more excess
  = Some (omap (fun q => pair (name q) <$> effective q X) R).
Proof.
  induction R as [|q R IH]; intros Hval Hall; [reflexivity|].
  cbn [fill_slots]. rewrite effective_list_cons.
  rewrite IH;
    [|intros; apply Hval; right; assumption|intros; apply Hall; right; assumption].
  rewrite <- (Hval q (list_elem_of_here _ _)).
  destruct (Hall q (list_elem_of_here _ _)) as [v ->]. reflexivity.
Qed.

Lemma absent_is_optional A R : forall gap q,
  shaped_from gap R A = true -> q ∈ R -> dict_get (name q) A = None ->
  is_variadic q || has_default q = true.
Proof.
  induction R as [|p ps IH]; intros gap q Hsh Hq Hnone; [inversion Hq|].
  cbn [shaped_from] in Hsh.
  apply elem_of_cons in Hq as [->|Hq].
  - rewrite Hnone in Hsh. apply andb_true_iff in Hsh as [Hsh _]. exact Hsh.
  - destruct (dict_get (name p) A).
    + destruct (pkind p); repeat (apply andb_true_iff in Hsh as [? Hsh]);
        eapply IH; eassumption.
    + apply andb_true_iff in Hsh as [_ Hsh]. eapply IH; eassumption.
Qed.

(** Every call the binder accepts, the function accepts, and the body
    starts with the bound arguments completed by the defaults. *)
Lemma bind_is_a_call sig args K ba :
  wf_signature sig = true -> NoDup (keys K) ->
  bind sig args K = Ok ba ->
  match_call sig args K = Some (arguments (apply_defaults ba)).
Proof.
  intros Hwf HK Hb.
  destruct (bind_shaped _ _ _ _ Hwf HK Hb) as [_ Hsh].
  pose proof (wf_signature_spec _ Hwf) as (Hord & Hnd & Hvd).
  unfold bind in Hb.
  destruct (bind_from args sig K []) as [e|A] eqn:Hfrom; [discriminate|].
  injection Hb as <-. cbn [arguments] in Hsh.
  destruct (bind_from_values args 0 sig K [] A Hord Hnd (fresh_for_nil _) HK Hfrom)
    as (I1 & I2 & I3 & I4 & I5 & I6).
  unfold match_call.
  destruct (place_positional sig args []) as [slots more] eqn:Hplace.
  cbn [fst snd] in *.
  destruct (place_keywords_spec sig K slots [] HK) as (slots' & Hkw & Hlook).
  { intros k Hk Hkn. destruct (dict_mem k slots) eqn:Hm; [|reflexivity].
    exfalso. apply keyword_names_elem in Hkn as (r & Hr & <- & Hrk).
    exact (I2 r Hr Hrk Hm Hk). }
  { intros k _. apply not_elem_of_nil. }
  rewrite Hkw. cbn [app].
  set (X := unmatched (keyword_names sig) K) in *.
  assert (negb (is_nil more) && negb (has_kind VAR_POSITIONAL sig) = false) as ->.
  { destruct (is_nil more) eqn:E; [reflexivity|]. rewrite (I4 eq_refl). reflexivity. }
  assert (negb (is_nil X) && negb (has_kind VAR_KEYWORD sig) = false) as ->.
  { destruct (is_nil X) eqn:E; [reflexivity|]. rewrite (I6 eq_refl). reflexivity. }
  unfold apply_defaults. cbn [arguments ba_signature].
  rewrite defaults_loop_effective.
  rewrite dict_update_fresh;
    [|apply NoDup_keys_effective_list, Hnd|intros k _; apply not_elem_of_nil].
  cbn [app].
  assert (Hsome : forall q, q ∈ sig -> exists v, effective q A = Some v).
  { intros q Hq. unfold effective.
    destruct (dict_get (name q) A) as [v|] eqn:Hv; [eauto|].
    destruct (default q) as [d|] eqn:Hd; [eauto|].
    unfold shaped in Hsh. apply andb_true_iff in Hsh as [Hsh _].
    pose proof (absent_is_optional _ _ _ q Hsh Hq Hv) as Hopt.
    unfold has_default in Hopt. rewrite Hd, orb_false_r in Hopt.
    unfold is_variadic in Hopt. destruct (pkind q); try discriminate; eauto. }
  apply fill_slots_effective; [|exact Hsome].
  intros q Hq. unfold effective.
  destruct (pkind q) eqn:Hk.
  - (* positional only *)
    assert (Hvar : is_variadic q = false) by (unfold is_variadic; rewrite Hk; reflexivity).
    rewrite (I1 q Hq Hvar), Hlook.
    assert (Hout : name q ∉ keyword_names sig).
    { intros Hin. apply keyword_names_elem in Hin as (r & Hr & Hname & Hrk).
      assert (r = q) as ->.
      { apply list_elem_of_In in Hr, Hq. clear -Hnd Hr Hq Hname.
        induction sig as [|s sig' IH]; [destruct Hr|].
        cbn in Hnd. apply NoDup_cons in Hnd as [Hs Hnd].
        destruct Hr as [->|Hr], Hq as [->|Hq]; auto.
        - exfalso. apply Hs. rewrite Hname. apply elem_names, list_elem_of_In, Hq.
        - exfalso. apply Hs. rewrite <- Hname. apply elem_names, list_elem_of_In, Hr.
        }
      unfold keywordable in Hrk. rewrite Hk in Hrk. discriminate. }
    rewrite bool_decide_eq_false_2 by exact Hout.
    unfold keywordable. rewrite Hk.
    destruct (dict_get (name q) slots); [reflexivity|].
    destruct (default q); reflexivity.
  - (* positional or keyword *)
    assert (Hvar : is_variadic q = false) by (unfold is_variadic; rewrite Hk; reflexivity).
    assert (Hkw' : keywordable q = true) by (unfold keywordable; rewrite Hk; reflexivity).
    rewrite (I1 q Hq Hvar), Hlook, Hkw'.
    rewrite bool_decide_eq_true_2 by (apply keyword_names_intro; assumption).
    destruct (dict_get (name q) slots) as [v|] eqn:Hs.
    + assert (Hm : dict_mem (name q) slots = true) by (unfold dict_mem; rewrite Hs; reflexivity).
      pose proof (I2 q Hq Hkw' Hm) as Hfree. apply dict_get_None in Hfree.
      rewrite Hfree. reflexivity.
    + destruct (dict_get (name q) K); [reflexivity|].
      destruct (default q); reflexivity.
  - (* variable positional *)
    rewrite (I3 q Hq Hk), (Hvd q Hq) by (unfold is_variadic; rewrite Hk; reflexivity).
    destruct more; reflexivity.
  - (* keyword only *)
    assert (Hvar : is_variadic q = false) by (unfold is_variadic; rewrite Hk; reflexivity).
    assert (Hkw' : keywordable q = true) by (unfold keywordable; rewrite Hk; reflexivity).
    rewrite (I1 q Hq Hvar), Hlook, Hkw'.
    rewrite bool_decide_eq_true_2 by (apply keyword_names_intro; assumption).
    destruct (dict_get (name q) slots) as [v|] eqn:Hs.
    + assert (Hm : dict_mem (name q) slots = true) by (unfold dict_mem; rewrite Hs; reflexivity).
      pose proof (I2 q Hq Hkw' Hm) as Hfree. apply dict_get_None in Hfree.
      rewrite Hfree. reflexivity.
    + destruct (dict_get (name q) K); [reflexivity|].
      destruct (default q); reflexivity.
  - (* variable keyword *)
    rewrite (I5 q Hq Hk), (Hvd q Hq) by (unfold is_variadic; rewrite Hk; reflexivity).
    destruct X; reflexivity.
Qed.


(** The keywords [kwargs] yields are distinct. *)
Lemma NoDup_keys_kwlist A R : forall top,
  ordered top R = true -> NoDup (param_names R) ->
  shaped_from true R A = true -> extra_ok R A = true ->
  NoDup (keys (kwlist R A)).
Proof.
  induction R as [|p ps IH]; intros top Hord Hnd Hsh Hex; [constructor|].
  pose proof (ordered_tail _ _ _ Hord) as Hord'.
  pose proof Hnd as Hnd0.
  cbn in Hnd. apply NoDup_cons in Hnd as [Hp Hnd].
  pose proof (extra_ok_cons _ _ _ Hex) as Hex'.
  cbn [kwlist shaped_from] in *.
  destruct (dict_get (name p) A) as [v|] eqn:Hv.
  - destruct (pkind p) eqn:Hk; cbn in Hsh; try discriminate Hsh.
    + (* positional or keyword *)
      cbn [keys map fst]. apply NoDup_cons. split; [|eapply IH; eassumption].
      apply (kwlist_fresh A p ps Hnd0 Hex).
      * unfold is_variadic. rewrite Hk. reflexivity.
      * left. congruence.
    + (* keyword only *)
      cbn [keys map fst]. apply NoDup_cons. split; [|eapply IH; eassumption].
      apply (kwlist_fresh A p ps Hnd0 Hex).
      * unfold is_variadic. rewrite Hk. reflexivity.
      * left. congruence.
    + (* variable keyword *)
      pose proof (ordered_after_var_keyword _ _ _ Hk Hord) as ->.
      destruct v; try constructor. cbn [kwlist]. rewrite app_nil_r.
      pose proof (proj1 (extra_ok_spec _ _) Hex) as Hspec.
      apply (Hspec p items); [left|exact Hk|exact Hv].
  - apply andb_true_iff in Hsh as [_ Hsh]. eapply IH; eassumption.
Qed.

Section Invoke.
Context {U : Type} (prog : Program U).

(** The final call [func( *ba.args, **ba.kwargs )] on a shaped mapping: the
    body starts with the bound arguments completed by the defaults. *)
Lemma invoke_shaped func ba (u : U) :
  wf_signature (signature func) = true ->
  ba_signature ba = signature func ->
  shaped (signature func) (arguments ba) = true ->
  let locals := arguments (apply_defaults ba) in
  invoke prog func ba u =
    ([EvTarget func locals],
     (run_function prog (__code__ func) locals u).1,
     (run_function prog (__code__ func) locals u).2).
Proof.
  intros Hwf Hsig Hsh locals.
  destruct (rebind_shaped (arguments ba) (signature func) Hwf Hsh)
    as (Hargs & Hkw & Hbind).
  pose proof (wf_signature_spec _ Hwf) as (Hord & Hnd & _).
  set (A := arguments ba) in *. set (sig := signature func) in *.
  assert (HK : NoDup (keys (kwlist (trailing sig A) A))).
  { unfold shaped in Hsh. apply andb_true_iff in Hsh as [Hsh Hex].
    destruct (trailing_ordered A sig 0 Hord) as [top' Hord'].
    apply (NoDup_keys_kwlist A _ top' Hord').
    - apply trailing_NoDup, Hnd.
    - apply trailing_shaped, Hsh.
    - eapply extra_ok_sub; [|exact Hex]. intros q. apply trailing_elem. }
  assert (Hb : bind sig (arglist sig A) (kwlist (trailing sig A) A)
               = Ok (mkBoundArguments sig (canon sig A)))
    by (unfold bind; rewrite Hbind; reflexivity).
  pose proof (bind_is_a_call _ _ _ _ Hwf HK Hb) as Hmatch.
  rewrite (apply_defaults_canon _ _ Hwf) in Hmatch.
  unfold invoke, args, kwargs. rewrite Hsig. fold sig. fold A.
  rewrite mbind_of_result, Hargs, mbind_of_result, Hkw.
  pose proof (call_function_trace prog func (arglist sig A)
                (kwlist (trailing sig A) A) u) as Hcall.
  fold sig in Hcall. rewrite Hmatch in Hcall. rewrite Hcall.
  subst locals. destruct ba as [s a]. cbn in Hsig. subst s. reflexivity.
Qed.

End Invoke.

(** *** C9: a call the binder refuses *)

Section BindingFailure.
Context {U : Type} (prog : Program U).


End BindingFailure.

(** *** C10: decorating with no callback changes nothing *)

Section NoCallback.
Context {U : Type} (prog : Program U).

(** C10.  On every call the binder accepts, with no callback and without
    filling the defaults, the decorated function does exactly what the
    function does: same trace, same final state, same value or exception.
    Two things meet here: the round trip through [BoundArguments.args] and
    [.kwargs], and the function's own matching of the call, which starts
    the body with the bound arguments completed by the defaults.  The
    signature is that of a [def] ([wf_signature]) and the keywords of the
    call are distinct, as they are in every Python call. *)
Theorem no_callback_is_identity func args kw ba (u : U) :
  wf_signature (signature func) = true ->
  NoDup (keys kw) ->
  bind (signature func) args kw = Ok ba ->
  signature_decorator_factory prog [] false func args kw u
  = call_function prog func args kw u.
Proof.
  intros Hwf HK Hb.
  rewrite (factory_inner_unfold prog _ _ _ _ _ ba u Hb).
  cbn [run_callbacks]. rewrite mbind_ret.
  destruct (bind_shaped _ _ _ _ Hwf HK Hb) as [Hsig Hsh].
  rewrite (invoke_shaped prog func ba u Hwf Hsig Hsh).
  pose proof (call_function_trace prog func args kw u) as Hcall.
  rewrite (bind_is_a_call _ _ _ _ Hwf HK Hb) in Hcall.
  rewrite Hcall. reflexivity.
Qed.

End NoCallback.


Lemma provider_calls_app k tr1 tr2 :
  provider_calls k (tr1 ++ tr2) = provider_calls k tr1 ++ provider_calls k tr2.
Proof. unfold provider_calls. apply omap_app. Qed.

Lemma target_starts_app tr1 tr2 :
  target_starts (tr1 ++ tr2) = target_starts tr1 ++ target_starts tr2.
Proof. unfold target_starts. apply omap_app. Qed.

Section UpdateLoop.
Context {U : Type} (prog : Program U).

(** What one step of [update] does for the name [k], and what it leaves
    alone. *)
Lemma update_item_spec k v a (u : U) :
  exists tr u' a',
    update_item prog k v a u = (tr, u', Ok a')
    /\ (forall x, x <> k -> provider_calls x tr = [] /\ dict_get x a' = dict_get x a)
    /\ (dict_mem k a = true -> tr = [] /\ a' = a)
    /\ (dict_mem k a = false ->
        match v with
        | VFunc code =>
            exists r, provider_calls k tr = [(code, r)]
              /\ dict_get k a' = Some (match r with inr y => y | inl _ => v end)
        | _ => provider_calls k tr = [] /\ dict_get k a' = Some v
        end).
Proof.
  assert (Hset : forall w, dict_get k (dict_set k w a) = Some w).
  { intros w. rewrite dict_get_set. destruct (decide (k = k)); [reflexivity|congruence]. }
  assert (Hother : forall w x, x <> k -> dict_get x (dict_set k w a) = dict_get x a).
  { intros w x Hx. rewrite dict_get_set.
    destruct (decide (x = k)); [contradiction|reflexivity]. }
  destruct (dict_mem k a) eqn:Hmem.
  - rewrite update_item_present by exact Hmem.
    eexists _, _, _. split; [reflexivity|]. repeat split; try discriminate.
  - destruct (callable v) eqn:Hv.
    + destruct v as [| | | | | |code]; try discriminate Hv.
      rewrite update_item_provider by exact Hmem.
      eexists _, _, _. split; [reflexivity|]. split; [|split; [discriminate|]].
      * intros x Hx. split; [|apply Hother, Hx].
        cbn. destruct (decide (x = k)); [contradiction|reflexivity].
      * intros _. eexists. split; [|apply Hset].
        cbn. destruct (decide (k = k)); [reflexivity|congruence].
    + rewrite update_item_literal by assumption.
      eexists _, _, _. split; [reflexivity|]. split; [|split; [discriminate|]].
      * intros x Hx. split; [reflexivity|apply Hother, Hx].
      * intros _. destruct v; try discriminate Hv; split; try reflexivity; apply Hset.
Qed.

Lemma update_loop_spec kw : forall a (u : U),
  NoDup (keys kw) ->
  exists tr u' a',
    update_loop prog kw a u = (tr, u', Ok a')
    /\ (forall x, dict_mem x a = true \/ x ∉ keys kw ->
          provider_calls x tr = [] /\ dict_get x a' = dict_get x a)
    /\ (forall x v, (x, v) ∈ kw -> dict_mem x a = false ->
          match v with
          | VFunc code =>
              exists r, provider_calls x tr = [(code, r)]
                /\ dict_get x a' = Some (match r with inr y => y | inl _ => v end)
          | _ => provider_calls x tr = [] /\ dict_get x a' = Some v
          end).
Proof.
  induction kw as [|[k v] kw IH]; intros a u Hnd.
  - exists [], u, a. split; [reflexivity|]. split; [auto|].
    intros x w Hin. inversion Hin.
  - cbn in Hnd. apply NoDup_cons in Hnd as [Hk Hnd].
    destruct (update_item_spec k v a u) as (tr1 & u1 & a1 & Hitem & Hoth & Hskip & Hrun).
    destruct (IH a1 u1 Hnd) as (tr2 & u2 & a2 & Hloop & Hkeep & Hconf).
    exists (tr1 ++ tr2), u2, a2.
    split; [rewrite update_loop_step; cbn zeta; rewrite Hitem; cbn; rewrite Hloop;
            reflexivity|].
    assert (Hmem1 : forall x, x <> k -> dict_mem x a1 = dict_mem x a).
    { intros x Hx. unfold dict_mem. rewrite (proj2 (Hoth x Hx)). reflexivity. }
    split.
    + intros x Hx. rewrite provider_calls_app.
      destruct (decide (x = k)) as [->|Hne].
      * destruct Hx as [Hx|Hx]; [|exfalso; apply Hx; left].
        destruct (Hskip Hx) as [-> ->].
        destruct (Hkeep k (or_introl Hx)) as [-> ->]. split; reflexivity.
      * destruct (Hoth x Hne) as [-> Ha1].
        assert (dict_mem x a1 = true \/ x ∉ keys kw) as Hx'.
        { destruct Hx as [Hx|Hx]; [left; rewrite Hmem1; assumption|right].
          intros Hin. apply Hx. right. exact Hin. }
        destruct (Hkeep x Hx') as [-> ->]. split; [reflexivity|exact Ha1].
    + intros x w Hin Hmem. rewrite provider_calls_app.
      apply elem_of_cons in Hin as [[= -> ->]|Hin].
      * specialize (Hrun Hmem).
        destruct (Hkeep k (or_intror Hk)) as [-> Ha2]. rewrite app_nil_r, Ha2.
        exact Hrun.
      * assert (x <> k) as Hne.
        { intros ->. apply Hk. unfold keys.
          apply list_elem_of_fmap. exists (k, w). auto. }
        destruct (Hoth x Hne) as [-> _]. cbn [app].
        apply Hconf; [exact Hin|]. rewrite Hmem1; assumption.
Qed.

End UpdateLoop.

(** *** Dynamic defaults: the decorated call *)

Lemma full_shaped A R : forall top gap,
  ordered top R = true -> gap = false \/ 3 <= top ->
  (forall p, p ∈ R ->
     exists v, dict_get (name p) A = Some v
       /\ (pkind p = VAR_POSITIONAL -> is_tuple v = true)
       /\ (pkind p = VAR_KEYWORD -> is_dict v = true)) ->
  shaped_from gap R A = true.
Proof.
  induction R as [|p ps IH]; intros top gap Hord Hgap Hall; [reflexivity|].
  destruct (Hall p (list_elem_of_here _ _)) as (v & Hv & Ht & Hd).
  assert (Hrest : forall q, q ∈ ps ->
            exists v, dict_get (name q) A = Some v
              /\ (pkind q = VAR_POSITIONAL -> is_tuple v = true)
              /\ (pkind q = VAR_KEYWORD -> is_dict v = true)).
  { intros q Hq. apply Hall. right. exact Hq. }
  pose proof (ordered_head _ _ _ Hord) as Hhead.
  pose proof (ordered_tail _ _ _ Hord) as Hord'.
  cbn [shaped_from]. rewrite Hv.
  destruct (pkind p) eqn:Hk; cbn in Hhead, Hord'.
  - destruct Hgap as [->|Hgap]; [|lia]. cbn.
    apply (IH _ _ Hord'); auto.
  - destruct Hgap as [->|Hgap]; [|lia].
    apply (IH _ _ Hord'); auto.
  - destruct Hgap as [->|Hgap]; [|lia]. cbn. rewrite (Ht eq_refl). cbn.
    apply (IH 3 true); [|right; lia|exact Hrest].
    eapply ordered_after_var_positional; eassumption.
  - apply (IH _ _ Hord'); [right; lia|exact Hrest].
  - rewrite (Hd eq_refl). cbn. apply (IH _ _ Hord'); [right; lia|exact Hrest].
Qed.

Lemma shaped_values A R : forall gap p,
  shaped_from gap R A = true -> p ∈ R ->
  match dict_get (name p) A with
  | Some v => (pkind p = VAR_POSITIONAL -> is_tuple v = true)
              /\ (pkind p = VAR_KEYWORD -> is_dict v = true)
  | None => is_variadic p = true \/ has_default p = true
  end.
Proof.
  induction R as [|q qs IH]; intros gap p Hsh Hp; [inversion Hp|].
  cbn [shaped_from] in Hsh.
  apply elem_of_cons in Hp as [->|Hp].
  - destruct (dict_get (name q) A) as [v|].
    + destruct (pkind q); split; try discriminate; intros _;
        rewrite ?andb_true_iff in Hsh; tauto.
    + apply andb_true_iff in Hsh as [H _]. apply orb_true_iff in H. exact H.
  - destruct (dict_get (name q) A) as [v|].
    + destruct (pkind q);
        repeat (apply andb_true_iff in Hsh as [? Hsh]);
        exact (IH _ _ Hsh Hp).
    + apply andb_true_iff in Hsh as [_ Hsh]. exact (IH _ _ Hsh Hp).
Qed.

(** Filling non-variadic entries in what [bind] returned, then applying the
    defaults, gives a mapping that still converts back to a call. *)
Lemma complete_shaped sig A a' :
  wf_signature sig = true ->
  shaped sig A = true ->
  (forall q, q ∈ sig -> is_variadic q = true ->
     dict_get (name q) a' = dict_get (name q) A) ->
  (forall q, q ∈ sig -> dict_mem (name q) A = true -> dict_mem (name q) a' = true) ->
  shaped sig (arguments (apply_defaults (mkBoundArguments sig a'))) = true.
Proof.
  intros Hwf Hsh Hvar Hkeep.
  pose proof (wf_signature_spec _ Hwf) as (Hord & Hnd & Hnodef).
  unfold shaped in Hsh. apply andb_true_iff in Hsh as [Hsh Hex].
  set (A' := arguments (apply_defaults (mkBoundArguments sig a'))).
  assert (Hlook : forall q, q ∈ sig -> dict_get (name q) A' = effective q a').
  { intros q Hq. apply (apply_defaults_lookup (mkBoundArguments sig a')); assumption. }
  assert (Hfull : forall p, p ∈ sig ->
            exists v, dict_get (name p) A' = Some v
              /\ (pkind p = VAR_POSITIONAL -> is_tuple v = true)
              /\ (pkind p = VAR_KEYWORD -> is_dict v = true)
              /\ (is_variadic p = true ->
                  dict_get (name p) A = Some v
                  \/ (dict_get (name p) A = None
                      /\ (v = VTuple [] \/ v = VDict [])))).
  { intros p Hp. rewrite (Hlook p Hp). unfold effective.
    pose proof (shaped_values A sig false p Hsh Hp) as Hval.
    destruct (is_variadic p) eqn:Hv.
    - rewrite (Hvar p Hp Hv). rewrite (Hnodef p Hp Hv).
      destruct (dict_get (name p) A) as [v|].
      + exists v. split; [reflexivity|]. destruct Hval as [H1 H2]. auto.
      + unfold is_variadic in Hv. destruct (pkind p); try discriminate Hv.
        * exists (VTuple []). split; [reflexivity|]. split; [reflexivity|].
          split; [discriminate|]. intros _. right. auto.
        * exists (VDict []). split; [reflexivity|]. split; [discriminate|].
          split; [reflexivity|]. intros _. right. auto.
    - assert (Hplain : forall v, (pkind p = VAR_POSITIONAL -> is_tuple v = true)
                          /\ (pkind p = VAR_KEYWORD -> is_dict v = true)
                          /\ (false = true -> dict_get (name p) A = Some v
                              \/ dict_get (name p) A = None
                                 /\ (v = VTuple [] \/ v = VDict []))).
      { intros v. unfold is_variadic in Hv.
        repeat split; try discriminate; intros E; rewrite E in Hv; discriminate. }
      destruct (dict_get (name p) a') as [v|] eqn:Ha'; [eauto|].
      destruct (dict_get (name p) A) as [v|] eqn:HA.
      + specialize (Hkeep p Hp). unfold dict_mem in Hkeep. rewrite HA, Ha' in Hkeep.
        discriminate (Hkeep eq_refl).
      + destruct Hval as [Hval|Hval]; [congruence|].
        unfold has_default in Hval. destruct (default p); [eauto|discriminate]. }
  unfold shaped. apply andb_true_iff. split.
  - apply (full_shaped A' sig 0 false Hord (or_introl eq_refl)).
    intros p Hp. destruct (Hfull p Hp) as (v & Hv & Ht & Hd & _). eauto.
  - apply extra_ok_spec. intros q d Hq Hkq Hd.
    destruct (Hfull q Hq) as (v & Hv & _ & _ & Horigin).
    rewrite Hd in Hv. injection Hv as <-.
    assert (is_variadic q = true) as Hvq by (unfold is_variadic; rewrite Hkq; reflexivity).
    destruct (Horigin Hvq) as [HA|[_ [E|E]]]; [|discriminate E|].
    + pose proof (proj1 (extra_ok_spec _ _) Hex q d Hq Hkq HA) as [Hdd Hclean].
      split; [exact Hdd|]. intros k r Hk Hr Hn.
      destruct (Hclean k r Hk Hr Hn) as [H|[H _]]; [left; exact H|right].
      split; [exact H|]. destruct (Hfull r Hr) as (w & Hw & _).
      unfold dict_mem. rewrite Hw. reflexivity.
    + injection E as ->. split; [constructor|]. intros k r Hk. inversion Hk.
Qed.

Section DynamicCall.
Context {U : Type} (prog : Program U).

Lemma provider_calls_invoke x func ba (u : U) :
  provider_calls x (trace_of (invoke prog func ba u)) = [].
Proof.
  unfold invoke. rewrite mbind_of_result.
  destruct (args ba) as [e|args']; [reflexivity|].
  rewrite mbind_of_result.
  destruct (kwargs ba) as [e|kwargs']; [reflexivity|].
  pose proof (call_function_trace prog func args' kwargs' u) as H.
  destruct (match_call (signature func) args' kwargs'); rewrite H; reflexivity.
Qed.

(** A call of a function decorated by [dynamic_defaults]: the callback
    event, the update loop (which always returns), the defaults, the
    target. *)
Lemma dynamic_call kw func self args kwargs ba (u : U) tr1 u1 a' :
  configured_by kw func self ->
  bind (signature func) args kwargs = Ok ba ->
  update_loop prog kw (arguments ba) u = (tr1, u1, Ok a') ->
  let ba' := apply_defaults (with_arguments ba a') in
  let final := invoke prog func ba' u1 in
  SignatureDecorator.inner prog func args kwargs (self, u) =
    (EvCallback (Update kw) (ArgSelf (SignatureDecorator.set_boundarguments ba self))
       :: tr1 ++ trace_of final,
     (SignatureDecorator.set_boundarguments ba' self, state_of final),
     outcome_of final).
Proof.
  intros ([_ Hs] & Hcbs & Had & Has) Hb Hloop ba' final.
  rewrite (class_inner_unfold prog self func _ args kwargs ba u Hs Hb).
  cbn zeta. rewrite Hcbs, Had.
  set (self1 := SignatureDecorator.set_boundarguments ba self).
  assert (Hcb : call_callback prog (Update kw) (class_arg self1 ba) u
                = (EvCallback (Update kw) (ArgSelf self1) :: tr1, u1,
                   Ok (arguments ba'))).
  { unfold class_arg. cbn [_apply_self self1 SignatureDecorator.set_boundarguments].
    rewrite Has. unfold call_callback. rewrite mbind_emit.
    unfold update. cbn [boundarguments self1 SignatureDecorator.set_boundarguments].
    rewrite (mbind_ok _ _ _ _ _ _ Hloop). cbn. rewrite app_nil_r. reflexivity. }
  assert (Hrun : SignatureDecorator.run_callbacks prog [Update kw] ba (self1, u)
                 = (EvCallback (Update kw) (ArgSelf self1) :: tr1,
                    (SignatureDecorator.set_boundarguments ba' self, u1), Ok ba')).
  { rewrite class_run_callbacks_step. cbn zeta. rewrite Hcb.
    cbn [trace_of state_of outcome_of fst snd SignatureDecorator.run_callbacks].
    unfold ret. cbn [trace_of state_of outcome_of fst snd].
    rewrite app_nil_r.
    assert (with_arguments ba (arguments ba') = ba') as ->.
    { subst ba'. unfold with_arguments, apply_defaults. reflexivity. }
    reflexivity. }
  rewrite (mbind_ok _ _ _ _ _ _ Hrun).
  unfold outside. cbn [fst snd]. fold final.
  destruct final as [[tr3 u3] r3]. reflexivity.
Qed.

End DynamicCall.

(** *** C3, C4: what a call of a dynamically defaulted function does *)

Section DynamicDefaultsFacts.
Context {U : Type} (prog : Program U).

(** The pieces of such a call, for a call that matches the signature. *)
Lemma dynamic_call_facts kw func self args kwargs ba (u : U) :
  wf_signature (signature func) = true ->
  NoDup (keys kwargs) -> NoDup (keys kw) ->
  configured_by kw func self ->
  bind (signature func) args kwargs = Ok ba ->
  exists tr1 u1 a',
    update_loop prog kw (arguments ba) u = (tr1, u1, Ok a')
    /\ let ba' := apply_defaults (with_arguments ba a') in
       let final := invoke prog func ba' u1 in
       SignatureDecorator.inner prog func args kwargs (self, u)
       = (EvCallback (Update kw)
            (ArgSelf (SignatureDecorator.set_boundarguments ba self))
            :: tr1 ++ trace_of final,
          (SignatureDecorator.set_boundarguments ba' self, state_of final),
          outcome_of final)
       /\ (forall x, provider_calls x
                       (trace_of (SignatureDecorator.inner prog func args kwargs (self, u)))
                     = provider_calls x tr1)
       /\ (forall p, p ∈ signature func ->
             dict_get (name p) (arguments ba') = effective p a')
       /\ (plain_configuration kw (signature func) ->
           exists locals,
             trace_of final = [EvTarget func locals]
             /\ forall p v, p ∈ signature func ->
                  dict_get (name p) (arguments ba') = Some v ->
                  dict_get (name p) locals = Some v).
Proof.
  intros Hwf HK Hkw Hconf Hb.
  destruct (update_loop_spec prog kw (arguments ba) u Hkw)
    as (tr1 & u1 & a' & Hloop & Hkeep & _).
  exists tr1, u1, a'. split; [exact Hloop|]. intros ba' final.
  pose proof (dynamic_call prog kw func self args kwargs ba u tr1 u1 a'
                Hconf Hb Hloop) as Hcall.
  cbn zeta in Hcall. fold ba' in Hcall. fold final in Hcall.
  destruct (bind_shaped _ _ _ _ Hwf HK Hb) as [Hsig Hsh].
  pose proof (wf_signature_spec _ Hwf) as (_ & Hnd & _).
  assert (Hba' : ba' = apply_defaults (mkBoundArguments (signature func) a')).
  { subst ba'. unfold with_arguments. rewrite Hsig. reflexivity. }
  split; [exact Hcall|]. split; [|split].
  - intros x. rewrite Hcall. cbn [trace_of fst].
    change (provider_calls x (EvCallback ?c ?a :: ?l)) with (provider_calls x l).
    rewrite provider_calls_app. subst final.
    rewrite provider_calls_invoke, app_nil_r. reflexivity.
  - intros p Hp. rewrite Hba'.
    apply (apply_defaults_lookup (mkBoundArguments (signature func) a')); assumption.
  - intros Hplain.
    assert (Hshaped : shaped (signature func) (arguments ba') = true).
    { rewrite Hba'. apply (complete_shaped _ (arguments ba)); [exact Hwf|exact Hsh| |].
      - intros q Hq Hvar. apply Hkeep. right. intros Hin.
        rewrite (Hplain _ q Hin Hq eq_refl) in Hvar. discriminate.
      - intros q Hq Hmem. unfold dict_mem.
        rewrite (proj2 (Hkeep (name q) (or_introl Hmem))). exact Hmem. }
    assert (Hsig' : ba_signature ba' = signature func) by (rewrite Hba'; reflexivity).
    pose proof (invoke_shaped prog func ba' u1 Hwf Hsig' Hshaped) as Hinv.
    cbn zeta in Hinv. exists (arguments (apply_defaults ba')).
    split; [subst final; rewrite Hinv; reflexivity|].
    intros p v Hp Hv.
    rewrite apply_defaults_lookup by (rewrite Hsig'; assumption).
    unfold effective. rewrite Hv. reflexivity.
Qed.

(** C3.  As the code has it: take a function decorated by [dynamic_defaults]
    with the provider [code] configured for its parameter [p], and a call
    that matches the signature.
    - If the call does not supply [p], the provider is called exactly once;
      when it returns [y], the bound arguments of the call (which the
      instance still holds afterwards) give [y] to [p], and, when no
      configured name is a variadic parameter, the target body starts with
      [p] holding [y].
    - If the call supplies [p], the provider is not called. *)
Theorem provider_called_once_when_unsupplied
    kw func self args kwargs ba p code (u : U) :
  wf_signature (signature func) = true ->
  NoDup (keys kwargs) -> NoDup (keys kw) ->
  configured_by kw func self ->
  bind (signature func) args kwargs = Ok ba ->
  p ∈ signature func -> (name p, VFunc code) ∈ kw ->
  let call := SignatureDecorator.inner prog func args kwargs (self, u) in
  (supplied (signature func) args kwargs (name p) = false ->
     exists r,
       provider_calls (name p) (trace_of call) = [(code, r)]
       /\ forall y, r = Ok y ->
            (exists ba', boundarguments (state_of call).1 = Some ba'
                         /\ dict_get (name p) (arguments ba') = Some y)
            /\ (plain_configuration kw (signature func) ->
                exists locals, target_starts (trace_of call) = [locals]
                               /\ dict_get (name p) locals = Some y))
  /\ (supplied (signature func) args kwargs (name p) = true ->
      provider_calls (name p) (trace_of call) = []).
Proof.
  intros Hwf HK Hkw Hconf Hb Hp Hin call.
  destruct (dynamic_call_facts kw func self args kwargs ba u Hwf HK Hkw Hconf Hb)
    as (tr1 & u1 & a' & Hloop & Hfacts).
  cbn zeta in Hfacts. destruct Hfacts as (Hcall & Hprov & Hlook & Htarget).
  destruct (update_loop_spec prog kw (arguments ba) u Hkw)
    as (tr1' & u1' & a'' & Hloop' & Hkeep & Hrun).
  rewrite Hloop in Hloop'. injection Hloop' as <- <- <-.
  pose proof (bind_present_iff_supplied _ _ _ _ p Hwf HK Hb Hp) as Hmem.
  split.
  - intros Hsup. rewrite Hsup in Hmem.
    destruct (Hrun _ _ Hin Hmem) as (r & Hcalls & Hval).
    exists r. subst call. rewrite Hprov. split; [exact Hcalls|].
    intros y ->.
    assert (Hy : dict_get (name p) (arguments (apply_defaults (with_arguments ba a')))
                 = Some y).
    { rewrite (Hlook p Hp). unfold effective. rewrite Hval. reflexivity. }
    split.
    + rewrite Hcall. cbn [state_of fst snd boundarguments
                           SignatureDecorator.set_boundarguments].
      eexists. split; [reflexivity|exact Hy].
    + intros Hplain. destruct (Htarget Hplain) as (locals & Htr & Hloc).
      exists locals. rewrite Hcall. cbn [trace_of fst].
      change (target_starts (EvCallback ?c ?a :: ?l)) with (target_starts l).
      rewrite target_starts_app, Htr.
      assert (target_starts tr1 = []) as ->.
      { pose proof (update_loop_callees prog kw (arguments ba) u) as Hc.
        rewrite Hloop in Hc. cbn [trace_of fst] in Hc.
        clear -Hc. induction tr1 as [|ev tr IH]; [reflexivity|].
        destruct ev; cbn in Hc |- *; try discriminate Hc; auto. }
      split; [reflexivity|]. apply (Hloc p y Hp Hy).
  - intros Hsup. rewrite Hsup in Hmem. subst call. rewrite Hprov.
    apply (Hkeep (name p) (or_introl Hmem)).
Qed.

(** C4.  Take a function decorated by [dynamic_defaults] with the value [v]
    configured for its parameter [p], and a call that matches the signature
    and leaves [p] absent from the bound arguments.  Whatever the providers
    do, the update returns and the call ends as the call of the target on
    the final bound arguments ends.  In those bound arguments (which the
    instance still holds afterwards) [p] holds [v] itself when [v] is not
    callable, and when calling [v] raised; and, when no configured name is
    a variadic parameter, the target body starts with [p] holding [v]. *)
Theorem provider_failure_falls_back
    kw func self args kwargs ba p v (u : U) :
  wf_signature (signature func) = true ->
  NoDup (keys kwargs) -> NoDup (keys kw) ->
  configured_by kw func self ->
  bind (signature func) args kwargs = Ok ba ->
  p ∈ signature func -> (name p, v) ∈ kw ->
  dict_mem (name p) (arguments ba) = false ->
  let call := SignatureDecorator.inner prog func args kwargs (self, u) in
  let falls_back :=
    callable v = false
    \/ exists code e, v = VFunc code
         /\ provider_calls (name p) (trace_of call) = [(code, Err e)] in
  exists ba',
    boundarguments (state_of call).1 = Some ba'
    /\ (exists u1, outcome_of call = outcome_of (invoke prog func ba' u1))
    /\ (callable v = false -> provider_calls (name p) (trace_of call) = [])
    /\ (falls_back -> dict_get (name p) (arguments ba') = Some v)
    /\ (falls_back -> plain_configuration kw (signature func) ->
        exists locals, target_starts (trace_of call) = [locals]
                       /\ dict_get (name p) locals = Some v).
Proof.
  intros Hwf HK Hkw Hconf Hb Hp Hin Hmem call falls_back.
  destruct (dynamic_call_facts kw func self args kwargs ba u Hwf HK Hkw Hconf Hb)
    as (tr1 & u1 & a' & Hloop & Hfacts).
  cbn zeta in Hfacts. destruct Hfacts as (Hcall & Hprov & Hlook & Htarget).
  destruct (update_loop_spec prog kw (arguments ba) u Hkw)
    as (tr1' & u1' & a'' & Hloop' & Hkeep & Hrun).
  rewrite Hloop in Hloop'. injection Hloop' as <- <- <-.
  specialize (Hrun _ _ Hin Hmem).
  set (ba' := apply_defaults (with_arguments ba a')) in *.
  assert (Hval : falls_back -> dict_get (name p) (arguments ba') = Some v).
  { intros Hfb. rewrite (Hlook p Hp). unfold effective.
    destruct Hfb as [Hnc|(code & e & -> & Hcalls)].
    - destruct v; try discriminate Hnc; destruct Hrun as [_ ->]; reflexivity.
    - destruct Hrun as (r & Hcalls' & ->).
      subst call. rewrite Hprov, Hcalls' in Hcalls. injection Hcalls as ->.
      reflexivity. }
  exists ba'. split; [|split; [|split; [|split]]].
  - subst call. rewrite Hcall. reflexivity.
  - exists u1. subst call. rewrite Hcall. reflexivity.
  - intros Hnc. subst call. rewrite Hprov.
    destruct v; try discriminate Hnc; apply Hrun.
  - exact Hval.
  - intros Hfb Hplain. destruct (Htarget Hplain) as (locals & Htr & Hloc).
    exists locals. subst call. rewrite Hcall. cbn [trace_of fst].
    change (target_starts (EvCallback ?c ?a :: ?l)) with (target_starts l).
    rewrite target_starts_app, Htr.
    assert (target_starts tr1 = []) as ->.
    { pose proof (update_loop_callees prog kw (arguments ba) u) as Hc.
      rewrite Hloop in Hc. cbn [trace_of fst] in Hc.
      clear -Hc. induction tr1 as [|ev tr IH]; [reflexivity|].
      destruct ev; cbn in Hc |- *; try discriminate Hc; auto. }
    split; [reflexivity|]. apply (Hloc p v Hp), Hval, Hfb.
Qed.

End DynamicDefaultsFacts.

(** *** The theorems at work on the demonstration program *)

(** C3 fails for a parameter the signature requires: [g] declares [x]
    without a default, the provider is configured for [x], and the call
    [g()] does not supply [x]; decoration succeeds, the call fails in the
    binder and the provider is never called. *)
Lemma required_parameter_never_reaches_provider :
  dynamic_defaults Demo.prog Demo.counting_x Demo.g 0
  = ([], 0, Ok (Demo.decorated Demo.counting_x Demo.g,
                SignatureDecorator.inner Demo.prog Demo.g))
  /\ supplied (signature Demo.g) [] [] "x" = false
  /\ SignatureDecorator.inner Demo.prog Demo.g [] []
       (Demo.decorated Demo.counting_x Demo.g, 0)
     = ([], (Demo.decorated Demo.counting_x Demo.g, 0),
        Err (TypeError "missing a required argument: 'x'"))
  /\ provider_calls "x"
       (trace_of (SignatureDecorator.inner Demo.prog Demo.g [] []
                    (Demo.decorated Demo.counting_x Demo.g, 0))) = [].
Proof. repeat split. Qed.

Lemma provider_called_once_when_unsupplied_witness :
  let call := SignatureDecorator.inner Demo.prog Demo.f [VInt 1] []
                (Demo.decorated Demo.counting_b Demo.f, 0) in
  supplied (signature Demo.f) [VInt 1] [] "b" = false
  /\ exists r,
       provider_calls "b" (trace_of call) = [(0, r)]
       /\ forall y, r = Ok y ->
            (exists ba', boundarguments (state_of call).1 = Some ba'
                         /\ dict_get "b" (arguments ba') = Some y)
            /\ (plain_configuration Demo.counting_b (signature Demo.f) ->
                exists locals, target_starts (trace_of call) = [locals]
                               /\ dict_get "b" locals = Some y).
Proof.
  intros call. split; [reflexivity|].
  refine (proj1 (provider_called_once_when_unsupplied Demo.prog
                   Demo.counting_b Demo.f (Demo.decorated Demo.counting_b Demo.f)
                   [VInt 1] []
                   (mkBoundArguments (signature Demo.f) [("a", VInt 1)])
                   (mkParam "b" POSITIONAL_OR_KEYWORD (Some (VInt 2))) 0 0
                   eq_refl _ _ _ eq_refl _ _) eq_refl).
  - apply NoDup_nil_2.
  - apply NoDup_singleton.
  - repeat split.
  - apply list_elem_of_further, list_elem_of_here.
  - apply list_elem_of_here.
Defined.

Lemma provider_failure_falls_back_witness :
  let call := SignatureDecorator.inner Demo.prog Demo.f [VInt 1] []
                (Demo.decorated Demo.failing_b Demo.f, 0) in
  let falls_back :=
    callable (VFunc 1) = false
    \/ exists code e, VFunc 1 = VFunc code
         /\ provider_calls "b" (trace_of call) = [(code, Err e)] in
  falls_back
  /\ exists ba',
       boundarguments (state_of call).1 = Some ba'
       /\ (exists u1, outcome_of call = outcome_of (invoke Demo.prog Demo.f ba' u1))
       /\ (callable (VFunc 1) = false -> provider_calls "b" (trace_of call) = [])
       /\ (falls_back -> dict_get "b" (arguments ba') = Some (VFunc 1))
       /\ (falls_back -> plain_configuration Demo.failing_b (signature Demo.f) ->
           exists locals, target_starts (trace_of call) = [locals]
                          /\ dict_get "b" locals = Some (VFunc 1)).
Proof.
  intros call falls_back. split.
  - right. exists 1, (UserError 1). split; reflexivity.
  - refine (provider_failure_falls_back Demo.prog
              Demo.failing_b Demo.f (Demo.decorated Demo.failing_b Demo.f)
              [VInt 1] []
              (mkBoundArguments (signature Demo.f) [("a", VInt 1)])
              (mkParam "b" POSITIONAL_OR_KEYWORD (Some (VInt 2))) (VFunc 1) 0
              eq_refl _ _ _ eq_refl _ _ eq_refl).
    + apply NoDup_nil_2.
    + apply NoDup_singleton.
    + repeat split.
    + apply list_elem_of_further, list_elem_of_here.
    + apply list_elem_of_here.
Defined.

Lemma defaults_before_first_callback_witness :
  (exists ba1 tr,
      trace_of (signature_decorator_factory Demo.prog [UserCallback 1] true
                  Demo.f [VInt 1] [] 0)
      = EvCallback (UserCallback 1) (ArgBoundArguments ba1) :: tr
      /\ forall p d, p ∈ signature Demo.f -> default p = Some d ->
           supplied (signature Demo.f) [VInt 1] [] (name p) = false ->
           dict_get (name p) (arguments ba1) = Some d)
  /\ (exists tr,
      trace_of (signature_decorator_factory Demo.prog [UserCallback 1] false
                  Demo.f [VInt 1] [] 0)
      = EvCallback (UserCallback 1)
          (ArgBoundArguments (mkBoundArguments (signature Demo.f) [("a", VInt 1)]))
          :: tr
      /\ forall p, p ∈ signature Demo.f ->
           supplied (signature Demo.f) [VInt 1] [] (name p) = false ->
           dict_get (name p) [("a", VInt 1)] = None).
Proof.
  pose proof (defaults_before_first_callback Demo.prog Demo.f [VInt 1] []
                (mkBoundArguments (signature Demo.f) [("a", VInt 1)])
                (UserCallback 1) [] 0 eq_refl (NoDup_nil_2 (A:=string)) eq_refl)
    as (Hon & Hoff & _).
  split; [exact Hon|exact Hoff].
Defined.

Lemma no_callback_is_identity_witness :
  signature_decorator_factory Demo.prog [] false Demo.h
    [VInt 1; VInt 2; VInt 3] [("k", VInt 4); ("z", VInt 5)] 0
  = call_function Demo.prog Demo.h
      [VInt 1; VInt 2; VInt 3] [("k", VInt 4); ("z", VInt 5)] 0.
Proof.
  apply (no_callback_is_identity Demo.prog Demo.h
           [VInt 1; VInt 2; VInt 3] [("k", VInt 4); ("z", VInt 5)]
           (mkBoundArguments (signature Demo.h)
              [("p", VInt 1); ("a", VInt 2); ("rest", VTuple [VInt 3]);
               ("k", VInt 4); ("kw", VDict [("z", VInt 5)])]) 0);
    [reflexivity| |reflexivity].
  apply (bool_decide_unpack _). reflexivity.
Defined.

(** C10 fails for a call the function accepts and the binder refuses: the
    name of a positional-only parameter passed as a keyword, which the
    function collects in its variable-keyword parameter. *)
Lemma undecorated_call_accepts_more :
  let direct := call_function Demo.prog Demo.h2 []
                  [("p", VInt 5); ("z", VInt 6)] 0 in
  let wrapped := signature_decorator_factory Demo.prog [] false Demo.h2 []
                   [("p", VInt 5); ("z", VInt 6)] 0 in
  outcome_of direct
  = Ok (VDict [("p", VInt 1); ("kw", VDict [("p", VInt 5); ("z", VInt 6)])])
  /\ outcome_of wrapped
     = Err (TypeError "'p' parameter is positional only, but was passed as a keyword").
Proof. split; reflexivity. Qed.



(** *** A callback that raises *)

Section FailingCallback.
Context {U : Type} (prog : Program U).

Lemma run_callbacks_raise cb post e : forall pre ba (u : U) tr1 u1 ba1 tr2 u2,
  run_callbacks prog pre ba u = (tr1, u1, Ok ba1) ->
  call_callback prog cb (ArgBoundArguments ba1) u1 = (tr2, u2, Err e) ->
  run_callbacks prog (pre ++ cb :: post) ba u = (tr1 ++ tr2, u2, Err e).
Proof.
  induction pre as [|c pre IH]; intros ba u tr1 u1 ba1 tr2 u2.
  - intros [= <- <- <-] Hcb. cbn [app]. rewrite run_callbacks_step. cbn zeta.
    rewrite Hcb. reflexivity.
  - rewrite run_callbacks_step. cbn zeta.
    destruct (call_callback prog c (ArgBoundArguments ba) u) as [[tr0 u0] [e0|a0]] eqn:Hc;
      cbn [trace_of state_of outcome_of fst snd]; [discriminate|].
    intros [= <- Hs Ho] Hcb.
    change ((c :: pre) ++ cb :: post) with (c :: (pre ++ cb :: post)).
    rewrite run_callbacks_step. cbn zeta. rewrite Hc.
    cbn [trace_of state_of outcome_of fst snd].
    rewrite (IH (with_arguments ba a0) u0 (trace_of (run_callbacks prog pre (with_arguments ba a0) u0))
                u1 ba1 tr2 u2); [|rewrite (triple_eta (run_callbacks _ _ _ _)), Hs, Ho; reflexivity|exact Hcb].
    cbn [trace_of state_of outcome_of fst snd]. rewrite app_assoc. reflexivity.
Qed.

Lemma class_run_callbacks_raise cb post e : forall pre ba self (u : U) tr1 self1 u1 ba1 tr2 u2,
  SignatureDecorator.run_callbacks prog pre ba (self, u) = (tr1, (self1, u1), Ok ba1) ->
  call_callback prog cb (class_arg self1 ba1) u1 = (tr2, u2, Err e) ->
  SignatureDecorator.run_callbacks prog (pre ++ cb :: post) ba (self, u)
  = (tr1 ++ tr2, (self1, u2), Err e).
Proof.
  induction pre as [|c pre IH]; intros ba self u tr1 self1 u1 ba1 tr2 u2.
  - intros [= <- <- <- <-] Hcb. cbn [app]. rewrite class_run_callbacks_step. cbn zeta.
    rewrite Hcb. reflexivity.
  - rewrite class_run_callbacks_step. cbn zeta.
    destruct (call_callback prog c (class_arg self ba) u) as [[tr0 u0] [e0|a0]] eqn:Hc;
      cbn [trace_of state_of outcome_of fst snd]; [discriminate|].
    intros [= <- Hs Ho] Hcb.
    change ((c :: pre) ++ cb :: post) with (c :: (pre ++ cb :: post)).
    rewrite class_run_callbacks_step. cbn zeta. rewrite Hc.
    cbn [trace_of state_of outcome_of fst snd].
    rewrite (IH (with_arguments ba a0)
                (SignatureDecorator.set_boundarguments (with_arguments ba a0) self) u0
                (trace_of (SignatureDecorator.run_callbacks prog pre (with_arguments ba a0)
                             (SignatureDecorator.set_boundarguments (with_arguments ba a0) self, u0)))
                self1 u1 ba1 tr2 u2);
      [|rewrite (triple_eta (SignatureDecorator.run_callbacks _ _ _ _)), Hs, Ho; reflexivity
       |exact Hcb].
    cbn [trace_of state_of outcome_of fst snd]. rewrite app_assoc. reflexivity.
Qed.

(** X1.  When a callback raises, the decorated call ends with that
    exception at once: the callbacks registered after it are not called
    and the target is not called.  [pre] are the callbacks registered
    before [cb]; they return, then [cb] raises [e].  First the
    function-based factory, then an instance of the class bound to the
    function. *)
Theorem callback_failure_stops_the_call pre cb post func args kw ba e :
  bind (signature func) args kw = Ok ba ->
  (forall (apply_defaults : bool) (u : U) tr1 u1 ba1 tr2 u2,
      run_callbacks prog pre
        (if apply_defaults then Inspect.apply_defaults ba else ba) u
        = (tr1, u1, Ok ba1) ->
      call_callback prog cb (ArgBoundArguments ba1) u1 = (tr2, u2, Err e) ->
      signature_decorator_factory prog (pre ++ cb :: post) apply_defaults
                                  func args kw u
      = (tr1 ++ tr2, u2, Err e)
      /\ callees (tr1 ++ tr2) = map CallbackCall pre ++ [CallbackCall cb])
  /\ (forall self (u : U) tr1 self1 u1 ba1 tr2 u2,
      bound_to self func ->
      _callbacks self = pre ++ cb :: post ->
      let ba0 := if _apply_defaults self then Inspect.apply_defaults ba else ba in
      SignatureDecorator.run_callbacks prog pre ba0
        (SignatureDecorator.set_boundarguments ba0 self, u)
        = (tr1, (self1, u1), Ok ba1) ->
      call_callback prog cb (class_arg self1 ba1) u1 = (tr2, u2, Err e) ->
      SignatureDecorator.inner prog func args kw (self, u)
      = (tr1 ++ tr2, (self1, u2), Err e)
      /\ callees (tr1 ++ tr2) = map CallbackCall pre ++ [CallbackCall cb]).
Proof.
  intros Hb. split.
  - intros apply_defaults u tr1 u1 ba1 tr2 u2 Hpre Hcb. split.
    + rewrite (factory_inner_unfold prog _ _ _ _ _ ba u Hb).
      apply mbind_err. eapply run_callbacks_raise; eassumption.
    + rewrite callees_app, (run_callbacks_callees prog _ _ _ _ _ _ Hpre).
      pose proof (call_callback_callees prog cb (ArgBoundArguments ba1) u1) as Hc.
      rewrite Hcb in Hc. cbn [trace_of fst] in Hc. rewrite Hc. reflexivity.
  - intros self u tr1 self1 u1 ba1 tr2 u2 [_ Hs] Hcbs ba0 Hpre Hcb. split.
    + rewrite (class_inner_unfold prog self func _ args kw ba u Hs Hb).
      fold ba0. rewrite Hcbs.
      apply mbind_err. eapply class_run_callbacks_raise; eassumption.
    + rewrite callees_app, (class_run_callbacks_callees prog _ _ _ _ _ _ _ Hpre).
      pose proof (call_callback_callees prog cb (class_arg self1 ba1) u1) as Hc.
      rewrite Hcb in Hc. cbn [trace_of fst] in Hc. rewrite Hc. reflexivity.
Qed.

End FailingCallback.

Lemma callback_failure_stops_the_call_witness :
  signature_decorator_factory Demo.prog
    ([UserCallback 0] ++ UserCallback 2 :: [UserCallback 1]) false
    Demo.f [VInt 1] [] 0
  = ([EvCallback (UserCallback 0)
        (ArgBoundArguments (mkBoundArguments (signature Demo.f) [("a", VInt 1)]))]
     ++ [EvCallback (UserCallback 2)
           (ArgBoundArguments
              (mkBoundArguments (signature Demo.f) [("a", VInt 1); ("b", VInt 99)]))],
     0, Err (UserError 7))
  /\ callees
       ([EvCallback (UserCallback 0)
           (ArgBoundArguments (mkBoundArguments (signature Demo.f) [("a", VInt 1)]))]
        ++ [EvCallback (UserCallback 2)
              (ArgBoundArguments
                 (mkBoundArguments (signature Demo.f) [("a", VInt 1); ("b", VInt 99)]))])
     = map CallbackCall [UserCallback 0] ++ [CallbackCall (UserCallback 2)].
Proof.
  exact (proj1 (callback_failure_stops_the_call Demo.prog
                  [UserCallback 0] (UserCallback 2) [UserCallback 1]
                  Demo.f [VInt 1] []
                  (mkBoundArguments (signature Demo.f) [("a", VInt 1)])
                  (UserError 7) eq_refl)
           false 0 _ _ _ _ _ eq_refl eq_refl).
Defined.

(** *** The class against the function-based factory *)

Section ClassAsFactory.
Context {U : Type} (prog : Program U).

Lemma class_run_callbacks_plain callbacks : forall ba self (u : U),
  _apply_self self = false ->
  let c := SignatureDecorator.run_callbacks prog callbacks ba (self, u) in
  let f := run_callbacks prog callbacks ba u in
  trace_of c = trace_of f /\ (state_of c).2 = state_of f
  /\ outcome_of c = outcome_of f.
Proof.
  induction callbacks as [|cb rest IH]; intros ba self u Hself c f.
  - repeat split.
  - subst c f. rewrite class_run_callbacks_step, run_callbacks_step. cbn zeta.
    unfold class_arg. rewrite Hself.
    destruct (call_callback prog cb (ArgBoundArguments ba) u) as [[tr0 u0] [e0|a0]];
      cbn [trace_of state_of outcome_of fst snd]; [repeat split|].
    destruct (IH (with_arguments ba a0)
                 (SignatureDecorator.set_boundarguments (with_arguments ba a0) self)
                 u0 Hself) as (Ht & Hs & Ho).
    rewrite Ht, Hs, Ho. repeat split.
Qed.

(** X2.  An instance of the class that hands the bound arguments to its
    callbacks ([apply_self] off) decorates as the function-based factory
    does with the same callbacks and flag: on every call the two make the
    same calls with the same data, leave the same program state and end
    with the same value or exception. *)
Theorem class_without_apply_self_is_the_function_factory
    self func args kw (u : U) :
  bound_to self func ->
  _apply_self self = false ->
  let c := SignatureDecorator.inner prog func args kw (self, u) in
  let f := signature_decorator_factory prog (_callbacks self)
             (_apply_defaults self) func args kw u in
  trace_of c = trace_of f /\ (state_of c).2 = state_of f
  /\ outcome_of c = outcome_of f.
Proof.
  intros [Hf Hs] Hself c f. subst c f.
  destruct (bind (signature func) args kw) as [e|ba] eqn:Hb.
  - unfold SignatureDecorator.inner, signature_decorator_factory, decorator, inner.
    rewrite mbind_this. cbn [fst]. unfold SignatureDecorator.signature.
    rewrite Hs, !mbind_of_result, Hb. repeat split.
  - rewrite (class_inner_unfold prog self func _ args kw ba u Hs Hb).
    rewrite (factory_inner_unfold prog _ _ _ _ _ ba u Hb). cbn zeta.
    set (ba0 := if _apply_defaults self then Inspect.apply_defaults ba else ba).
    destruct (class_run_callbacks_plain (_callbacks self) ba0
                (SignatureDecorator.set_boundarguments ba0 self) u Hself)
      as (Ht & Hst & Ho).
    unfold mbind'.
    destruct (SignatureDecorator.run_callbacks prog (_callbacks self) ba0 _)
      as [[tr1 [self1 u1]] r1].
    destruct (run_callbacks prog (_callbacks self) ba0 u) as [[tr2 u2] r2].
    cbn [trace_of state_of outcome_of fst snd] in Ht, Hst, Ho. subst tr2 u2 r2.
    destruct r1 as [e|ba1]; [repeat split|].
    unfold outside. cbn [fst snd].
    destruct (invoke prog func ba1 u1) as [[tr3 u3] r3]. repeat split.
Qed.

End ClassAsFactory.

Lemma class_without_apply_self_is_the_function_factory_witness :
  let self := SignatureDecorator.set_signature (signature Demo.f)
                (SignatureDecorator.set_func Demo.f
                   (SignatureDecorator.__init__
                      [UserCallback 0; UserCallback 1] true false)) in
  let c := SignatureDecorator.inner Demo.prog Demo.f [VInt 1] [] (self, 0) in
  let f := signature_decorator_factory Demo.prog [UserCallback 0; UserCallback 1]
             true Demo.f [VInt 1] [] 0 in
  trace_of c = trace_of f /\ (state_of c).2 = state_of f
  /\ outcome_of c = outcome_of f.
Proof.
  intros self.
  apply (class_without_apply_self_is_the_function_factory Demo.prog self Demo.f
           [VInt 1] [] 0); [split; reflexivity|reflexivity].
Defined.

(** *** Decorating with [dynamic_defaults] *)

Section Decoration.
Context {U : Type} (prog : Program U).

Lemma ondecoration_loop_first pre k post params sigdecor func :
  _func sigdecor = Some func ->
  Forall (fun k' => k' ∈ param_names params) pre ->
  k ∉ param_names params ->
  ondecoration_loop (pre ++ k :: post) params sigdecor
  = Err (TypeError (unexpected_keyword (__name__ func) k)).
Proof.
  intros Hf Hpre Hk. induction Hpre as [|k0 pre Hk0 _ IH].
  - cbn. unfold has_parameter. rewrite bool_decide_eq_false_2 by exact Hk.
    cbn. rewrite Hf. reflexivity.
  - cbn. unfold has_parameter. rewrite bool_decide_eq_true_2 by exact Hk0.
    cbn. exact IH.
Qed.

Lemma dynamic_defaults_unfold kw func (u : U) :
  dynamic_defaults prog kw func u
  = match ondecoration_loop (keys kw) (signature func) (Demo.decorated kw func) with
    | inl e => ([], u, Err e)
    | inr _ => ([], u, Ok (Demo.decorated kw func, SignatureDecorator.inner prog func))
    end.
Proof.
  unfold dynamic_defaults, SignatureDecorator.factory.
  rewrite call_unset by reflexivity.
  unfold mbind', ondecoration, of_result.
  cbn [_signature SignatureDecorator.set_signature].
  fold (Demo.decorated kw func).
  destruct (ondecoration_loop _ _ _); reflexivity.
Qed.

(** X3.  Decorating with [dynamic_defaults] runs nothing of the user
    program and leaves its state alone: no provider is called at
    decoration time.  It returns a decorated function exactly when every
    configured name is a parameter of the target, and then the instance it
    made is bound to the target, holds [update] as its only callback, has
    [apply_defaults] off and [apply_self] on, and holds no bound arguments
    yet. *)
Theorem decoration_succeeds_iff_names_known kw func (u : U) :
  let d := dynamic_defaults prog kw func u in
  trace_of d = [] /\ state_of d = u
  /\ ((exists inst deco, outcome_of d = Ok (inst, deco))
      <-> Forall (fun k => k ∈ param_names (signature func)) (keys kw))
  /\ (forall inst deco, outcome_of d = Ok (inst, deco) ->
        configured_by kw func inst
        /\ deco = SignatureDecorator.inner prog func
        /\ boundarguments inst = None).
Proof.
  intros d. subst d. rewrite dynamic_defaults_unfold.
  destruct (ondecoration_loop (keys kw) (signature func) (Demo.decorated kw func))
    as [e|[]] eqn:Hloop; cbn [trace_of state_of outcome_of fst snd].
  - split; [reflexivity|]. split; [reflexivity|]. split.
    + split; [intros (inst & deco & H); discriminate H|].
      intros Hall. rewrite ondecoration_loop_ok in Hloop by exact Hall.
      discriminate Hloop.
    + intros inst deco H. discriminate H.
  - split; [reflexivity|]. split; [reflexivity|]. split.
    + split; [|eauto]. intros _.
      apply Forall_forall. intros k Hk.
      destruct (decide (k ∈ param_names (signature func))) as [|Hno]; [assumption|].
      destruct (ondecoration_loop_unknown (keys kw) (signature func)
                  (Demo.decorated kw func) func k eq_refl Hk Hno)
        as (k' & _ & _ & Heq).
      rewrite Heq in Hloop. discriminate Hloop.
    + intros inst deco [= <- <-]. repeat split.
Qed.

(** X4.  The names are checked in configuration order and the error names
    the first one that is not a parameter of the target, together with the
    target: the names before it are parameters, whatever comes after it is
    not looked at. *)
Theorem first_unknown_name_is_reported pre k v post func (u : U) :
  Forall (fun k' => k' ∈ param_names (signature func)) (keys pre) ->
  k ∉ param_names (signature func) ->
  dynamic_defaults prog (pre ++ (k, v) :: post) func u
  = ([], u, Err (TypeError (unexpected_keyword (__name__ func) k))).
Proof.
  intros Hpre Hk. rewrite dynamic_defaults_unfold.
  unfold keys. rewrite map_app. cbn [map fst].
  rewrite (ondecoration_loop_first (map fst pre) k (map fst post) (signature func)
             (Demo.decorated (pre ++ (k, v) :: post) func) func eq_refl Hpre Hk).
  reflexivity.
Qed.

End Decoration.

Lemma first_unknown_name_is_reported_witness :
  dynamic_defaults Demo.prog ([("a", VInt 1)] ++ ("c", VInt 2) :: [("d", VInt 3)])
                   Demo.f 0
  = ([], 0, Err (TypeError (unexpected_keyword "f" "c"))).
Proof.
  apply (first_unknown_name_is_reported Demo.prog [("a", VInt 1)] "c" (VInt 2)
           [("d", VInt 3)] Demo.f 0).
  - apply Forall_cons. split; [apply list_elem_of_here|apply Forall_nil_2].
  - apply (bool_decide_unpack _). reflexivity.
Defined.

(** *** More on the calls of a dynamically defaulted function *)

Lemma target_starts_no_callee tr : callees tr = [] -> target_starts tr = [].
Proof.
  induction tr as [|ev tr IH]; [reflexivity|].
  destruct ev; cbn; try discriminate; auto.
Qed.

Lemma effective_present p A v : dict_get (name p) A = Some v -> effective p A = Some v.
Proof. intros H. unfold effective. rewrite H. reflexivity. Qed.

Lemma keys_effective_full X (R : list Param) :
  (forall p, p ∈ R -> exists v, effective p X = Some v) ->
  keys (omap (fun q => pair (name q) <$> effective q X) R) = param_names R.
Proof.
  induction R as [|q R IH]; intros Hall; [reflexivity|].
  rewrite effective_list_cons.
  destruct (Hall q (list_elem_of_here _ _)) as [v ->].
  cbn. f_equal. apply IH. intros p Hp. apply Hall. right. exact Hp.
Qed.

Section DynamicDefaultsMore.
Context {U : Type} (prog : Program U).

Lemma dynamic_call_summary kw func self args kwargs ba (u : U) :
  wf_signature (signature func) = true ->
  NoDup (keys kwargs) -> NoDup (keys kw) ->
  configured_by kw func self ->
  bind (signature func) args kwargs = Ok ba ->
  exists tr1 u1 a',
    update_loop prog kw (arguments ba) u = (tr1, u1, Ok a')
    /\ (forall x, dict_mem x (arguments ba) = true \/ x ∉ keys kw ->
          dict_get x a' = dict_get x (arguments ba))
    /\ let ba' := apply_defaults (mkBoundArguments (signature func) a') in
       let call := SignatureDecorator.inner prog func args kwargs (self, u) in
       state_of call
       = (SignatureDecorator.set_boundarguments ba' self,
          state_of (invoke prog func ba' u1))
       /\ trace_of call
          = EvCallback (Update kw)
              (ArgSelf (SignatureDecorator.set_boundarguments ba self))
              :: tr1 ++ trace_of (invoke prog func ba' u1)
       /\ (forall p, p ∈ signature func ->
             dict_get (name p) (arguments ba') = effective p a')
       /\ (plain_configuration kw (signature func) ->
           exists locals,
             target_starts (trace_of call) = [locals]
             /\ forall p v, p ∈ signature func ->
                  dict_get (name p) (arguments ba') = Some v ->
                  dict_get (name p) locals = Some v).
Proof.
  intros Hwf HK Hkw Hconf Hb.
  destruct (dynamic_call_facts prog kw func self args kwargs ba u Hwf HK Hkw Hconf Hb)
    as (tr1 & u1 & a' & Hloop & Hfacts).
  cbn zeta in Hfacts. destruct Hfacts as (Hcall & _ & Hlook & Htarget).
  destruct (update_loop_spec prog kw (arguments ba) u Hkw)
    as (tr1' & u1' & a'' & Hloop' & Hkeep & _).
  rewrite Hloop in Hloop'. injection Hloop' as <- <- <-.
  destruct (bind_shaped _ _ _ _ Hwf HK Hb) as [Hsig _].
  assert (Hba' : apply_defaults (with_arguments ba a')
                 = apply_defaults (mkBoundArguments (signature func) a')).
  { unfold with_arguments. rewrite Hsig. reflexivity. }
  rewrite Hba' in *.
  exists tr1, u1, a'. split; [exact Hloop|]. split; [intros x Hx; apply Hkeep, Hx|].
  cbn zeta. rewrite Hcall. cbn [state_of trace_of fst snd].
  split; [reflexivity|]. split; [reflexivity|]. split; [exact Hlook|].
  intros Hplain. destruct (Htarget Hplain) as (locals & Htr & Hloc).
  exists locals. split; [|exact Hloc].
  change (target_starts (EvCallback ?c ?a :: ?l)) with (target_starts l).
  rewrite target_starts_app, Htr.
  rewrite target_starts_no_callee; [reflexivity|].
  pose proof (update_loop_callees prog kw (arguments ba) u) as Hc.
  rewrite Hloop in Hc. exact Hc.
Qed.

(** X5.  [dynamic_defaults] never touches an argument the call supplies:
    whatever is configured under its name, a supplied parameter holds, in
    the bound arguments the call ends with, the value the binder gave it;
    and, when no configured name is a variadic parameter, the target body
    starts with that value. *)
Theorem supplied_arguments_are_kept kw func self args kwargs ba p (u : U) :
  wf_signature (signature func) = true ->
  NoDup (keys kwargs) -> NoDup (keys kw) ->
  configured_by kw func self ->
  bind (signature func) args kwargs = Ok ba ->
  p ∈ signature func ->
  supplied (signature func) args kwargs (name p) = true ->
  let call := SignatureDecorator.inner prog func args kwargs (self, u) in
  exists v ba',
    dict_get (name p) (arguments ba) = Some v
    /\ boundarguments (state_of call).1 = Some ba'
    /\ dict_get (name p) (arguments ba') = Some v
    /\ (plain_configuration kw (signature func) ->
        exists locals, target_starts (trace_of call) = [locals]
                       /\ dict_get (name p) locals = Some v).
Proof.
  intros Hwf HK Hkw Hconf Hb Hp Hsup call.
  destruct (dynamic_call_summary kw func self args kwargs ba u Hwf HK Hkw Hconf Hb)
    as (tr1 & u1 & a' & Hloop & Hkeep & Hst & Htr & Hlook & Htarget).
  pose proof (bind_present_iff_supplied _ _ _ _ p Hwf HK Hb Hp) as Hmem.
  rewrite Hsup in Hmem.
  destruct (dict_get (name p) (arguments ba)) as [v|] eqn:Hv;
    [|unfold dict_mem in Hmem; rewrite Hv in Hmem; discriminate].
  assert (Hfinal : dict_get (name p)
                     (arguments (apply_defaults (mkBoundArguments (signature func) a')))
                   = Some v).
  { rewrite (Hlook p Hp). apply effective_present.
    rewrite (Hkeep (name p) (or_introl Hmem)). exact Hv. }
  exists v. eexists. split; [reflexivity|]. subst call.
  split; [rewrite Hst; reflexivity|]. split; [exact Hfinal|].
  intros Hplain. destruct (Htarget Hplain) as (locals & Hstart & Hloc).
  exists locals. split; [exact Hstart|]. apply (Hloc p v Hp Hfinal).
Qed.

(** X6.  [update] ends by applying the declared defaults: a parameter that
    the call does not supply and that is not configured holds its declared
    default in the bound arguments the call ends with, and, when no
    configured name is a variadic parameter, in the target body. *)
Theorem unconfigured_parameters_get_declared_defaults
    kw func self args kwargs ba p d (u : U) :
  wf_signature (signature func) = true ->
  NoDup (keys kwargs) -> NoDup (keys kw) ->
  configured_by kw func self ->
  bind (signature func) args kwargs = Ok ba ->
  p ∈ signature func ->
  name p ∉ keys kw ->
  supplied (signature func) args kwargs (name p) = false ->
  default p = Some d ->
  let call := SignatureDecorator.inner prog func args kwargs (self, u) in
  exists ba',
    boundarguments (state_of call).1 = Some ba'
    /\ dict_get (name p) (arguments ba') = Some d
    /\ (plain_configuration kw (signature func) ->
        exists locals, target_starts (trace_of call) = [locals]
                       /\ dict_get (name p) locals = Some d).
Proof.
  intros Hwf HK Hkw Hconf Hb Hp Hout Hsup Hd call.
  destruct (dynamic_call_summary kw func self args kwargs ba u Hwf HK Hkw Hconf Hb)
    as (tr1 & u1 & a' & Hloop & Hkeep & Hst & Htr & Hlook & Htarget).
  pose proof (bind_unsupplied _ _ _ _ p Hwf HK Hb Hp Hsup) as Hnone.
  assert (Hfinal : dict_get (name p)
                     (arguments (apply_defaults (mkBoundArguments (signature func) a')))
                   = Some d).
  { rewrite (Hlook p Hp). unfold effective.
    rewrite (Hkeep (name p) (or_intror Hout)), Hnone, Hd. reflexivity. }
  eexists. subst call. split; [rewrite Hst; reflexivity|]. split; [exact Hfinal|].
  intros Hplain. destruct (Htarget Hplain) as (locals & Hstart & Hloc).
  exists locals. split; [exact Hstart|]. apply (Hloc p d Hp Hfinal).
Qed.

(** X7.  A call that matches the signature ends with bound arguments that
    give a value to every parameter of the target, listed in the order of
    the signature and with nothing else: what [update] leaves is complete. *)
Theorem dynamic_call_binds_every_parameter kw func self args kwargs ba (u : U) :
  wf_signature (signature func) = true ->
  NoDup (keys kwargs) -> NoDup (keys kw) ->
  configured_by kw func self ->
  bind (signature func) args kwargs = Ok ba ->
  let call := SignatureDecorator.inner prog func args kwargs (self, u) in
  exists ba',
    boundarguments (state_of call).1 = Some ba'
    /\ ba_signature ba' = signature func
    /\ keys (arguments ba') = param_names (signature func)
    /\ forall p, p ∈ signature func ->
         exists v, dict_get (name p) (arguments ba') = Some v.
Proof.
  intros Hwf HK Hkw Hconf Hb call.
  destruct (dynamic_call_summary kw func self args kwargs ba u Hwf HK Hkw Hconf Hb)
    as (tr1 & u1 & a' & Hloop & Hkeep & Hst & Htr & Hlook & Htarget).
  destruct (bind_shaped _ _ _ _ Hwf HK Hb) as [Hsig Hsh].
  pose proof (wf_signature_spec _ Hwf) as (_ & Hnd & _).
  assert (Hall : forall p, p ∈ signature func -> exists v, effective p a' = Some v).
  { intros p Hp.
    destruct (dict_get (name p) (arguments ba)) as [v|] eqn:Hv.
    - exists v. apply effective_present.
      rewrite (Hkeep (name p)); [exact Hv|]. left. unfold dict_mem. rewrite Hv.
      reflexivity.
    - unfold shaped in Hsh. apply andb_true_iff in Hsh as [Hsh _].
      pose proof (shaped_values _ _ _ p Hsh Hp) as Hshape. rewrite Hv in Hshape.
      unfold effective. destruct (dict_get (name p) a') as [v|]; [eauto|].
      destruct (default p) as [d|] eqn:Hd; [eauto|].
      destruct Hshape as [Hvar|Hdef];
        [|unfold has_default in Hdef; rewrite Hd in Hdef; discriminate].
      unfold is_variadic in Hvar. destruct (pkind p); try discriminate; eauto. }
  eexists. subst call. split; [rewrite Hst; reflexivity|]. split; [reflexivity|].
  split.
  - unfold apply_defaults. cbn [arguments ba_signature].
    rewrite defaults_loop_effective.
    rewrite dict_update_fresh;
      [|apply NoDup_keys_effective_list, Hnd|intros k _; apply not_elem_of_nil].
    cbn [app]. apply keys_effective_full, Hall.
  - intros p Hp. rewrite (Hlook p Hp). apply Hall, Hp.
Qed.

End DynamicDefaultsMore.

(** *** The order of the providers *)

Lemma provider_events_app tr1 tr2 :
  provider_events (tr1 ++ tr2) = provider_events tr1 ++ provider_events tr2.
Proof. unfold provider_events. apply omap_app. Qed.


Lemma due_set k v kw a : k ∉ keys kw -> due kw (dict_set k v a) = due kw a.
Proof.
  induction kw as [|[k0 v0] kw IH]; intros Hk; [reflexivity|].
  cbn [keys map fst] in Hk. apply not_elem_of_cons in Hk as [Hne Hk].
  unfold due. cbn [omap list_omap]. fold (due kw (dict_set k v a)). fold (due kw a).
  rewrite (IH Hk). unfold due_provider.
  destruct v0; try reflexivity.
  rewrite dict_mem_set_ne by congruence. reflexivity.
Qed.

Section ProviderOrder.
Context {U : Type} (prog : Program U).

Lemma update_loop_providers kw : forall a (u : U),
  NoDup (keys kw) ->
  provider_events (trace_of (update_loop prog kw a u)) = due kw a.
Proof.
  induction kw as [|[k v] kw IH]; intros a u Hnd; [reflexivity|].
  cbn [keys map fst] in Hnd. apply NoDup_cons in Hnd as [Hk Hnd].
  rewrite update_loop_step. cbn zeta.
  unfold due. cbn [omap list_omap]. fold (due kw a).
  destruct (dict_mem k a) eqn:Hmem.
  - rewrite update_item_present by exact Hmem.
    cbn [trace_of state_of outcome_of fst snd app].
    rewrite (IH a u Hnd). unfold due_provider. rewrite Hmem.
    destruct v; reflexivity.
  - destruct (callable v) eqn:Hv.
    + destruct v; try discriminate Hv.
      rewrite update_item_provider by exact Hmem.
      cbn [trace_of state_of outcome_of fst snd].
      rewrite provider_events_app, (IH _ _ Hnd), (due_set _ _ _ _ Hk).
      unfold due_provider. rewrite Hmem. reflexivity.
    + rewrite update_item_literal by assumption.
      cbn [trace_of state_of outcome_of fst snd app].
      rewrite (IH _ _ Hnd), (due_set _ _ _ _ Hk).
      unfold due_provider. destruct v; try discriminate Hv; reflexivity.
Qed.

Lemma provider_events_invoke func ba (u : U) :
  provider_events (trace_of (invoke prog func ba u)) = [].
Proof.
  unfold invoke. rewrite mbind_of_result.
  destruct (args ba) as [e|args']; [reflexivity|].
  rewrite mbind_of_result.
  destruct (kwargs ba) as [e|kwargs']; [reflexivity|].
  pose proof (call_function_trace prog func args' kwargs' u) as H.
  destruct (match_call (signature func) args' kwargs'); rewrite H; reflexivity.
Qed.

(** X8.  On a call that matches the signature, the providers called are
    exactly the callables configured under the names the binder left
    absent, each called once, in the order of the configuration; a
    provider's outcome does not change which providers come after it. *)
Theorem providers_run_in_configuration_order
    kw func self args kwargs ba (u : U) :
  NoDup (keys kw) ->
  configured_by kw func self ->
  bind (signature func) args kwargs = Ok ba ->
  provider_events
    (trace_of (SignatureDecorator.inner prog func args kwargs (self, u)))
  = due kw (arguments ba).
Proof.
  intros Hkw Hconf Hb.
  destruct (update_loop_ok prog kw (arguments ba) u) as [a' Ha].
  destruct (update_loop prog kw (arguments ba) u) as [[tr1 u1] r] eqn:Hloop.
  cbn [outcome_of snd] in Ha. subst r.
  rewrite (dynamic_call prog kw func self args kwargs ba u tr1 u1 a' Hconf Hb Hloop).
  cbn [trace_of fst].
  change (provider_events (EvCallback ?c ?a :: ?l)) with (provider_events l).
  rewrite provider_events_app, provider_events_invoke, app_nil_r.
  pose proof (update_loop_providers kw (arguments ba) u Hkw) as H.
  rewrite Hloop in H. exact H.
Qed.

End ProviderOrder.

(** *** A parameter without a default *)

Lemma absent_needs_default R A : forall gap p,
  shaped_from gap R A = true -> p ∈ R ->
  dict_get (name p) A = None ->
  is_variadic p = true \/ has_default p = true.
Proof.
  intros gap p Hsh Hp Hnone.
  pose proof (shaped_values A R gap p Hsh Hp) as H. rewrite Hnone in H. exact H.
Qed.

Section RequiredParameter.
Context {U : Type} (prog : Program U).

(** X9.  A decorator cannot stand in for an argument the signature
    requires.  If the call does not supply a parameter that declares no
    default (and is not variadic), binding fails: the decorated call raises
    the binder's [TypeError] with nothing run, whatever callbacks the
    instance holds; in particular a provider that [dynamic_defaults]
    configures for that parameter is never called. *)
Theorem required_parameter_must_be_supplied
    self func args kwargs p (u : U) :
  wf_signature (signature func) = true ->
  NoDup (keys kwargs) ->
  bound_to self func ->
  p ∈ signature func ->
  default p = None -> is_variadic p = false ->
  supplied (signature func) args kwargs (name p) = false ->
  exists e,
    is_TypeError e = true
    /\ bind (signature func) args kwargs = Err e
    /\ SignatureDecorator.inner prog func args kwargs (self, u)
       = ([], (self, u), Err e)
    /\ forall callbacks (apply_defaults : bool),
         signature_decorator_factory prog callbacks apply_defaults
                                     func args kwargs u
         = ([], u, Err e).
Proof.
  intros Hwf HK [_ Hs] Hp Hd Hvar Hsup.
  destruct (bind (signature func) args kwargs) as [e|ba] eqn:Hb.
  - exists e. split; [eapply bind_error, Hb|]. split; [reflexivity|]. split.
    + unfold SignatureDecorator.inner. rewrite mbind_this. cbn [fst].
      unfold SignatureDecorator.signature. rewrite Hs, mbind_of_result, Hb.
      reflexivity.
    + intros callbacks apply_defaults.
      unfold signature_decorator_factory, decorator, inner.
      rewrite mbind_of_result, Hb. reflexivity.
  - exfalso.
    destruct (bind_shaped _ _ _ _ Hwf HK Hb) as [_ Hsh].
    unfold shaped in Hsh. apply andb_true_iff in Hsh as [Hsh _].
    pose proof (bind_unsupplied _ _ _ _ p Hwf HK Hb Hp Hsup) as Hnone.
    destruct (absent_needs_default _ _ _ p Hsh Hp Hnone) as [H|H].
    + rewrite H in Hvar. discriminate.
    + unfold has_default in H. rewrite Hd in H. discriminate.
Qed.

End RequiredParameter.

(** *** What a call leaves of the instance *)

Section InstanceSettings.
Context {U : Type} (prog : Program U).

(** X10.  The code of a decorated call assigns nothing on the instance but
    [boundarguments]: the callbacks, the two flags, the function, the
    signature, [_boundarguments] (which stays as it was) and [_isset] are
    what they were, whether the call returns or raises.  (A callback is
    taken to change the bound arguments it is handed, not the attributes
    of the decorator.)  So an instance bound to a function stays bound to
    it, and one configured by [dynamic_defaults] stays so configured,
    through any sequence of calls. *)
Theorem call_keeps_the_instance_settings self func args kw (u : U) :
  let self' := (state_of (SignatureDecorator.inner prog func args kw (self, u))).1 in
  settings self' = settings self
  /\ (forall f, bound_to self f -> bound_to self' f)
  /\ (forall cfg f, configured_by cfg f self -> configured_by cfg f self').
Proof.
  intros self'.
  assert (Hset : settings self' = settings self).
  { subst self'.
    destruct (_signature self) as [sig|] eqn:Hs.
    - destruct (bind sig args kw) as [e|ba] eqn:Hb.
      + unfold SignatureDecorator.inner. rewrite mbind_this. cbn [fst].
        unfold SignatureDecorator.signature. rewrite Hs, mbind_of_result, Hb.
        reflexivity.
      + rewrite (class_inner_unfold prog self func sig args kw ba u Hs Hb).
        cbn zeta.
        set (ba0 := if _apply_defaults self then apply_defaults ba else ba).
        destruct (class_run_callbacks_state prog (_callbacks self) ba0
                    (SignatureDecorator.set_boundarguments ba0 self) u) as [ba' Hst].
        unfold mbind'.
        destruct (SignatureDecorator.run_callbacks prog (_callbacks self) ba0 _)
          as [[tr1 [self1 u1]] [e|ba1]]; cbn [state_of fst snd] in Hst |- *.
        * destruct Hst as [->| ->]; reflexivity.
        * unfold outside. cbn [fst snd].
          destruct (invoke prog func ba1 u1) as [[tr3 u3] r3]. cbn [state_of fst snd].
          destruct Hst as [->| ->]; reflexivity.
    - unfold SignatureDecorator.inner. rewrite mbind_this. cbn [fst].
      unfold SignatureDecorator.signature. rewrite Hs. reflexivity. }
  split; [exact Hset|].
  unfold settings in Hset. injection Hset as Hc Had Has Hf Hs _ _.
  split.
  - intros f [H1 H2]. split; congruence.
  - intros cfg f ([H1 H2] & H3 & H4 & H5). repeat split; congruence.
Qed.

End InstanceSettings.

(** *** Filling the defaults twice *)

Lemma effective_fixed p A A' :
  dict_get (name p) A' = effective p A -> effective p A' = effective p A.
Proof.
  intros H. unfold effective at 1. rewrite H.
  destruct (effective p A) as [v|] eqn:He; [reflexivity|].
  unfold effective in He. destruct (dict_get (name p) A); [discriminate|].
  destruct (default p); [discriminate|]. exact He.
Qed.

Lemma apply_defaults_idempotent ba :
  NoDup (param_names (ba_signature ba)) ->
  apply_defaults (apply_defaults ba) = apply_defaults ba.
Proof.
  intros Hnd. unfold apply_defaults at 1 3. cbn [ba_signature arguments].
  f_equal. f_equal. apply defaults_loop_ext. intros p Hp.
  apply effective_fixed.
  exact (apply_defaults_lookup ba p Hnd Hp).
Qed.

Section NoCallbackAtAll.
Context {U : Type} (prog : Program U).

Lemma invoke_after_bind (flag : bool) func args kw ba (u : U) :
  wf_signature (signature func) = true ->
  NoDup (keys kw) ->
  bind (signature func) args kw = Ok ba ->
  invoke prog func (if flag then apply_defaults ba else ba) u
  = call_function prog func args kw u.
Proof.
  intros Hwf HK Hb.
  destruct (bind_shaped _ _ _ _ Hwf HK Hb) as [Hsig Hsh].
  pose proof (wf_signature_spec _ Hwf) as (_ & Hnd & _).
  pose proof (call_function_trace prog func args kw u) as Hcall.
  rewrite (bind_is_a_call _ _ _ _ Hwf HK Hb) in Hcall. rewrite Hcall.
  destruct flag.
  - assert (Hsh' : shaped (signature func) (arguments (apply_defaults ba)) = true).
    { destruct ba as [s A]. cbn [ba_signature arguments] in Hsig, Hsh. subst s.
      apply (complete_shaped _ A); auto. }
    rewrite (invoke_shaped prog func (apply_defaults ba) u Hwf Hsig Hsh').
    cbn zeta. rewrite apply_defaults_idempotent by (rewrite Hsig; exact Hnd).
    reflexivity.
  - rewrite (invoke_shaped prog func ba u Hwf Hsig Hsh). reflexivity.
Qed.

(** X11.  Without callbacks, filling the defaults first changes nothing
    either: on every call the binder accepts, the decorated function does
    exactly what the function does.  The same holds for an instance of the
    class without callbacks, whatever its flags: same calls, same program
    state, same value or exception. *)
Theorem no_callback_is_identity_with_defaults func args kw ba (u : U) :
  wf_signature (signature func) = true ->
  NoDup (keys kw) ->
  bind (signature func) args kw = Ok ba ->
  signature_decorator_factory prog [] true func args kw u
  = call_function prog func args kw u
  /\ forall self, bound_to self func -> _callbacks self = [] ->
       let c := SignatureDecorator.inner prog func args kw (self, u) in
       let f := call_function prog func args kw u in
       trace_of c = trace_of f /\ (state_of c).2 = state_of f
       /\ outcome_of c = outcome_of f.
Proof.
  intros Hwf HK Hb. split.
  - rewrite (factory_inner_unfold prog _ _ _ _ _ ba u Hb).
    cbn [run_callbacks]. rewrite mbind_ret.
    apply (invoke_after_bind true); assumption.
  - intros self [_ Hs] Hcbs. cbn zeta.
    rewrite (class_inner_unfold prog self func _ args kw ba u Hs Hb).
    cbn zeta. rewrite Hcbs. cbn [SignatureDecorator.run_callbacks].
    rewrite mbind_ret. unfold outside. cbn [fst snd].
    rewrite (invoke_after_bind (_apply_defaults self) func args kw ba u Hwf HK Hb).
    destruct (call_function prog func args kw u) as [[tr3 u3] r3]. repeat split.
Qed.

(** X12.  With the flag off, the mapping the first callback is handed
    holds the parameters the call supplies and nothing else: a parameter is
    present exactly when it is supplied, and every key is the name of a
    parameter.  This is what lets a callback test [name in ba.arguments]
    to know whether the caller gave the argument. *)
Theorem first_callback_sees_exactly_the_supplied
    func args kw ba cb rest (u : U) :
  wf_signature (signature func) = true ->
  NoDup (keys kw) ->
  bind (signature func) args kw = Ok ba ->
  (exists tr,
      trace_of (signature_decorator_factory prog (cb :: rest) false func args kw u)
      = EvCallback cb (ArgBoundArguments ba) :: tr)
  /\ (forall self, bound_to self func -> _callbacks self = cb :: rest ->
        _apply_defaults self = false ->
        exists arg tr,
          trace_of (SignatureDecorator.inner prog func args kw (self, u))
          = EvCallback cb arg :: tr
          /\ reachable_ba arg = Some ba)
  /\ (forall p, p ∈ signature func ->
        dict_mem (name p) (arguments ba) = supplied (signature func) args kw (name p))
  /\ (forall k, k ∈ keys (arguments ba) -> k ∈ param_names (signature func)).
Proof.
  intros Hwf HK Hb. split; [|split; [|split]].
  - rewrite (factory_inner_unfold prog _ _ _ _ _ ba u Hb).
    destruct (trace_mbind_prefix (run_callbacks prog (cb :: rest) ba)
                (invoke prog func) u) as [tr' ->].
    destruct (first_callback_event prog cb rest ba u) as [tr ->].
    exists (tr ++ tr'). reflexivity.
  - intros self [_ Hs] Hcbs Hflag.
    rewrite (class_inner_unfold prog self func _ args kw ba u Hs Hb).
    cbn zeta. rewrite Hcbs, Hflag.
    destruct (trace_mbind_prefix
                (SignatureDecorator.run_callbacks prog (cb :: rest) ba)
                (fun ba' => outside (invoke prog func ba'))
                (SignatureDecorator.set_boundarguments ba self, u)) as [tr' ->].
    destruct (class_first_callback_event prog cb rest ba
                (SignatureDecorator.set_boundarguments ba self) u) as [tr ->].
    eexists _, (tr ++ tr'). split; [reflexivity|apply class_arg_reaches].
  - intros p Hp. apply bind_present_iff_supplied; assumption.
  - intros k Hk.
    destruct (decide (k ∈ param_names (signature func))) as [|Hno]; [assumption|].
    exfalso. pose proof (wf_signature_spec _ Hwf) as (Hord & _).
    unfold bind in Hb.
    destruct (bind_from args (signature func) kw []) as [e|A] eqn:Hfrom;
      [discriminate|].
    injection Hb as <-. cbn [arguments] in Hk.
    pose proof (bind_from_frame args 0 _ kw [] A k Hord Hfrom Hno) as Hframe.
    cbn in Hframe. apply dict_get_None in Hframe. contradiction.
Qed.

End NoCallbackAtAll.

(** *** An instance applied to a second function *)

Section ReuseConsequence.
Context {U : Type} (prog : Program U).

(** X13.  What the missing guard costs.  After an instance has been applied
    to [first] and then to [second], the function decorated first binds
    its calls against the signature of [second]: a call that does not
    match that signature is refused, whatever [first] declares; one that
    matches it runs the callbacks on those bound arguments and then calls
    [first] with them. *)
Theorem reused_instance_binds_against_the_last_function
    (callbacks : list callback) (apply_defaults apply_self : bool)
    (first second : Function) args kw (u : U) :
  let d0 := SignatureDecorator.__init__ callbacks apply_defaults apply_self in
  exists d1 d2 w1 w2,
    SignatureDecorator.__call__ prog d0 first = Ok (d1, w1)
    /\ SignatureDecorator.__call__ prog d1 second = Ok (d2, w2)
    /\ (forall e, bind (signature second) args kw = Err e ->
          w1 args kw (d2, u) = ([], (d2, u), Err e))
    /\ (forall ba, bind (signature second) args kw = Ok ba ->
          let ba0 := if apply_defaults then Inspect.apply_defaults ba else ba in
          w1 args kw (d2, u)
          = mbind' (SignatureDecorator.run_callbacks prog callbacks ba0)
                   (fun ba' => outside (invoke prog first ba'))
                   (SignatureDecorator.set_boundarguments ba0 d2, u)).
Proof.
  intros d0. eexists _, _, _, _.
  split; [apply call_unset; reflexivity|].
  split; [apply call_unset; reflexivity|].
  split.
  - intros e Hb. unfold SignatureDecorator.inner. rewrite mbind_this. cbn [fst].
    unfold SignatureDecorator.signature.
    cbn [_signature SignatureDecorator.set_signature].
    rewrite mbind_of_result, Hb. reflexivity.
  - intros ba Hb ba0.
    pose proof (fun self Hs =>
                  class_inner_unfold prog self first (signature second) args kw ba u
                                     Hs Hb) as Hun.
    rewrite Hun by reflexivity. reflexivity.
Qed.

End ReuseConsequence.

(** After reuse, the wrapper of [f(a, b=2)] refuses [f(1, 2)], which [f]
    accepts: it is matched against [g(x)]. *)
Lemma reused_instance_binds_against_the_last_function_witness :
  bind (signature Demo.f) [VInt 1; VInt 2] []
  = Ok (mkBoundArguments (signature Demo.f) [("a", VInt 1); ("b", VInt 2)])
  /\ exists d1 d2 w1 w2,
       SignatureDecorator.__call__ Demo.prog
         (SignatureDecorator.__init__ [] false true) Demo.f = Ok (d1, w1)
       /\ SignatureDecorator.__call__ Demo.prog d1 Demo.g = Ok (d2, w2)
       /\ w1 [VInt 1; VInt 2] [] (d2, 0)
          = ([], (d2, 0), Err (TypeError "too many positional arguments")).
Proof.
  split; [reflexivity|].
  destruct (reused_instance_binds_against_the_last_function Demo.prog
              [] false true Demo.f Demo.g [VInt 1; VInt 2] [] 0)
    as (d1 & d2 & w1 & w2 & H1 & H2 & Herr & _).
  exists d1, d2, w1, w2. split; [exact H1|]. split; [exact H2|].
  apply Herr. reflexivity.
Defined.

(** *** Several defaulting properties on one instance *)

Section PropertiesTogether.
Context {U : Type}.
Import DefaultProperty.



End PropertiesTogether.

(** *** What the conversion back to a call reads *)

Lemma args_loop_ext R : forall A B,
  (forall p, p ∈ R -> dict_get (name p) A = dict_get (name p) B) ->
  args_loop R A = args_loop R B.
Proof.
  induction R as [|q R IH]; intros A B Hsame; [reflexivity|].
  cbn [args_loop].
  rewrite (Hsame q (list_elem_of_here _ _)).
  rewrite (IH A B) by (intros p Hp; apply Hsame; right; exact Hp).
  reflexivity.
Qed.

Lemma kwargs_loop_ext R : forall A B started acc,
  (forall p, p ∈ R -> dict_get (name p) A = dict_get (name p) B) ->
  kwargs_loop R A started acc = kwargs_loop R B started acc.
Proof.
  induction R as [|q R IH]; intros A B started acc Hsame; [reflexivity|].
  assert (Htail : forall p, p ∈ R -> dict_get (name p) A = dict_get (name p) B).
  { intros p Hp. apply Hsame. right. exact Hp. }
  cbn [kwargs_loop]. unfold dict_mem.
  rewrite (Hsame q (list_elem_of_here _ _)).
  destruct (negb started && _).
  - destruct (negb _); apply IH, Htail.
  - destruct (dict_get (name q) B) as [arg|]; [|apply IH, Htail].
    destruct (decide (pkind q = VAR_KEYWORD)); [|apply IH, Htail].
    destruct arg; try reflexivity. apply IH, Htail.
Qed.


Lemma args_loop_not_iterable A p v : forall R top,
  ordered top R = true ->
  p ∈ R -> pkind p = VAR_POSITIONAL ->
  dict_get (name p) A = Some v -> iterate v = None ->
  (forall q, q ∈ R -> exists w, dict_get (name q) A = Some w) ->
  NoDup (param_names R) ->
  args_loop R A = Err (TypeError "object is not iterable").
Proof.
  induction R as [|q R IH]; intros top Hord Hp Hkind Hv Hit Hall Hnd.
  - inversion Hp.
  - cbn [param_names map] in Hnd. apply NoDup_cons in Hnd as [Hq Hnd].
    apply elem_of_cons in Hp as [<-|Hp].
    + cbn [args_loop]. rewrite Hkind, Hv.
      rewrite (args_loop_high A R)
        by (eapply ordered_after_var_positional; eassumption).
      cbn. rewrite Hit. reflexivity.
    + assert (Hrank : kind_rank (pkind q) <= 2 /\ is_variadic q = false).
      { apply ordered_cons in Hord as [_ Hord].
        pose proof (ordered_bound R p _ Hord Hp) as Hle. rewrite Hkind in Hle.
        unfold is_variadic in *. destruct (pkind q); cbn in Hle |- *; split; lia || reflexivity. }
      destruct Hrank as [Hrank Hvar].
      destruct (Hall q (list_elem_of_here _ _)) as [w Hw].
      cbn [args_loop]. rewrite Hw.
      rewrite (IH (kind_rank (pkind q)));
        [|eapply ordered_tail; eassumption|assumption..
         |intros r Hr; apply Hall; right; exact Hr|assumption].
      unfold is_variadic in Hvar. destruct (pkind q); cbn in Hrank; try lia;
        try discriminate; reflexivity.
Qed.

Section Conversions.
Context {U : Type} (prog : Program U).

(** X16.  The call of the target reads the bound arguments through the
    parameters of the signature only.  Two mappings that agree on every
    parameter name lead to the same call; so an entry a callback writes
    under a name that is not a parameter never reaches the target, and no
    error tells of it. *)
Theorem stray_entries_never_reach_the_target func ba A (u : U) :
  (forall p, p ∈ ba_signature ba ->
     dict_get (name p) A = dict_get (name p) (arguments ba)) ->
  invoke prog func (with_arguments ba A) u = invoke prog func ba u
  /\ forall k v, k ∉ param_names (ba_signature ba) ->
       invoke prog func (with_arguments ba (dict_set k v A)) u
       = invoke prog func ba u.
Proof.
  intros Hsame.
  assert (Hext : forall B,
             (forall p, p ∈ ba_signature ba ->
                dict_get (name p) B = dict_get (name p) (arguments ba)) ->
             invoke prog func (with_arguments ba B) u = invoke prog func ba u).
  { intros B HB. unfold invoke, args, kwargs, with_arguments.
    cbn [ba_signature arguments].
    rewrite (args_loop_ext _ B (arguments ba) HB).
    rewrite (kwargs_loop_ext _ B (arguments ba) false [] HB). reflexivity. }
  split; [apply Hext, Hsame|].
  intros k v Hk. apply Hext. intros p Hp.
  rewrite dict_get_set, <- (Hsame p Hp).
  destruct (decide (name p = k)) as [<-|]; [|reflexivity].
  exfalso. apply Hk, elem_names, Hp.
Qed.

(** X17.  Why the variadic parameters are set apart.  If the configuration
    gives the variable-positional parameter a value that is neither
    callable nor iterable, every call that passes no extra positional
    argument fails when the bound arguments are turned back into a call:
    it raises [TypeError] and the target body never starts. *)
Theorem non_iterable_for_variadic_fails
    kw func self args kwargs ba p v (u : U) :
  wf_signature (signature func) = true ->
  NoDup (keys kwargs) -> NoDup (keys kw) ->
  configured_by kw func self ->
  bind (signature func) args kwargs = Ok ba ->
  p ∈ signature func -> pkind p = VAR_POSITIONAL ->
  (name p, v) ∈ kw -> callable v = false -> iterate v = None ->
  supplied (signature func) args kwargs (name p) = false ->
  let call := SignatureDecorator.inner prog func args kwargs (self, u) in
  outcome_of call = Err (TypeError "object is not iterable")
  /\ target_starts (trace_of call) = [].
Proof.
  intros Hwf HK Hkw Hconf Hb Hp Hkind Hin Hnc Hit Hsup call.
  destruct (dynamic_call_facts prog kw func self args kwargs ba u Hwf HK Hkw Hconf Hb)
    as (tr1 & u1 & a' & Hloop & Hfacts).
  cbn zeta in Hfacts. destruct Hfacts as (Hcall & _ & Hlook & _).
  destruct (update_loop_spec prog kw (arguments ba) u Hkw)
    as (tr1' & u1' & a'' & Hloop' & Hkeep & Hrun).
  rewrite Hloop in Hloop'. injection Hloop' as <- <- <-.
  destruct (bind_shaped _ _ _ _ Hwf HK Hb) as [Hsig Hsh].
  pose proof (wf_signature_spec _ Hwf) as (Hord & Hnd & _).
  pose proof (bind_unsupplied _ _ _ _ p Hwf HK Hb Hp Hsup) as Hnone.
  assert (Hmem : dict_mem (name p) (arguments ba) = false)
    by (unfold dict_mem; rewrite Hnone; reflexivity).
  assert (Hval : dict_get (name p) a' = Some v).
  { specialize (Hrun _ _ Hin Hmem).
    destruct v; try discriminate Hnc; apply Hrun. }
  set (ba' := apply_defaults (with_arguments ba a')) in *.
  assert (Hall : forall q, q ∈ signature func ->
             exists w, dict_get (name q) (arguments ba') = Some w).
  { intros q Hq. rewrite (Hlook q Hq).
    destruct (dict_get (name q) (arguments ba)) as [w|] eqn:Hw.
    - exists w. apply effective_present.
      assert (Hm : dict_mem (name q) (arguments ba) = true)
        by (unfold dict_mem; rewrite Hw; reflexivity).
      rewrite (proj2 (Hkeep (name q) (or_introl Hm))). exact Hw.
    - unfold shaped in Hsh. apply andb_true_iff in Hsh as [Hsh _].
      pose proof (shaped_values _ _ _ q Hsh Hq) as Hshape. rewrite Hw in Hshape.
      unfold effective. destruct (dict_get (name q) a') as [w|]; [eauto|].
      destruct (default q) as [d|] eqn:Hd; [eauto|].
      destruct Hshape as [Hvar|Hdef];
        [|unfold has_default in Hdef; rewrite Hd in Hdef; discriminate].
      unfold is_variadic in Hvar. destruct (pkind q); try discriminate; eauto. }
  assert (Hargs : Inspect.args ba' = Err (TypeError "object is not iterable")).
  { unfold Inspect.args.
    assert (ba_signature ba' = signature func) as -> by (subst ba'; cbn; exact Hsig).
    apply (args_loop_not_iterable _ p v _ 0); try assumption.
    rewrite (Hlook p Hp). apply effective_present, Hval. }
  assert (Hinv : invoke prog func ba' u1
                 = ([], u1, Err (TypeError "object is not iterable"))).
  { unfold invoke. rewrite mbind_of_result, Hargs. reflexivity. }
  subst call. rewrite Hcall, Hinv. cbn [outcome_of trace_of fst snd].
  split; [reflexivity|].
  change (target_starts (EvCallback ?c ?a :: ?l)) with (target_starts l).
  rewrite app_nil_r. apply target_starts_no_callee.
  pose proof (update_loop_callees prog kw (arguments ba) u) as Hc.
  rewrite Hloop in Hc. exact Hc.
Qed.

End Conversions.

Lemma stray_entries_never_reach_the_target_witness :
  invoke Demo.prog Demo.f
    (with_arguments (mkBoundArguments (signature Demo.f) [("a", VInt 1)])
       (dict_set "c" (VInt 5) [("a", VInt 1)])) 0
  = invoke Demo.prog Demo.f
      (mkBoundArguments (signature Demo.f) [("a", VInt 1)]) 0.
Proof.
  refine (proj2 (stray_entries_never_reach_the_target Demo.prog Demo.f
                   (mkBoundArguments (signature Demo.f) [("a", VInt 1)])
                   [("a", VInt 1)] 0 (fun _ _ => eq_refl))
            "c" (VInt 5) _).
  apply (bool_decide_unpack _). reflexivity.
Defined.

Lemma non_iterable_for_variadic_fails_witness :
  let call := SignatureDecorator.inner Demo.prog Demo.h [VInt 1] []
                (Demo.decorated [("rest", VInt 3)] Demo.h, 0) in
  outcome_of call = Err (TypeError "object is not iterable")
  /\ target_starts (trace_of call) = [].
Proof.
  refine (non_iterable_for_variadic_fails Demo.prog
            [("rest", VInt 3)] Demo.h (Demo.decorated [("rest", VInt 3)] Demo.h)
            [VInt 1] []
            (mkBoundArguments (signature Demo.h) [("p", VInt 1)])
            (mkParam "rest" VAR_POSITIONAL None) (VInt 3) 0
            eq_refl _ _ _ eq_refl _ eq_refl _ eq_refl eq_refl eq_refl).
  - apply NoDup_nil_2.
  - apply NoDup_singleton.
  - repeat split.
  - do 2 apply list_elem_of_further. apply list_elem_of_here.
  - apply list_elem_of_here.
Defined.

(** *** More runs of the demonstration program *)

Lemma supplied_arguments_are_kept_witness :
  let call := SignatureDecorator.inner Demo.prog Demo.f [VInt 1; VInt 7] []
                (Demo.decorated Demo.counting_b Demo.f, 0) in
  exists v ba',
    dict_get "b" [("a", VInt 1); ("b", VInt 7)] = Some v
    /\ boundarguments (state_of call).1 = Some ba'
    /\ dict_get "b" (arguments ba') = Some v
    /\ (plain_configuration Demo.counting_b (signature Demo.f) ->
        exists locals, target_starts (trace_of call) = [locals]
                       /\ dict_get "b" locals = Some v).
Proof.
  refine (supplied_arguments_are_kept Demo.prog
            Demo.counting_b Demo.f (Demo.decorated Demo.counting_b Demo.f)
            [VInt 1; VInt 7] []
            (mkBoundArguments (signature Demo.f) [("a", VInt 1); ("b", VInt 7)])
            (mkParam "b" POSITIONAL_OR_KEYWORD (Some (VInt 2))) 0
            eq_refl _ _ _ eq_refl _ eq_refl).
  - apply NoDup_nil_2.
  - apply NoDup_singleton.
  - repeat split.
  - apply list_elem_of_further, list_elem_of_here.
Defined.

Lemma unconfigured_parameters_get_declared_defaults_witness :
  let call := SignatureDecorator.inner Demo.prog Demo.h [VInt 1] []
                (Demo.decorated [("a", VFunc 0)] Demo.h, 0) in
  exists ba',
    boundarguments (state_of call).1 = Some ba'
    /\ dict_get "k" (arguments ba') = Some VNone
    /\ (plain_configuration [("a", VFunc 0)] (signature Demo.h) ->
        exists locals, target_starts (trace_of call) = [locals]
                       /\ dict_get "k" locals = Some VNone).
Proof.
  refine (unconfigured_parameters_get_declared_defaults Demo.prog
            [("a", VFunc 0)] Demo.h (Demo.decorated [("a", VFunc 0)] Demo.h)
            [VInt 1] []
            (mkBoundArguments (signature Demo.h) [("p", VInt 1)])
            (mkParam "k" KEYWORD_ONLY (Some VNone)) VNone 0
            eq_refl _ _ _ eq_refl _ _ eq_refl eq_refl).
  - apply NoDup_nil_2.
  - apply NoDup_singleton.
  - repeat split.
  - do 3 apply list_elem_of_further. apply list_elem_of_here.
  - apply (bool_decide_unpack _). reflexivity.
Defined.

Lemma dynamic_call_binds_every_parameter_witness :
  let call := SignatureDecorator.inner Demo.prog Demo.h [VInt 1] []
                (Demo.decorated [("a", VFunc 0)] Demo.h, 0) in
  exists ba',
    boundarguments (state_of call).1 = Some ba'
    /\ ba_signature ba' = signature Demo.h
    /\ keys (arguments ba') = ["p"; "a"; "rest"; "k"; "kw"]
    /\ forall p, p ∈ signature Demo.h ->
         exists v, dict_get (name p) (arguments ba') = Some v.
Proof.
  refine (dynamic_call_binds_every_parameter Demo.prog
            [("a", VFunc 0)] Demo.h (Demo.decorated [("a", VFunc 0)] Demo.h)
            [VInt 1] []
            (mkBoundArguments (signature Demo.h) [("p", VInt 1)]) 0
            eq_refl _ _ _ eq_refl).
  - apply NoDup_nil_2.
  - apply NoDup_singleton.
  - repeat split.
Defined.

Lemma providers_run_in_configuration_order_witness :
  provider_events
    (trace_of (SignatureDecorator.inner Demo.prog Demo.f [] [("a", VInt 1)]
                 (Demo.decorated [("b", VFunc 0); ("a", VFunc 1)] Demo.f, 0)))
  = [("b", 0)].
Proof.
  refine (providers_run_in_configuration_order Demo.prog
            [("b", VFunc 0); ("a", VFunc 1)] Demo.f
            (Demo.decorated [("b", VFunc 0); ("a", VFunc 1)] Demo.f)
            [] [("a", VInt 1)]
            (mkBoundArguments (signature Demo.f) [("a", VInt 1)]) 0
            _ _ eq_refl).
  - apply (bool_decide_unpack _). reflexivity.
  - repeat split.
Defined.

Lemma required_parameter_must_be_supplied_witness :
  exists e,
    is_TypeError e = true
    /\ bind (signature Demo.g) [] [] = Err e
    /\ SignatureDecorator.inner Demo.prog Demo.g [] []
         (Demo.decorated Demo.counting_x Demo.g, 0)
       = ([], (Demo.decorated Demo.counting_x Demo.g, 0), Err e)
    /\ forall callbacks (apply_defaults : bool),
         signature_decorator_factory Demo.prog callbacks apply_defaults
                                     Demo.g [] [] 0
         = ([], 0, Err e).
Proof.
  refine (required_parameter_must_be_supplied Demo.prog
            (Demo.decorated Demo.counting_x Demo.g) Demo.g [] []
            (mkParam "x" POSITIONAL_OR_KEYWORD None) 0
            eq_refl _ _ _ eq_refl eq_refl eq_refl).
  - apply NoDup_nil_2.
  - split; reflexivity.
  - apply list_elem_of_here.
Defined.

Lemma no_callback_is_identity_with_defaults_witness :
  signature_decorator_factory Demo.prog [] true Demo.h
    [VInt 1; VInt 2; VInt 3] [("k", VInt 4); ("z", VInt 5)] 0
  = call_function Demo.prog Demo.h
      [VInt 1; VInt 2; VInt 3] [("k", VInt 4); ("z", VInt 5)] 0.
Proof.
  refine (proj1 (no_callback_is_identity_with_defaults Demo.prog Demo.h
           [VInt 1; VInt 2; VInt 3] [("k", VInt 4); ("z", VInt 5)]
           (mkBoundArguments (signature Demo.h)
              [("p", VInt 1); ("a", VInt 2); ("rest", VTuple [VInt 3]);
               ("k", VInt 4); ("kw", VDict [("z", VInt 5)])]) 0
           eq_refl _ eq_refl)).
  apply (bool_decide_unpack _). reflexivity.
Defined.

Lemma first_callback_sees_exactly_the_supplied_witness :
  dict_mem "a" [("a", VInt 1)] = supplied (signature Demo.f) [] [("a", VInt 1)] "a"
  /\ dict_mem "b" [("a", VInt 1)] = supplied (signature Demo.f) [] [("a", VInt 1)] "b".
Proof.
  pose proof (proj1 (proj2 (proj2
                (first_callback_sees_exactly_the_supplied Demo.prog Demo.f
                   [] [("a", VInt 1)]
                   (mkBoundArguments (signature Demo.f) [("a", VInt 1)])
                   (UserCallback 1) [] 0 eq_refl
                   (NoDup_singleton "a") eq_refl)))) as H.
  split.
  - apply (H (mkParam "a" POSITIONAL_OR_KEYWORD None)), list_elem_of_here.
  - apply (H (mkParam "b" POSITIONAL_OR_KEYWORD (Some (VInt 2)))).
    apply list_elem_of_further, list_elem_of_here.
Defined.

